(** * Two-phase schema evaluator ([schema_demo.py])

    A shallow embedding of the lazy-generation demo: the schema classifier
    [_extract_schema], the two evaluation passes [_evaluate_eager] and
    [_evaluate_lazy], [create], and the structural merge [deep_merge].

    Modelling choices, all taken from the source:
    - a Python [dict] with string keys is an association list in insertion
      order; [d[k] = v] replaces the value in place when [k] is present and
      appends otherwise ([dict_set]), [d.get(k, dflt)] is [dict_get_default],
      [d.items()] walks the list from the left.  A Python dict never holds a
      key twice, which is the predicate [tree_wf];
    - [SchemaNode = tuple[...] | dict[str, SchemaNode]] is the inductive
      [tree] with the tuple as a leaf; the same type, at another leaf type,
      is the result tree ([dict[str, Any]]), so that the single function
      [deep_merge] of the source serves both, as it does in Python;
    - exceptions are the [Raise] case of [outcome];
    - generators are opaque: [invoke] is a parameter, threaded through a
      state of its own, and every invocation is recorded in a log. *)

From stdpp Require Import base option list strings.
From Stdlib Require Import ZArith Lia Ascii.

Set Default Proof Using "Type".

(** ** Exceptions and outcomes *)

Inductive exn : Type :=
| TypeError (msg : string)
| ValueError (msg : string)
| AttributeError (msg : string)
| IndexError (msg : string)
| LookupFailure (msg : string)
| GenerationFailure (msg : string).

Inductive outcome (A : Type) : Type :=
| Ok (a : A)
| Raise (e : exn).
Arguments Ok {A} a.
Arguments Raise {A} e.

Definition is_ok {A} (o : outcome A) : bool :=
  match o with Ok _ => true | Raise _ => false end.

Definition obind {A B} (o : outcome A) (f : A → outcome B) : outcome B :=
  match o with
  | Ok a => f a
  | Raise e => Raise e
  end.

(** ** Python dictionaries with string keys *)

Section Dict.
Context {V : Type}.

(** [d.get(key)] *)
Fixpoint dict_get (d : list (string * V)) (key : string) : option V :=
  match d with
  | [] => None
  | (k, v) :: rest => if decide (k = key) then Some v else dict_get rest key
  end.

(** [d.get(key, dflt)] *)
Definition dict_get_default (d : list (string * V)) (key : string) (dflt : V) : V :=
  default dflt (dict_get d key).

(** [d[key] = v]: in place for a key that is present, at the end otherwise. *)
Fixpoint dict_set (d : list (string * V)) (key : string) (v : V) : list (string * V) :=
  match d with
  | [] => [(key, v)]
  | (k, x) :: rest =>
      if decide (k = key) then (k, v) :: rest else (k, x) :: dict_set rest key v
  end.

(** [list(d.keys())] *)
Definition dict_keys (d : list (string * V)) : list string := d.*1.
End Dict.

(** ** Trees: schema trees and result trees *)

Unset Elimination Schemes.
Inductive tree (A : Type) : Type :=
| Leaf (a : A)
| Group (items : list (string * tree A)).
Arguments Leaf {A} a.
Arguments Group {A} items.

Abbreviation dict A := (list (string * tree A)).

(** [isinstance(x, dict)] *)
Definition is_dict {A} (t : tree A) : bool :=
  match t with Group _ => true | Leaf _ => false end.

Section TreeInd.
Context {A : Type} (P : tree A → Prop).
Hypothesis HLeaf : ∀ a, P (Leaf a).
Hypothesis HGroup : ∀ items, Forall (λ kv, P kv.2) items → P (Group items).

Fixpoint tree_ind (t : tree A) : P t :=
  match t with
  | Leaf a => HLeaf a
  | Group items =>
      HGroup items
        ((fix go (l : dict A) : Forall (λ kv, P kv.2) l :=
            match l with
            | [] => List.Forall_nil _
            | kv :: rest => List.Forall_cons _ kv rest (tree_ind kv.2) (go rest)
            end) items)
  end.
End TreeInd.

(** A tree all of whose dictionaries hold each key once. *)
Inductive tree_wf {A : Type} : tree A → Prop :=
| wf_Leaf a : tree_wf (Leaf a)
| wf_Group items :
    NoDup (dict_keys items) →
    Forall (λ kv, tree_wf kv.2) items →
    tree_wf (Group items).
Set Elimination Schemes.

(** The same, as a check that runs. *)
Fixpoint tree_wfb {A : Type} (t : tree A) : bool :=
  match t with
  | Leaf _ => true
  | Group items =>
      bool_decide (NoDup (dict_keys items)) &&
      (fix all (l : dict A) : bool :=
         match l with
         | [] => true
         | (_, v) :: rest => tree_wfb v && all rest
         end) items
  end.

(** Navigation along a path of keys; the empty path is the tree itself. *)
Fixpoint lookup_path {A : Type} (t : tree A) (p : list string) : option (tree A) :=
  match p with
  | [] => Some t
  | k :: p' =>
      match t with
      | Group items =>
          match dict_get items k with
          | Some v => lookup_path v p'
          | None => None
          end
      | Leaf _ => None
      end
  end.

(** Number of leaves, at any depth. *)
Fixpoint leaf_count {A : Type} (t : tree A) : nat :=
  match t with
  | Leaf _ => 1
  | Group items =>
      (fix sum (l : dict A) : nat :=
         match l with
         | [] => 0
         | (_, v) :: rest => leaf_count v + sum rest
         end) items
  end.

(** ** Values *)

(** Non-dict values of the result tree: what the demo's generators return
    and what a static argument holds. *)
Inductive atom : Type :=
| ANone
| ABool (b : bool)
| AInt (z : Z)
| AStr (s : string).

(** [Any], as far as the evaluator looks into it: a dict or not. *)
Definition pyval : Type := tree atom.

(** ** Generator holders *)

(** The classes [isinstance] is asked about; [CUser] stands for any further
    class of the application. *)
Inductive pyclass : Type :=
| CObject
| CBaseField
| CField
| CFieldset
| CLazyField
| CUser (n : nat).

Global Instance pyclass_eq_dec : EqDecision pyclass.
Proof. solve_decision. Defined.

(** A holder object: its identity and the classes of its type's MRO. *)
Record holder : Type := Holder {
  holder_id : nat;
  holder_mro : list pyclass;
}.

(** [isinstance(h, target_types)] for a tuple of classes. *)
Definition isinstance (h : holder) (target_types : list pyclass) : bool :=
  existsb (λ c, bool_decide (c ∈ target_types)) (holder_mro h).

(** A leaf of the schema: [(field, handler, kwargs)]. *)
Record leaf : Type := MkLeaf {
  leaf_field : holder;
  leaf_handler : string;
  leaf_kwargs : list (string * pyval);
}.

(** [SchemaNode] and [SchemaType] *)
Definition SchemaNode : Type := tree leaf.
Definition SchemaType : Type := list (string * tree leaf).

(** [EvaluatedSchema.LAZY_TYPES] and [EvaluatedSchema.EAGER_TYPES] *)
Definition LAZY_TYPES : list pyclass := [CLazyField].
Definition EAGER_TYPES : list pyclass := [CField; CFieldset].

(** The three holders of the demo. *)
Definition fieldset : holder := Holder 0 [CFieldset; CBaseField; CObject].
Definition field : holder := Holder 1 [CField; CBaseField; CObject].
Definition lazy_field : holder := Holder 2 [CLazyField; CBaseField; CObject].

(** ** Schema classifier *)

(** [EvaluatedSchema._extract_schema], by recursion on the schema node; the
    method is only ever applied to dicts, so the [Leaf] case of the outer
    match is never reached from [_extract_schema]. *)
Fixpoint extract_node (schema : SchemaNode) (target_types : list pyclass)
    {struct schema} : SchemaType :=
  match schema with
  | Leaf _ => []
  | Group items =>
      (fix loop (items : SchemaType) (extracted_schema : SchemaType) : SchemaType :=
         match items with
         | [] => extracted_schema
         | (node_name, node) :: rest =>
             match node with
             | Group _ =>
                 loop rest
                   (dict_set extracted_schema node_name
                      (Group (extract_node node target_types)))
             | Leaf l =>
                 if isinstance (leaf_field l) target_types
                 then loop rest (dict_set extracted_schema node_name node)
                 else loop rest extracted_schema
             end
         end) items []
  end.

Definition _extract_schema (schema : SchemaType) (target_types : list pyclass)
    : SchemaType :=
  extract_node (Group schema) target_types.

(** The loop of [_extract_schema], from any accumulator. *)
Fixpoint extract_loop (items : SchemaType) (target_types : list pyclass)
    (extracted_schema : SchemaType) : SchemaType :=
  match items with
  | [] => extracted_schema
  | (node_name, Group sub) :: rest =>
      extract_loop rest target_types
        (dict_set extracted_schema node_name (Group (_extract_schema sub target_types)))
  | (node_name, Leaf l) :: rest =>
      if isinstance (leaf_field l) target_types
      then extract_loop rest target_types (dict_set extracted_schema node_name (Leaf l))
      else extract_loop rest target_types extracted_schema
  end.

(** ** Structural merge *)

Section Merge.
Context {A : Type}.

(** [dict(x)] for an [x] that is not a dict. *)
Variable dict_of_leaf : A → outcome (dict A).

(** [dict(d1)] *)
Definition py_dict (d1 : tree A) : outcome (dict A) :=
  match d1 with
  | Group items => Ok items
  | Leaf a => dict_of_leaf a
  end.

(** [deep_merge(d1, d2)].  The recursion is on [d2]: the recursive call
    receives a value of [d2] and whatever [result] holds at that key. *)
Fixpoint deep_merge (d1 d2 : tree A) {struct d2} : outcome (dict A) :=
  match py_dict d1 with
  | Raise e => Raise e
  | Ok result0 =>
      match d2 with
      | Leaf _ => Raise (AttributeError "items")
      | Group items =>
          (fix loop (items : dict A) (result : dict A) : outcome (dict A) :=
             match items with
             | [] => Ok result
             | (key, value) :: rest =>
                 match value with
                 | Group _ =>
                     let node := dict_get_default result key (Group []) in
                     match deep_merge node value with
                     | Ok merged => loop rest (dict_set result key (Group merged))
                     | Raise e => Raise e
                     end
                 | Leaf _ => loop rest (dict_set result key value)
                 end
             end) items result0
      end
  end.

(** The loop of [deep_merge], from any [result]. *)
Fixpoint merge_loop (items : dict A) (result : dict A) : outcome (dict A) :=
  match items with
  | [] => Ok result
  | (key, value) :: rest =>
      if is_dict value
      then obind (deep_merge (dict_get_default result key (Group [])) value)
             (λ merged, merge_loop rest (dict_set result key (Group merged)))
      else merge_loop rest (dict_set result key value)
  end.
End Merge.

(** [dict(x)] on the atoms: [dict("")] is [{}], a non-empty string has
    elements of length one, the others are not iterable. *)
Definition dict_of_atom (a : atom) : outcome (dict atom) :=
  match a with
  | AStr "" => Ok []
  | AStr _ => Raise (ValueError "dictionary update sequence element #0 has length 1; 2 is required")
  | ANone => Raise (TypeError "'NoneType' object is not iterable")
  | ABool _ => Raise (TypeError "'bool' object is not iterable")
  | AInt _ => Raise (TypeError "'int' object is not iterable")
  end.

(** [dict(x)] on a schema leaf: the first element of the triple, the holder,
    is not a sequence. *)
Definition dict_of_schema_leaf (l : leaf) : outcome (dict leaf) :=
  Raise (TypeError "cannot convert dictionary update sequence element #0 to a sequence").

(** ** Two-phase evaluator *)

(** The leaves of a tree, in iteration order. *)
Fixpoint leaves {A : Type} (t : tree A) : list A :=
  match t with
  | Leaf a => [a]
  | Group items =>
      (fix go (l : dict A) : list A :=
         match l with
         | [] => []
         | (_, v) :: rest => leaves v ++ go rest
         end) items
  end.

(** The attributes [__init__] stores on the instance. *)
Record EvaluatedSchema : Type := MkEvaluatedSchema {
  eager_schema : SchemaType;
  lazy_schema : SchemaType;
}.

(** [EvaluatedSchema.__init__] *)
Definition __init__ (schema : SchemaType) : EvaluatedSchema :=
  {| eager_schema := _extract_schema schema EAGER_TYPES;
     lazy_schema := _extract_schema schema LAZY_TYPES |}.

(** The reserved keyword of the lazy pass. *)
Definition EAGER_DATA : string := "_eager_data".

(** Keywords of a call [f(x, k1=v1, ..., **star)]: a key of [star] that is
    also among the explicit keywords is a [TypeError], raised before the
    callee runs. *)
Definition bind_keywords (explicit star : list (string * pyval))
    : outcome (list (string * pyval)) :=
  match List.find (λ kv, bool_decide (kv.1 ∈ dict_keys explicit)) star with
  | Some (k, _) => Raise (TypeError ("got multiple values for keyword argument " +:+ k))
  | None => Ok (explicit ++ star)
  end.

Section Evaluator.
(** What the generators read and write: random state, counters. *)
Variable gstate : Type.

(** [field.__call__], once the keywords of [field(handler, **kwargs)] are
    bound: the holder resolves [handler] and runs the generator on the
    keywords; for [LazyField] it is a call of [self.perform]. *)
Variable invoke :
  holder → string → list (string * pyval) → gstate → outcome pyval * gstate.

(** One call of a holder that reached the holder. *)
Record invocation : Type := MkInvocation {
  inv_field : holder;
  inv_handler : string;
  inv_kwargs : list (string * pyval);
  inv_result : outcome pyval;
}.

(** The evaluator instance, the generators' state and the calls so far. *)
Record world : Type := MkWorld {
  this : EvaluatedSchema;
  gen : gstate;
  log : list invocation;
}.

Definition M (A : Type) : Type := world → outcome A * world.

Definition mret {A} (a : A) : M A := λ w, (Ok a, w).
Definition mraise {A} (e : exn) : M A := λ w, (Raise e, w).
Definition mbind {A B} (m : M A) (f : A → M B) : M B :=
  λ w, match m w with
       | (Ok a, w') => f a w'
       | (Raise e, w') => (Raise e, w')
       end.
Definition mlift {A} (o : outcome A) : M A := λ w, (o, w).
Definition get_self : M EvaluatedSchema := λ w, (Ok (this w), w).

Notation "'let!' x ':=' m 'in' k" := (mbind m (λ x, k))
  (at level 10, x name, m at level 100, k at level 200, only parsing).

(** [field(handler, k1=v1, ..., **kwargs)] *)
Definition call_field (f : holder) (handler : string)
    (explicit kwargs : list (string * pyval)) : M pyval :=
  λ w, match bind_keywords explicit kwargs with
       | Raise e => (Raise e, w)
       | Ok kws =>
           let '(r, g) := invoke f handler kws (gen w) in
           (r, {| this := this w; gen := g;
                  log := log w ++ [MkInvocation f handler kws r] |})
       end.

(** [EvaluatedSchema._evaluate_eager] *)
Fixpoint evaluate_eager_node (schema : SchemaNode) {struct schema} : M (dict atom) :=
  match schema with
  | Leaf _ => mraise (AttributeError "items")
  | Group items =>
      (fix loop (items : SchemaType) (results : dict atom) : M (dict atom) :=
         match items with
         | [] => mret results
         | (node_name, node) :: rest =>
             match node with
             | Group _ =>
                 let! sub := evaluate_eager_node node in
                 loop rest (dict_set results node_name (Group sub))
             | Leaf l =>
                 let! v := call_field (leaf_field l) (leaf_handler l) [] (leaf_kwargs l) in
                 loop rest (dict_set results node_name v)
             end
         end) items []
  end.

Definition _evaluate_eager (schema : SchemaType) : M (dict atom) :=
  evaluate_eager_node (Group schema).

(** [EvaluatedSchema._evaluate_lazy] *)
Fixpoint evaluate_lazy_node (schema : SchemaNode) (existing_results : dict atom)
    {struct schema} : M (dict atom) :=
  match schema with
  | Leaf _ => mraise (AttributeError "items")
  | Group items =>
      (fix loop (items : SchemaType) (new_results : dict atom) : M (dict atom) :=
         match items with
         | [] => mret new_results
         | (node_name, node) :: rest =>
             match node with
             | Group _ =>
                 let! sub := evaluate_lazy_node node existing_results in
                 loop rest (dict_set new_results node_name (Group sub))
             | Leaf l =>
                 let! v := call_field (leaf_field l) (leaf_handler l)
                       [(EAGER_DATA, Group existing_results)] (leaf_kwargs l) in
                 loop rest (dict_set new_results node_name v)
             end
         end) items []
  end.

Definition _evaluate_lazy (schema : SchemaType) (existing_results : dict atom)
    : M (dict atom) :=
  evaluate_lazy_node (Group schema) existing_results.

(** [EvaluatedSchema.create] *)
Definition create : M (dict atom) :=
  let! self := get_self in
  let! eager_results := _evaluate_eager (eager_schema self) in
  let! self := get_self in
  let! lazy_results := _evaluate_lazy (lazy_schema self) eager_results in
  mlift (deep_merge dict_of_atom (Group eager_results) (Group lazy_results)).

(** [EvaluatedSchema(schema)], in a process whose generators are in state [g]. *)
Definition construct (schema : SchemaType) (g : gstate) : world :=
  {| this := __init__ schema; gen := g; log := [] |}.

(** The calls a run added to the log. *)
Definition new_calls {A} (m : M A) (w : world) : list invocation :=
  drop (length (log w)) (log (m w).2).

(** The loops of the two passes, from any accumulator. *)
Fixpoint eager_loop (items : SchemaType) (results : dict atom) : M (dict atom) :=
  match items with
  | [] => mret results
  | (node_name, Group sub) :: rest =>
      let! r := _evaluate_eager sub in
      eager_loop rest (dict_set results node_name (Group r))
  | (node_name, Leaf l) :: rest =>
      let! v := call_field (leaf_field l) (leaf_handler l) [] (leaf_kwargs l) in
      eager_loop rest (dict_set results node_name v)
  end.

Fixpoint lazy_loop (items : SchemaType) (existing_results new_results : dict atom)
    : M (dict atom) :=
  match items with
  | [] => mret new_results
  | (node_name, Group sub) :: rest =>
      let! r := _evaluate_lazy sub existing_results in
      lazy_loop rest existing_results (dict_set new_results node_name (Group r))
  | (node_name, Leaf l) :: rest =>
      let! v := call_field (leaf_field l) (leaf_handler l)
            [(EAGER_DATA, Group existing_results)] (leaf_kwargs l) in
      lazy_loop rest existing_results (dict_set new_results node_name v)
  end.
End Evaluator.

Arguments MkWorld {gstate} _ _ _.
Arguments this {gstate} _.
Arguments gen {gstate} _.
Arguments log {gstate} _.
Arguments mret {gstate A} _ _.
Arguments mraise {gstate A} _ _.
Arguments mbind {gstate A B} _ _ _.
Arguments mlift {gstate A} _ _.
Arguments get_self {gstate} _.
Arguments call_field {gstate} _ _ _ _ _ _.
Arguments evaluate_eager_node {gstate} _ _ _.
Arguments _evaluate_eager {gstate} _ _ _.
Arguments evaluate_lazy_node {gstate} _ _ _ _.
Arguments _evaluate_lazy {gstate} _ _ _ _.
Arguments eager_loop {gstate} _ _ _ _.
Arguments lazy_loop {gstate} _ _ _ _ _.
Arguments create {gstate} _ _.
Arguments construct {gstate} _ _.
Arguments new_calls {gstate A} _ _.

(** ** The classifier on the object store

    Python dicts and tuples are objects reached by reference.  To speak of
    which objects [_extract_schema] creates, writes and shares, the method is
    run here on a store of objects, the schema being given by the address of
    its dict. *)

Abbreviation addr := nat.

Inductive obj : Type :=
| ODict (items : list (string * addr))
| OTuple (l : leaf)
| OValue (a : atom).

(** The store: the object of address [a] is the [a]-th one allocated. *)
Abbreviation heap := (list obj).

Definition alloc (h : heap) (o : obj) : addr * heap := (length h, h ++ [o]).

(** [d[key] = v] for the dict object at address [d]. *)
Definition store_item (h : heap) (d : addr) (key : string) (v : addr) : heap :=
  match h !! d with
  | Some (ODict items) => <[d := ODict (dict_set items key v)]> h
  | _ => h
  end.

(** [node[0]] for an object that is neither a dict nor a leaf tuple, followed
    by the [isinstance] test, which no string passes. *)
Definition subscript0_isinstance (a : atom) : outcome bool :=
  match a with
  | AStr "" => Raise (IndexError "string index out of range")
  | AStr _ => Ok false
  | ANone => Raise (TypeError "'NoneType' object is not subscriptable")
  | ABool _ => Raise (TypeError "'bool' object is not subscriptable")
  | AInt _ => Raise (TypeError "'int' object is not subscriptable")
  end.

(** [_extract_schema] on the store.  [fuel] bounds the depth of the Python
    call stack; [None] is an exhausted bound or a dangling address.  The
    items of [schema] are read once: the loop writes to [extracted_schema]
    and the recursive calls to dicts of their own, never to [schema]. *)
Fixpoint h_extract_schema (fuel : nat) (schema : addr) (target_types : list pyclass)
    (h : heap) : option (outcome addr * heap) :=
  match fuel with
  | 0 => None
  | S fuel' =>
      let '(extracted_schema, h0) := alloc h (ODict []) in
      match h !! schema with
      | None => None
      | Some (ODict items) =>
          (fix loop (items : list (string * addr)) (h : heap)
             : option (outcome addr * heap) :=
             match items with
             | [] => Some (Ok extracted_schema, h)
             | (node_name, node) :: rest =>
                 match h !! node with
                 | None => None
                 | Some (ODict _) =>
                     match h_extract_schema fuel' node target_types h with
                     | Some (Ok sub, h') =>
                         loop rest (store_item h' extracted_schema node_name sub)
                     | Some (Raise e, h') => Some (Raise e, h')
                     | None => None
                     end
                 | Some (OTuple l) =>
                     if isinstance (leaf_field l) target_types
                     then loop rest (store_item h extracted_schema node_name node)
                     else loop rest h
                 | Some (OValue a) =>
                     match subscript0_isinstance a with
                     | Ok true => loop rest (store_item h extracted_schema node_name node)
                     | Ok false => loop rest h
                     | Raise e => Some (Raise e, h)
                     end
                 end
             end) items h0
      | Some _ => Some (Raise (AttributeError "items"), h0)
      end
  end.

(** The store holds at address [a] the schema tree [t], each leaf of [t]
    paired with the address of its tuple; the dicts of the tree lie at
    addresses in [G]. *)
Unset Elimination Schemes.
Inductive located (G : addr → Prop) (h : heap) : addr → tree (addr * leaf) → Prop :=
| located_Leaf a l :
    h !! a = Some (OTuple l) →
    located G h a (Leaf (a, l))
| located_Group a aitems items :
    h !! a = Some (ODict aitems) →
    G a →
    Forall2 (λ x y, x.1 = y.1 ∧ located G h x.2 y.2) aitems items →
    located G h a (Group items).
Set Elimination Schemes.

(** The tree with [f] applied to every leaf. *)
Fixpoint tree_map {A B : Type} (f : A → B) (t : tree A) : tree B :=
  match t with
  | Leaf a => Leaf (f a)
  | Group items =>
      Group ((fix go (l : dict A) : dict B :=
                match l with
                | [] => []
                | (k, v) :: rest => (k, tree_map f v) :: go rest
                end) items)
  end.

(** The tree without the leaves that [keep] rejects; every group stays. *)
Fixpoint filter_tree {A : Type} (keep : A → bool) (t : tree A) : tree A :=
  match t with
  | Leaf a => Leaf a
  | Group items =>
      Group ((fix go (l : dict A) : dict A :=
                match l with
                | [] => []
                | (k, v) :: rest =>
                    match v with
                    | Leaf a => if keep a then (k, v) :: go rest else go rest
                    | Group _ => (k, filter_tree keep v) :: go rest
                    end
                end) items)
  end.

(** Nesting depth of a tree: the recursion depth of a walk over it. *)
Fixpoint depth {A : Type} (t : tree A) : nat :=
  match t with
  | Leaf _ => 0
  | Group items =>
      S ((fix go (l : dict A) : nat :=
            match l with
            | [] => 0
            | (_, v) :: rest => Nat.max (depth v) (go rest)
            end) items)
  end.

(** * Vocabulary of the properties *)

(** ** The classifier as a filter *)

(** On a dict, which holds no key twice, every assignment of the loop
    appends, so the loop is a filter that keeps the order. *)
Fixpoint extract_items (items : SchemaType) (target_types : list pyclass) : SchemaType :=
  match items with
  | [] => []
  | (node_name, Group sub) :: rest =>
      (node_name, Group (_extract_schema sub target_types))
        :: extract_items rest target_types
  | (node_name, Leaf l) :: rest =>
      if isinstance (leaf_field l) target_types
      then (node_name, Leaf l) :: extract_items rest target_types
      else extract_items rest target_types
  end.

(** ** Merging *)

(** No key holds a group in [overlay] and a non-group in [base], at any
    level the merge visits. *)
Unset Elimination Schemes.
Inductive compatible {A : Type} : dict A → dict A → Prop :=
| compatible_intro base overlay :
    (∀ k g a, dict_get overlay k = Some (Group g) → dict_get base k ≠ Some (Leaf a)) →
    (∀ k g b, dict_get overlay k = Some (Group g) → dict_get base k = Some (Group b) →
              compatible b g) →
    compatible base overlay.
Set Elimination Schemes.

(** The keys of the dict at path [p], none where there is no dict. *)
Definition keys_at {A : Type} (t : tree A) (p : list string) : list string :=
  match lookup_path t p with
  | Some (Group d) => dict_keys d
  | _ => []
  end.

(** The four clauses of the merge contract, for a result [r]; the leaves
    are values of any kind and [dict_of_leaf] is [dict] on them, whatever it
    does. *)
Definition merge_contract {A : Type} (dict_of_leaf : A → outcome (dict A))
    (base overlay r : dict A) : Prop :=
  (∀ k a, dict_get overlay k = Some (Leaf a) → dict_get r k = Some (Leaf a)) ∧
  (∀ k g, dict_get overlay k = Some (Group g) →
     ∃ m, deep_merge dict_of_leaf (dict_get_default base k (Group [])) (Group g) = Ok m
          ∧ dict_get r k = Some (Group m)) ∧
  (∀ k, dict_get overlay k = None → dict_get r k = dict_get base k) ∧
  (∀ p R, lookup_path (Group r) p = Some (Group R) →
     ∀ k, k ∈ dict_keys R ↔ k ∈ keys_at (Group base) p ∨ k ∈ keys_at (Group overlay) p).

(** The dict with [f] applied to the value of every key. *)
Definition dict_map_values {V : Type} (f : string → V → V) (d : list (string * V))
    : list (string * V) :=
  (λ kv, (kv.1, f kv.1 kv.2)) <$> d.

(** ** Classification completeness *)

(** Two trees with the same key structure: along every path both hold a
    leaf, and the same one, or both hold a group, with the same keys, or
    neither holds anything. *)
Definition same_structure {A} (t1 t2 : tree A) : Prop :=
  ∀ p, match lookup_path t1 p, lookup_path t2 p with
       | Some (Leaf a), Some (Leaf b) => a = b
       | Some (Group d1), Some (Group d2) => ∀ k, k ∈ dict_keys d1 ↔ k ∈ dict_keys d2
       | None, None => True
       | _, _ => False
       end.

(** A holder of exactly one of the two kinds. *)
Definition one_kind (l : leaf) : Prop :=
  isinstance (leaf_field l) EAGER_TYPES = negb (isinstance (leaf_field l) LAZY_TYPES).

(** [m] is the merge of the two classifications of [schema]. *)
Definition merged (schema m : SchemaType) : Prop :=
  deep_merge dict_of_schema_leaf
    (Group (_extract_schema schema EAGER_TYPES))
    (Group (_extract_schema schema LAZY_TYPES)) = Ok m.

(** ** Calls and their trace *)

(** A call [field(handler, k1=v1, ..., **kwargs)] as it is written. *)
Record callsite : Type := MkCallsite {
  cs_field : holder;
  cs_handler : string;
  cs_explicit : list (string * pyval);
  cs_kwargs : list (string * pyval);
}.

(** The call of the eager pass at a leaf, and that of the lazy pass. *)
Definition eager_call (l : leaf) : callsite :=
  MkCallsite (leaf_field l) (leaf_handler l) [] (leaf_kwargs l).

Definition lazy_call (existing_results : dict atom) (l : leaf) : callsite :=
  MkCallsite (leaf_field l) (leaf_handler l)
    [(EAGER_DATA, Group existing_results)] (leaf_kwargs l).

(** The [TypeError] of a second [_eager_data] keyword. *)
Definition DUPLICATE_EAGER_DATA : exn :=
  TypeError ("got multiple values for keyword argument " +:+ EAGER_DATA).

Definition outcome_void {A} (o : outcome A) : outcome unit :=
  match o with Ok _ => Ok () | Raise e => Raise e end.

(** [calls_trace cs evs r]: running the calls [cs] logs the invocations
    [evs] and ends in [r].  A call whose keywords do not bind raises before
    the holder runs and logs nothing; a call whose generator raises is the
    last one. *)
Inductive calls_trace : list callsite → list invocation → outcome unit → Prop :=
| trace_done :
    calls_trace [] [] (Ok ())
| trace_bind_error c cs e :
    bind_keywords (cs_explicit c) (cs_kwargs c) = Raise e →
    calls_trace (c :: cs) [] (Raise e)
| trace_call_error c cs kws e :
    bind_keywords (cs_explicit c) (cs_kwargs c) = Ok kws →
    calls_trace (c :: cs) [MkInvocation (cs_field c) (cs_handler c) kws (Raise e)] (Raise e)
| trace_call_ok c cs kws v evs r :
    bind_keywords (cs_explicit c) (cs_kwargs c) = Ok kws →
    calls_trace cs evs r →
    calls_trace (c :: cs) (MkInvocation (cs_field c) (cs_handler c) kws (Ok v) :: evs) r.

(** What a holder was called with. *)
Definition inv_call (inv : invocation) : holder * string * list (string * pyval) :=
  (inv_field inv, inv_handler inv, inv_kwargs inv).

Section Runs.
Context {gstate : Type}.
Variable invoke :
  holder → string → list (string * pyval) → gstate → outcome pyval * gstate.

Definition do_call (c : callsite) : M gstate pyval :=
  call_field invoke (cs_field c) (cs_handler c) (cs_explicit c) (cs_kwargs c).

(** The calls of a list, in order, up to the first that raises. *)
Fixpoint run_calls (cs : list callsite) : M gstate unit :=
  match cs with
  | [] => mret ()
  | c :: rest => mbind (do_call c) (λ _, run_calls rest)
  end.

Definition void {A} (x : outcome A * world gstate) : outcome unit * world gstate :=
  (outcome_void x.1, x.2).

(** [create], pass by pass. *)
Definition two_pass (eager lazy : SchemaType) : M gstate (dict atom) :=
  mbind (_evaluate_eager invoke eager) (λ eager_results,
  mbind (_evaluate_lazy invoke lazy eager_results) (λ lazy_results,
  mlift (deep_merge dict_of_atom (Group eager_results) (Group lazy_results)))).
End Runs.

(** ** A holder to run the evaluator on *)

(** Generators in the manner of the demo, over a counter: [increment] counts,
    [choice] has nothing to choose from, [custom_email] reads
    [_eager_data["owner"]["creator"]], any other handler returns its name. *)
Definition demo_invoke (f : holder) (handler : string)
    (kwargs : list (string * pyval)) (g : nat) : outcome pyval * nat :=
  if decide (handler = "increment") then (Ok (Leaf (AInt (Z.of_nat (S g)))), S g)
  else if decide (handler = "choice") then
    (Raise (GenerationFailure "Cannot choose from an empty sequence"), g)
  else if decide (handler = "custom_email") then
    match lookup_path (dict_get_default kwargs EAGER_DATA (Group [])) ["owner"; "creator"] with
    | Some (Leaf (AStr name)) => (Ok (Leaf (AStr (name +:+ "@mimesis.name"))), g)
    | _ => (Raise (LookupFailure "owner.creator"), g)
    end
  else (Ok (Leaf (AStr handler)), g).

(** The schema of the end-to-end scenario. *)
Definition demo_schema : SchemaType :=
  [("pk", Leaf (MkLeaf field "increment" []));
   ("owner", Group [("email", Leaf (MkLeaf lazy_field "custom_email" []));
                    ("creator", Leaf (MkLeaf field "full_name" []))])].

(** A lazy leaf two groups down: [{"owner": {"inner": {"email": <lazy leaf>}}}]. *)
Definition nested_lazy_schema : SchemaType :=
  [("owner", Group [("inner", Group [("email", Leaf (MkLeaf lazy_field "custom_email" []))])])].

(** An eager leaf whose static arguments use the reserved keyword. *)
Definition eager_keyword_schema : SchemaType :=
  [("name", Leaf (MkLeaf field "word" [(EAGER_DATA, Leaf (AInt 5))]))].

(** An eager leaf whose generator raises, before a lazy leaf whose static
    arguments use the reserved keyword. *)
Definition failing_eager_schema : SchemaType :=
  [("pick", Leaf (MkLeaf field "choice" []));
   ("email", Leaf (MkLeaf lazy_field "custom_email" [(EAGER_DATA, Leaf (AInt 1))]))].

(** ** The classifier on the store *)

(** The loop of [h_extract_schema], from any store. *)
Fixpoint h_extract_loop (fuel : nat) (extracted_schema : addr) (target_types : list pyclass)
    (items : list (string * addr)) (h : heap) : option (outcome addr * heap) :=
  match items with
  | [] => Some (Ok extracted_schema, h)
  | (node_name, node) :: rest =>
      match h !! node with
      | None => None
      | Some (ODict _) =>
          match h_extract_schema fuel node target_types h with
          | Some (Ok sub, h') =>
              h_extract_loop fuel extracted_schema target_types rest
                (store_item h' extracted_schema node_name sub)
          | Some (Raise e, h') => Some (Raise e, h')
          | None => None
          end
      | Some (OTuple l) =>
          if isinstance (leaf_field l) target_types
          then h_extract_loop fuel extracted_schema target_types rest
                 (store_item h extracted_schema node_name node)
          else h_extract_loop fuel extracted_schema target_types rest h
      | Some (OValue a) =>
          match subscript0_isinstance a with
          | Ok true =>
              h_extract_loop fuel extracted_schema target_types rest
                (store_item h extracted_schema node_name node)
          | Ok false => h_extract_loop fuel extracted_schema target_types rest h
          | Raise e => Some (Raise e, h)
          end
      end
  end.

(** The named loops of [tree_map] and [filter_tree]. *)
Fixpoint map_items {A B : Type} (f : A → B) (items : dict A) : dict B :=
  match items with
  | [] => []
  | (k, v) :: rest => (k, tree_map f v) :: map_items f rest
  end.

Fixpoint filter_items {A : Type} (keep : A → bool) (items : dict A) : dict A :=
  match items with
  | [] => []
  | (k, Leaf a) :: rest =>
      if keep a then (k, Leaf a) :: filter_items keep rest else filter_items keep rest
  | (k, Group sub) :: rest => (k, filter_tree keep (Group sub)) :: filter_items keep rest
  end.

(** Old objects are what they were, and the objects created are dicts. *)
Definition heap_ext (h h' : heap) : Prop :=
  (∀ a o, h !! a = Some o → h' !! a = Some o) ∧
  (∀ a, length h ≤ a → a < length h' → ∃ items, h' !! a = Some (ODict items)) ∧
  length h ≤ length h'.

(** The same, but for the object at [e], which may have been written. *)
Definition heap_ext_but (e : addr) (h h' : heap) : Prop :=
  (∀ a o, a ≠ e → h !! a = Some o → h' !! a = Some o) ∧
  (∀ a, length h ≤ a → a < length h' → ∃ items, h' !! a = Some (ODict items)) ∧
  length h ≤ length h'.

(** The leaves of the target kinds, on a tree that remembers addresses. *)
Definition keep_target (T : list pyclass) (x : addr * leaf) : bool :=
  isinstance (leaf_field x.2) T.

(** What a call on the dict of a located group returns. *)
Definition extract_ok (T : list pyclass) (t : tree (addr * leaf)) : Prop :=
  ∀ (h : heap) (schema : addr) (fuel : nat),
    is_dict t = true →
    located (λ _, True) h schema t →
    tree_wf t →
    depth t ≤ fuel →
    ∃ h',
      h_extract_schema fuel schema T h = Some (Ok (length h), h') ∧
      heap_ext h h' ∧
      located (λ a, length h ≤ a) h' (length h) (filter_tree (keep_target T) t).

(** A store for the schema [{"pk": <eager leaf>, "owner": {"email": <lazy leaf>}}]. *)
Definition demo_heap : heap :=
  [OTuple (MkLeaf lazy_field "custom_email" []);
   ODict [("email", 0)];
   OTuple (MkLeaf field "increment" []);
   ODict [("pk", 2); ("owner", 1)]].

(** ** Paths *)

(** Every dict of [t] that the path [p] steps through holds each key once;
    this says nothing of the node the path ends at. *)
Fixpoint wf_along {A : Type} (t : tree A) (p : list string) {struct p} : Prop :=
  match p with
  | [] => True
  | k :: p' =>
      match t with
      | Leaf _ => True
      | Group items =>
          NoDup (dict_keys items) ∧
          match dict_get items k with
          | Some v => wf_along v p'
          | None => True
          end
      end
  end.

(** ** The result of a pass *)

(** [pass_result call t evs r]: a pass over the schema node [t] that calls
    [call l] at each leaf [l], and in which every call returns, logs the
    invocations [evs] and builds [r]: for a leaf the value the call returned,
    for a group a dict with the keys of the group, in their order. *)
Inductive pass_result (call : leaf → callsite)
    : SchemaNode → list invocation → pyval → Prop :=
| pass_leaf l kws v :
    bind_keywords (cs_explicit (call l)) (cs_kwargs (call l)) = Ok kws →
    pass_result call (Leaf l)
      [MkInvocation (cs_field (call l)) (cs_handler (call l)) kws (Ok v)] v
| pass_nil :
    pass_result call (Group []) [] (Group [])
| pass_cons k node rest evs1 evs2 r rs :
    pass_result call node evs1 r →
    pass_result call (Group rest) evs2 (Group rs) →
    pass_result call (Group ((k, node) :: rest)) (evs1 ++ evs2) (Group ((k, r) :: rs)).

(** ** Holders of other kinds *)

(** A holder whose class derives from [BaseField] only, of neither kind. *)
Definition plain_field : holder := Holder 3 [CUser 0; CBaseField; CObject].

(** A holder whose class derives from both [Field] and [LazyField]. *)
Definition hybrid_field : holder :=
  Holder 4 [CUser 1; CField; CLazyField; CBaseField; CObject].

(** A schema with a leaf of each kind, one of neither and one of both. *)
Definition kinds_schema : SchemaType :=
  [("later", Leaf (MkLeaf lazy_field "word" []));
   ("pk", Leaf (MkLeaf field "increment" []));
   ("skipped", Leaf (MkLeaf plain_field "word" []));
   ("twice", Leaf (MkLeaf hybrid_field "increment" []))].

(** ** The handler of the demo *)

(** Python's [KeyError(key)], a [LookupError]. *)
Definition KeyError (key : string) : exn := LookupFailure key.

(** [x[key]] for a string [key]. *)
Definition subscript (x : pyval) (key : string) : outcome pyval :=
  match x with
  | Group d =>
      match dict_get d key with
      | Some v => Ok v
      | None => Raise (KeyError key)
      end
  | Leaf (AStr _) => Raise (TypeError "string indices must be integers, not 'str'")
  | Leaf ANone => Raise (TypeError "'NoneType' object is not subscriptable")
  | Leaf (ABool _) => Raise (TypeError "'bool' object is not subscriptable")
  | Leaf (AInt _) => Raise (TypeError "'int' object is not subscriptable")
  end.

(** The receiver of [x.replace]: a string, or no such attribute. *)
Definition replace_receiver (x : pyval) : outcome string :=
  match x with
  | Leaf (AStr s) => Ok s
  | Leaf ANone => Raise (AttributeError "'NoneType' object has no attribute 'replace'")
  | Leaf (ABool _) => Raise (AttributeError "'bool' object has no attribute 'replace'")
  | Leaf (AInt _) => Raise (AttributeError "'int' object has no attribute 'replace'")
  | Group _ => Raise (AttributeError "'dict' object has no attribute 'replace'")
  end.

(** [s.replace(old, new)] for [old] and [new] of one character. *)
Fixpoint str_replace (old new : Ascii.ascii) (s : string) : string :=
  match s with
  | EmptyString => EmptyString
  | String c s' => String (if decide (c = old) then new else c) (str_replace old new s')
  end.

Section Handler.
(** The state of the [Random] object. *)
Variable gstate : Type.

(** [random.choice(seq)] and [s.lower()], of the libraries. *)
Variable choice : list string → gstate → outcome string * gstate.
Variable lower : string → string.

(** [custom_email_handler(random, *, domains, _eager_data, **_kwargs)], once
    its keywords are bound. *)
Definition custom_email_handler (random : gstate) (domains : list string)
    (_eager_data : pyval) (_kwargs : list (string * pyval)) : outcome pyval * gstate :=
  match obind (subscript _eager_data "owner") (λ owner, subscript owner "creator") with
  | Raise e => (Raise e, random)
  | Ok name =>
      match replace_receiver name with
      | Raise e => (Raise e, random)
      | Ok s =>
          let username := lower (str_replace " "%char "."%char s) in
          match choice domains random with
          | (Ok domain, random') => (Ok (Leaf (AStr (username +:+ "@" +:+ domain))), random')
          | (Raise e, random') => (Raise e, random')
          end
      end
  end.
End Handler.

Arguments custom_email_handler {gstate} _ _ _ _ _ _.

(** [s.lower()] on the letters of ASCII. *)
Definition lower_char (c : Ascii.ascii) : Ascii.ascii :=
  let n := Ascii.nat_of_ascii c in
  if (65 <=? n) && (n <=? 90) then Ascii.ascii_of_nat (n + 32) else c.

Fixpoint lower_ascii (s : string) : string :=
  match s with
  | EmptyString => EmptyString
  | String c s' => String (lower_char c) (lower_ascii s')
  end.

(** A [choice] that takes the first element. *)
Definition first_choice (seq : list string) (g : nat) : outcome string * nat :=
  match seq with
  | [] => (Raise (IndexError "Cannot choose from an empty sequence"), g)
  | x :: _ => (Ok x, g)
  end.

(** The elements of a string, as iterating over it yields them. *)
Fixpoint str_elements (s : string) : list string :=
  match s with
  | EmptyString => []
  | String c s' => String c EmptyString :: str_elements s'
  end.

(** [random.choice] on a value that is not a sequence of strings: an
    integer, [None] and a boolean have no length; of a dict the element of
    index [0] is asked for, which no string key is. *)
Definition choice_error (domains : pyval) : exn :=
  match domains with
  | Group [] => IndexError "Cannot choose from an empty sequence"
  | Group _ => KeyError "0"
  | Leaf ANone => TypeError "object of type 'NoneType' has no len()"
  | Leaf (ABool _) => TypeError "object of type 'bool' has no len()"
  | Leaf (AInt _) => TypeError "object of type 'int' has no len()"
  | Leaf (AStr _) => IndexError "Cannot choose from an empty sequence"
  end.

(** The holders of the demo with [custom_email_handler] registered under
    ["custom_email"]: the keywords of the call are bound to the keyword-only
    parameters [domains] and [_eager_data], both required, and the handler
    runs.  The values at hand hold no list: a string bound to [domains] is
    the sequence of its characters, and [choice] takes the first.  The other
    handlers are as in [demo_invoke], with a name for ["full_name"]. *)
Definition handler_invoke (f : holder) (handler : string)
    (kwargs : list (string * pyval)) (g : nat) : outcome pyval * nat :=
  if decide (handler = "custom_email") then
    match dict_get kwargs "domains", dict_get kwargs EAGER_DATA with
    | None, None =>
        (Raise (TypeError ("custom_email_handler() missing 2 required keyword-only "
                           +:+ "arguments: 'domains' and '_eager_data'")), g)
    | None, Some _ =>
        (Raise (TypeError ("custom_email_handler() missing 1 required keyword-only "
                           +:+ "argument: 'domains'")), g)
    | Some _, None =>
        (Raise (TypeError ("custom_email_handler() missing 1 required keyword-only "
                           +:+ "argument: '_eager_data'")), g)
    | Some (Leaf (AStr s)), Some _eager_data =>
        custom_email_handler first_choice lower_ascii g (str_elements s) _eager_data kwargs
    | Some domains, Some _eager_data =>
        custom_email_handler (λ _ random, (Raise (choice_error domains), random))
          lower_ascii g [] _eager_data kwargs
    end
  else if decide (handler = "full_name") then (Ok (Leaf (AStr "Ada Lovelace")), g)
  else demo_invoke f handler kwargs g.

(** The schema of the demo with its static argument [domains], here a
    string. *)
Definition email_schema : SchemaType :=
  [("pk", Leaf (MkLeaf field "increment" []));
   ("owner",
    Group [("email", Leaf (MkLeaf lazy_field "custom_email"
                             [("domains", Leaf (AStr "mimesis.name"))]));
           ("creator", Leaf (MkLeaf field "full_name" []))])].

(** The result an invocation logged is the result of its holder on the
    keywords logged, in some state of the generators. *)
Definition log_sound {gstate : Type}
    (invoke : holder → string → list (string * pyval) → gstate → outcome pyval * gstate)
    (inv : invocation) : Prop :=
  ∃ g, (invoke (inv_field inv) (inv_handler inv) (inv_kwargs inv) g).1 = inv_result inv.

(** ** The merge on the object store *)

(** [dict(x)]: a new dict with the items of [x], which are shared with [x]. *)
Definition h_dict (h : heap) (x : addr) : option (outcome addr * heap) :=
  match h !! x with
  | None => None
  | Some (ODict items) => Some (Ok (length h), h ++ [ODict items])
  | Some (OValue a) =>
      match dict_of_atom a with
      | Ok _ => Some (Ok (length h), h ++ [ODict []])
      | Raise e => Some (Raise e, h)
      end
  | Some (OTuple _) =>
      Some (Raise (TypeError
              "cannot convert dictionary update sequence element #0 to a sequence"), h)
  end.

(** [result.get(key, dflt)] for the dict object at address [result]. *)
Definition h_get (h : heap) (result : addr) (key : string) (dflt : addr) : addr :=
  match h !! result with
  | Some (ODict items) => default dflt (dict_get items key)
  | _ => dflt
  end.

(** [deep_merge] on the store.  [fuel] bounds the depth of the call stack;
    [None] is an exhausted bound or a dangling address.  The empty dict of
    [result.get(key, {})] is built at every turn that takes the first
    branch, whether the key is present or not. *)
Fixpoint h_deep_merge (fuel : nat) (d1 d2 : addr) (h : heap)
    : option (outcome addr * heap) :=
  match fuel with
  | 0 => None
  | S fuel' =>
      match h_dict h d1 with
      | None => None
      | Some (Raise e, h0) => Some (Raise e, h0)
      | Some (Ok result, h0) =>
          match h0 !! d2 with
          | None => None
          | Some (ODict items) =>
              (fix loop (items : list (string * addr)) (h : heap)
                 : option (outcome addr * heap) :=
                 match items with
                 | [] => Some (Ok result, h)
                 | (key, value) :: rest =>
                     match h !! value with
                     | None => None
                     | Some (ODict _) =>
                         let '(empty, h1) := alloc h (ODict []) in
                         let node := h_get h1 result key empty in
                         match h_deep_merge fuel' node value h1 with
                         | Some (Ok sub, h2) => loop rest (store_item h2 result key sub)
                         | Some (Raise e, h2) => Some (Raise e, h2)
                         | None => None
                         end
                     | Some _ => loop rest (store_item h result key value)
                     end
                 end) items h0
          | Some _ => Some (Raise (AttributeError "items"), h0)
          end
      end
  end.

(** The loop of [h_deep_merge], from any store. *)
Fixpoint h_merge_loop (fuel : nat) (result : addr) (items : list (string * addr))
    (h : heap) : option (outcome addr * heap) :=
  match items with
  | [] => Some (Ok result, h)
  | (key, value) :: rest =>
      match h !! value with
      | None => None
      | Some (ODict _) =>
          match h_deep_merge fuel (h_get (h ++ [ODict []]) result key (length h)) value
                  (h ++ [ODict []]) with
          | Some (Ok sub, h2) => h_merge_loop fuel result rest (store_item h2 result key sub)
          | Some (Raise e, h2) => Some (Raise e, h2)
          | None => None
          end
      | Some _ => h_merge_loop fuel result rest (store_item h result key value)
      end
  end.

(** The store holds at address [a] the tree of values [t]; the dicts of the
    tree lie at addresses in [G]. *)
Unset Elimination Schemes.
Inductive held (G : addr → Prop) (h : heap) : addr → pyval → Prop :=
| held_Leaf a x :
    h !! a = Some (OValue x) →
    held G h a (Leaf x)
| held_Group a aitems items :
    h !! a = Some (ODict aitems) →
    G a →
    Forall2 (λ x y, x.1 = y.1 ∧ held G h x.2 y.2) aitems items →
    held G h a (Group items).
Set Elimination Schemes.

(** What a call of [h_deep_merge] on an overlay [t2] held by the store
    returns, when the merge of the trees returns [r]: a dict at a new
    address that holds [r], its entries for the keys the overlay lacks being
    the objects the first argument holds at those keys. *)
Definition merge_ok (t2 : pyval) : Prop :=
  ∀ (G : addr → Prop) (fuel : nat) (h : heap) (d1 d2 : addr) (t1 : pyval) (r : dict atom),
    (∀ a, G a → a < length h) →
    held G h d1 t1 →
    held G h d2 t2 →
    depth t2 ≤ fuel →
    deep_merge dict_of_atom t1 t2 = Ok r →
    ∃ h' ritems,
      h_deep_merge fuel d1 d2 h = Some (Ok (length h), h') ∧
      h' !! length h = Some (ODict ritems) ∧
      Forall2 (λ x y, x.1 = y.1 ∧ held (λ a, G a ∨ length h < a) h' x.2 y.2) ritems r ∧
      (∀ aitems overlay k,
         h !! d1 = Some (ODict aitems) → t2 = Group overlay → k ∉ dict_keys overlay →
         dict_get ritems k = dict_get aitems k).

(** * Properties *)

(** ** Dictionaries *)

Section DictFacts.
Context {V : Type}.
Implicit Types (d : list (string * V)) (k key : string) (v : V).

Lemma dict_get_set_eq d k v : dict_get (dict_set d k v) k = Some v.
Proof.
  induction d as [|[k0 x] d IH]; simpl.
  - by rewrite decide_True.
  - destruct (decide (k0 = k)) as [->|Hne]; simpl.
    + by rewrite decide_True.
    + by rewrite decide_False.
Qed.

Lemma dict_get_set_ne d k k' v :
  k ≠ k' → dict_get (dict_set d k v) k' = dict_get d k'.
Proof.
  intros Hne. induction d as [|[k0 x] d IH]; simpl.
  - by rewrite decide_False.
  - destruct (decide (k0 = k)) as [->|Hne0]; simpl.
    + by rewrite !decide_False.
    + by rewrite IH.
Qed.

Lemma dict_get_set d k k' v :
  dict_get (dict_set d k v) k' = if decide (k = k') then Some v else dict_get d k'.
Proof.
  destruct (decide (k = k')) as [->|Hne];
    [apply dict_get_set_eq | by apply dict_get_set_ne].
Qed.

Lemma dict_get_None d k : dict_get d k = None ↔ k ∉ dict_keys d.
Proof.
  unfold dict_keys. induction d as [|[k0 x] d IH]; simpl.
  - split; [intros _; apply not_elem_of_nil | done].
  - rewrite not_elem_of_cons. destruct (decide (k0 = k)) as [->|Hne].
    + split; [done | intros [? _]; done].
    + rewrite IH. split; [intros ?; split; [done | done] | intros [_ ?]; done].
Qed.

Lemma dict_get_is_Some d k : is_Some (dict_get d k) ↔ k ∈ dict_keys d.
Proof.
  rewrite <- not_eq_None_Some, dict_get_None.
  split; [apply dec_stable | by intros ? ?].
Qed.

Lemma dict_get_Some_elem d k v : dict_get d k = Some v → (k, v) ∈ d.
Proof.
  induction d as [|[k0 x] d IH]; simpl; [done|].
  destruct (decide (k0 = k)) as [->|Hne].
  - intros [= ->]. apply list_elem_of_here.
  - intros ?. apply list_elem_of_further. auto.
Qed.

Lemma dict_get_elem_NoDup d k v :
  NoDup (dict_keys d) → (k, v) ∈ d → dict_get d k = Some v.
Proof.
  unfold dict_keys. induction d as [|[k0 x] d IH]; simpl.
  - intros _ H. by apply elem_of_nil in H.
  - intros Hnd H. apply NoDup_cons in Hnd as [Hk0 Hnd].
    apply elem_of_cons in H as [[= <- <-]|H].
    + by rewrite decide_True.
    + rewrite decide_False; [by apply IH|].
      intros ->. apply Hk0. apply list_elem_of_fmap. by exists (k, v).
Qed.

Lemma dict_keys_set d k v k' :
  k' ∈ dict_keys (dict_set d k v) ↔ k' = k ∨ k' ∈ dict_keys d.
Proof.
  rewrite <- !dict_get_is_Some, dict_get_set.
  destruct (decide (k = k')) as [->|Hne].
  - split; [by left | intros _; by eexists].
  - split; [by right | intros [->|?]; done].
Qed.

Lemma dict_set_absent d k v :
  k ∉ dict_keys d → dict_set d k v = d ++ [(k, v)].
Proof.
  unfold dict_keys. induction d as [|[k0 x] d IH]; simpl; [done|].
  rewrite not_elem_of_cons. intros [Hne Hnot].
  rewrite decide_False by done. by rewrite IH.
Qed.

Lemma dict_keys_set_present d k v :
  k ∈ dict_keys d → dict_keys (dict_set d k v) = dict_keys d.
Proof.
  unfold dict_keys. induction d as [|[k0 x] d IH]; simpl.
  - intros H. by apply elem_of_nil in H.
  - intros H. destruct (decide (k0 = k)) as [->|Hne]; simpl; [done|].
    apply elem_of_cons in H as [->|H]; [done|]. f_equal. by apply IH.
Qed.

Lemma dict_set_NoDup d k v :
  NoDup (dict_keys d) → NoDup (dict_keys (dict_set d k v)).
Proof.
  intros Hnd. destruct (decide (k ∈ dict_keys d)) as [Hin|Hnot].
  - by rewrite dict_keys_set_present.
  - rewrite dict_set_absent by done. unfold dict_keys in *.
    rewrite fmap_app. simpl. apply NoDup_app. split_and!; [done| |apply NoDup_singleton].
    intros x Hx Hx'. apply list_elem_of_singleton in Hx' as ->. done.
Qed.

Lemma dict_get_app d d' k :
  dict_get (d ++ d') k =
    match dict_get d k with Some v => Some v | None => dict_get d' k end.
Proof.
  induction d as [|[k0 x] d IH]; simpl; [done|].
  by destruct (decide (k0 = k)).
Qed.
End DictFacts.

(** ** Unfolding the two recursive functions *)

Lemma extract_node_Group items T : extract_node (Group items) T = extract_loop items T [].
Proof.
  simpl. generalize (@nil (string * tree leaf)).
  induction items as [|[k [l|sub]] items IH]; intros acc; simpl; [done| |].
  - by rewrite !IH.
  - by rewrite IH.
Qed.

Lemma _extract_schema_eq schema T : _extract_schema schema T = extract_loop schema T [].
Proof. apply extract_node_Group. Qed.

Section MergeFacts.
Context {A : Type} (dict_of_leaf : A → outcome (dict A)).

Lemma deep_merge_Group d1 items :
  deep_merge dict_of_leaf d1 (Group items) =
    obind (py_dict dict_of_leaf d1) (merge_loop dict_of_leaf items).
Proof.
  simpl. destruct (py_dict dict_of_leaf d1) as [result|e]; simpl; [|done].
  revert result. induction items as [|[k [a|sub]] items IH]; intros result; simpl; [done|..].
  - apply IH.
  - destruct (py_dict dict_of_leaf (dict_get_default result k (Group []))); simpl; [|done].
    match goal with |- match ?x with _ => _ end = obind ?y _ => change y with x; destruct x end;
      simpl; [apply IH | done].
Qed.

Lemma deep_merge_Leaf d1 a :
  deep_merge dict_of_leaf d1 (Leaf a) =
    obind (py_dict dict_of_leaf d1) (λ _, Raise (AttributeError "items")).
Proof. simpl. by destruct (py_dict dict_of_leaf d1). Qed.
End MergeFacts.

Global Arguments deep_merge : simpl never.
Global Arguments extract_node : simpl never.

(** ** Well-formed trees *)

Lemma tree_wfb_sound {A} (t : tree A) : tree_wfb t = true → tree_wf t.
Proof.
  induction t as [a|items IH] using tree_ind; [constructor|].
  simpl. intros H. apply andb_prop in H as [Hk Hall].
  apply bool_decide_eq_true in Hk. constructor; [done|]. clear Hk.
  induction IH as [|[k v] rest Hv _ IHrest]; [constructor|].
  apply andb_prop in Hall as [Hv' Hrest]. constructor; auto.
Qed.

Lemma tree_wf_Group_inv {A} (items : dict A) :
  tree_wf (Group items) →
  NoDup (dict_keys items) ∧ Forall (λ kv, tree_wf kv.2) items.
Proof. by inversion 1. Qed.

Lemma tree_wf_lookup {A} (items : dict A) k v :
  tree_wf (Group items) → dict_get items k = Some v → tree_wf v.
Proof.
  intros [_ Hall]%tree_wf_Group_inv Hget%dict_get_Some_elem.
  rewrite Forall_forall in Hall. by apply (Hall (k, v)).
Qed.

Lemma tree_wf_cons_inv {A} k (v : tree A) rest :
  tree_wf (Group ((k, v) :: rest)) →
  k ∉ dict_keys rest ∧ tree_wf v ∧ tree_wf (Group rest).
Proof.
  intros [Hnd Hall]%tree_wf_Group_inv.
  apply NoDup_cons in Hnd as [? ?]. apply Forall_cons in Hall as [? ?].
  split_and!; [done..|by constructor].
Qed.

(** ** The classifier as a filter *)

Lemma extract_items_keys items T k :
  k ∈ dict_keys (extract_items items T) → k ∈ dict_keys items.
Proof.
  unfold dict_keys. induction items as [|[k0 [l|sub]] rest IH]; simpl; [done|..].
  - destruct (isinstance _ _); simpl; rewrite ?elem_of_cons; naive_solver.
  - rewrite !elem_of_cons. naive_solver.
Qed.

Lemma NoDup_keys_app_cons (l r : list string) k :
  NoDup (l ++ k :: r) → k ∉ l ∧ NoDup (l ++ r) ∧ NoDup ((l ++ [k]) ++ r).
Proof.
  intros Hnd. split_and!.
  - apply NoDup_app in Hnd as (_ & Hdisj & _). intros Hk.
    apply (Hdisj k Hk). apply list_elem_of_here.
  - rewrite <- Permutation_middle in Hnd. by apply NoDup_cons in Hnd as [_ ?].
  - by rewrite <- app_assoc.
Qed.

Lemma extract_loop_items items T acc :
  NoDup (dict_keys acc ++ dict_keys items) →
  extract_loop items T acc = acc ++ extract_items items T.
Proof.
  revert acc. induction items as [|[k0 [l|sub]] rest IH]; intros acc Hnd; simpl.
  - by rewrite app_nil_r.
  - apply NoDup_keys_app_cons in Hnd as (Hk0 & Hnd' & Hnd'').
    destruct (isinstance _ _); [|by apply IH].
    rewrite IH; rewrite dict_set_absent by done.
    + by rewrite <- app_assoc.
    + unfold dict_keys in *. by rewrite fmap_app.
  - apply NoDup_keys_app_cons in Hnd as (Hk0 & Hnd' & Hnd'').
    rewrite IH; rewrite dict_set_absent by done.
    + by rewrite <- app_assoc.
    + unfold dict_keys in *. by rewrite fmap_app.
Qed.

Lemma _extract_schema_items schema T :
  NoDup (dict_keys schema) → _extract_schema schema T = extract_items schema T.
Proof. intros Hnd. rewrite _extract_schema_eq. by apply extract_loop_items. Qed.

Lemma extract_items_NoDup items T :
  NoDup (dict_keys items) → NoDup (dict_keys (extract_items items T)).
Proof.
  unfold dict_keys. induction items as [|[k0 [l|sub]] rest IH]; simpl; [done|..];
    intros [Hk0 Hnd]%NoDup_cons.
  - destruct (isinstance _ _); simpl; [|by auto].
    apply NoDup_cons. split; [|by auto]. intros H. by apply extract_items_keys in H.
  - apply NoDup_cons. split; [|by auto]. intros H. by apply extract_items_keys in H.
Qed.

(** What the classification holds at a key. *)
Lemma extract_items_get items T k :
  NoDup (dict_keys items) →
  dict_get (extract_items items T) k =
    match dict_get items k with
    | Some (Group sub) => Some (Group (_extract_schema sub T))
    | Some (Leaf l) => if isinstance (leaf_field l) T then Some (Leaf l) else None
    | None => None
    end.
Proof.
  unfold dict_keys. induction items as [|[k0 [l|sub]] rest IH]; simpl; [done|..];
    intros [Hk0 Hnd]%NoDup_cons.
  - destruct (decide (k0 = k)) as [->|Hne].
    + destruct (isinstance _ _); simpl; [by rewrite decide_True|].
      apply dict_get_None. intros H. by apply extract_items_keys in H.
    + destruct (isinstance _ _); simpl; [rewrite decide_False by done|]; by apply IH.
  - destruct (decide (k0 = k)) as [->|Hne]; [done|by apply IH].
Qed.

Lemma _extract_schema_get schema T k :
  NoDup (dict_keys schema) →
  dict_get (_extract_schema schema T) k =
    match dict_get schema k with
    | Some (Group sub) => Some (Group (_extract_schema sub T))
    | Some (Leaf l) => if isinstance (leaf_field l) T then Some (Leaf l) else None
    | None => None
    end.
Proof. intros Hnd. rewrite _extract_schema_items by done. by apply extract_items_get. Qed.

Lemma _extract_schema_wf schema T :
  tree_wf (Group schema) → tree_wf (Group (_extract_schema schema T)).
Proof.
  remember (Group schema) as t eqn:Ht. revert schema Ht.
  induction t as [a|items IH] using tree_ind; intros schema [= <-] Hwf.
  apply tree_wf_Group_inv in Hwf as [Hnd Hall].
  rewrite _extract_schema_items by done.
  constructor; [by apply extract_items_NoDup|].
  clear Hnd. induction items as [|[k0 [l|sub]] rest IHrest]; simpl; [constructor|..];
    apply Forall_cons in IH as [IHv IH]; apply Forall_cons in Hall as [Hv Hall].
  - destruct (isinstance _ _); [constructor; [constructor|]|]; by apply IHrest.
  - constructor; [|by apply IHrest]. simpl. by apply (IHv sub).
Qed.

(** ** The merge, one level at a time *)

Section MergeLevel.
Context {A : Type} (dict_of_leaf : A → outcome (dict A)).
Implicit Types (items result base overlay r : dict A) (k : string).

Lemma merge_loop_get items result r :
  NoDup (dict_keys items) →
  merge_loop dict_of_leaf items result = Ok r →
  ∀ k, match dict_get items k with
       | Some (Leaf a) => dict_get r k = Some (Leaf a)
       | Some (Group g) =>
           ∃ m, deep_merge dict_of_leaf (dict_get_default result k (Group [])) (Group g) = Ok m
                ∧ dict_get r k = Some (Group m)
       | None => dict_get r k = dict_get result k
       end.
Proof.
  unfold dict_keys. revert result.
  induction items as [|[k0 v] rest IH]; intros result Hnd Hloop k; simpl in *.
  - by injection Hloop as ->.
  - apply NoDup_cons in Hnd as [Hk0 Hnd].
    apply dict_get_None in Hk0.
    destruct v as [a|g]; simpl in Hloop.
    + specialize (IH _ Hnd Hloop). destruct (decide (k0 = k)) as [->|Hne].
      * specialize (IH k). rewrite Hk0 in IH. by rewrite IH, dict_get_set_eq.
      * specialize (IH k). unfold dict_get_default in *.
        by rewrite dict_get_set_ne in IH.
    + destruct (deep_merge dict_of_leaf _ (Group g)) as [m|e] eqn:Hm; simpl in Hloop; [|done].
      specialize (IH _ Hnd Hloop). destruct (decide (k0 = k)) as [->|Hne].
      * specialize (IH k). rewrite Hk0 in IH. exists m. by rewrite IH, dict_get_set_eq.
      * specialize (IH k). unfold dict_get_default in *.
        by rewrite dict_get_set_ne in IH.
Qed.

Lemma merge_loop_total items result :
  NoDup (dict_keys items) →
  (∀ k g, dict_get items k = Some (Group g) →
     ∃ m, deep_merge dict_of_leaf (dict_get_default result k (Group [])) (Group g) = Ok m) →
  ∃ r, merge_loop dict_of_leaf items result = Ok r.
Proof.
  unfold dict_keys. revert result.
  induction items as [|[k0 v] rest IH]; intros result Hnd Hsub; simpl in *; [by eexists|].
  apply NoDup_cons in Hnd as [Hk0 Hnd].
  assert (∀ x k g, dict_get rest k = Some (Group g) →
            ∃ m, deep_merge dict_of_leaf
                   (dict_get_default (dict_set result k0 x) k (Group [])) (Group g) = Ok m)
    as Hrest.
  { intros x k g Hk. assert (k0 ≠ k) as Hne.
    { intros ->. apply Hk0. apply dict_get_is_Some. by eexists. }
    unfold dict_get_default. rewrite dict_get_set_ne by done.
    apply (Hsub k g). by rewrite decide_False. }
  destruct v as [a|g]; simpl.
  - apply IH; [done|apply Hrest].
  - destruct (Hsub k0 g) as [m Hm]; [by rewrite decide_True|].
    rewrite Hm. simpl. apply IH; [done|apply Hrest].
Qed.

Lemma merge_loop_keys items result r k :
  NoDup (dict_keys items) →
  merge_loop dict_of_leaf items result = Ok r →
  k ∈ dict_keys r ↔ k ∈ dict_keys result ∨ k ∈ dict_keys items.
Proof.
  intros Hnd Hloop. pose proof (merge_loop_get _ _ _ Hnd Hloop k) as Hk.
  rewrite <- !dict_get_is_Some.
  destruct (dict_get items k) as [[a|g]|] eqn:Hi.
  - rewrite Hk. split; [right|]; by eexists.
  - destruct Hk as (m & _ & ->). split; [right|]; by eexists.
  - rewrite Hk. split; [by left|]. intros [?|[? ?]]; done.
Qed.

Lemma merge_loop_NoDup items result r :
  NoDup (dict_keys result) →
  merge_loop dict_of_leaf items result = Ok r →
  NoDup (dict_keys r).
Proof.
  revert result. induction items as [|[k0 [a|g]] rest IH]; intros result Hnd Hloop;
    simpl in Hloop.
  - by injection Hloop as <-.
  - eapply IH; [|done]. by apply dict_set_NoDup.
  - destruct (deep_merge dict_of_leaf _ (Group g)) as [m|e]; simpl in Hloop; [|done].
    eapply IH; [|done]. by apply dict_set_NoDup.
Qed.

(** Nothing of [base] is in the way: the merge returns. *)
Lemma deep_merge_total base overlay :
  tree_wf (Group overlay) →
  compatible base overlay →
  ∃ r, deep_merge dict_of_leaf (Group base) (Group overlay) = Ok r.
Proof.
  remember (Group overlay) as t eqn:Ht. revert base overlay Ht.
  induction t as [a|items IH] using tree_ind; intros base overlay [= <-] Hwf Hc.
  rewrite deep_merge_Group. simpl.
  pose proof Hwf as [Hnd _]%tree_wf_Group_inv.
  apply merge_loop_total; [done|]. intros k g Hk.
  rewrite Forall_forall in IH.
  pose proof (IH (k, Group g) (dict_get_Some_elem _ _ _ Hk)) as IHg. simpl in IHg.
  pose proof (tree_wf_lookup _ _ _ Hwf Hk) as Hwfg.
  inversion Hc as [? ? Hleaf Hgroup]; subst.
  unfold dict_get_default. destruct (dict_get base k) as [[a|b]|] eqn:Hb; simpl.
  - by destruct (Hleaf k g a).
  - apply (IHg b g); [done|done|]. by eapply Hgroup.
  - apply (IHg [] g); [done|done|]. constructor; intros ? ? ? ?; simpl; done.
Qed.

(** The key set at every level, when a non-dict converts to [{}] at most. *)
Hypothesis dict_of_leaf_empty : ∀ a b, dict_of_leaf a = Ok b → b = [].

Lemma keys_at_nil_group (p : list string) : keys_at (Group (@nil (string * tree A))) p = [].
Proof. by destruct p. Qed.

Lemma keys_at_Leaf (a : A) (p : list string) : keys_at (Leaf a) p = [].
Proof. by destruct p. Qed.

Lemma deep_merge_keys_at (p : list string) :
  ∀ (d1 : tree A) overlay r R,
    tree_wf (Group overlay) →
    deep_merge dict_of_leaf d1 (Group overlay) = Ok r →
    lookup_path (Group r) p = Some (Group R) →
    ∀ k, k ∈ dict_keys R ↔ k ∈ keys_at d1 p ∨ k ∈ keys_at (Group overlay) p.
Proof using dict_of_leaf_empty.
  induction p as [|k1 p IH]; intros d1 overlay r R Hwf Hm Hp k.
  - injection Hp as <-. rewrite deep_merge_Group in Hm.
    pose proof Hwf as [Hnd _]%tree_wf_Group_inv.
    destruct d1 as [a|b]; simpl in Hm.
    + destruct (dict_of_leaf a) as [b|e] eqn:Ha; simpl in Hm; [|done].
      apply dict_of_leaf_empty in Ha as ->.
      rewrite (merge_loop_keys _ _ _ k Hnd Hm). by rewrite keys_at_Leaf.
    + by rewrite (merge_loop_keys _ _ _ k Hnd Hm).
  - rewrite deep_merge_Group in Hm.
    pose proof Hwf as [Hnd _]%tree_wf_Group_inv.
    destruct (py_dict dict_of_leaf d1) as [b|e] eqn:Hb; simpl in Hm; [|done].
    pose proof (merge_loop_get _ _ _ Hnd Hm k1) as Hk1.
    simpl in Hp. unfold keys_at at 2. simpl.
    assert (keys_at d1 (k1 :: p) =
            match dict_get b k1 with Some v => keys_at v p | None => [] end) as Hd1.
    { destruct d1 as [a|b']; simpl in Hb.
      - apply dict_of_leaf_empty in Hb as ->. by rewrite keys_at_Leaf.
      - injection Hb as ->. unfold keys_at. simpl. by destruct (dict_get b k1). }
    destruct (dict_get overlay k1) as [[a|g]|] eqn:Ho.
    + rewrite Hk1 in Hp. by destruct p.
    + destruct Hk1 as (m & Hmg & Hr). rewrite Hr in Hp.
      rewrite (IH _ _ _ _ (tree_wf_lookup _ _ _ Hwf Ho) Hmg Hp k).
      rewrite Hd1. unfold dict_get_default.
      destruct (dict_get b k1); simpl; [done|]. by rewrite keys_at_nil_group.
    + rewrite Hk1 in Hp. rewrite Hd1. unfold keys_at.
      destruct (dict_get b k1) as [v|]; [|done]. rewrite Hp.
      split; [by left|]. intros [?|H]; [done|]. by apply elem_of_nil in H.
Qed.
End MergeLevel.

(** ** Merging trees that share no key *)

Section MergeDisjoint.
Context {A : Type} (dict_of_leaf : A → outcome (dict A)).

Lemma deep_merge_app (t : tree A) :
  ∀ base overlay,
    t = Group overlay →
    tree_wf t →
    NoDup (dict_keys base ++ dict_keys overlay) →
    deep_merge dict_of_leaf (Group base) t = Ok (base ++ overlay).
Proof.
  induction t as [a|items IH] using tree_ind; intros base overlay [= <-] Hwf Hnd.
  rewrite deep_merge_Group. simpl.
  apply tree_wf_Group_inv in Hwf as [_ Hall].
  revert base Hnd. induction items as [|[k0 v] rest IHrest]; intros base Hnd; simpl.
  - by rewrite app_nil_r.
  - apply Forall_cons in IH as [IHv IH]. apply Forall_cons in Hall as [Hv Hall].
    unfold dict_keys in *. simpl in *.
    apply NoDup_keys_app_cons in Hnd as (Hk0 & _ & Hnd).
    assert (dict_get base k0 = None) as Hget by by apply dict_get_None.
    destruct v as [a|g]; simpl.
    + rewrite dict_set_absent by done.
      rewrite IHrest; [by rewrite <- app_assoc|done|done|by rewrite fmap_app].
    + unfold dict_get_default. rewrite Hget. simpl.
      rewrite (IHv [] g eq_refl Hv).
      * simpl. rewrite dict_set_absent by done.
        rewrite IHrest; [by rewrite <- app_assoc|done|done|by rewrite fmap_app].
      * simpl. by apply tree_wf_Group_inv in Hv as [? _].
Qed.
End MergeDisjoint.

(** ** Claims on [deep_merge] *)

Lemma dict_of_atom_empty a b : dict_of_atom a = Ok b → b = [].
Proof. destruct a as [| | |[|]]; simpl; congruence. Qed.

Lemma dict_of_schema_leaf_empty l b : dict_of_schema_leaf l = Ok b → b = [].
Proof. done. Qed.

(** ** Merging without [dict] of a non-dict

    When no key holds a group in the overlay against a non-group in the
    base, [deep_merge] never applies [dict] to a value that is not a dict, so
    that what [dict] does on such values, raise or build a dict from an
    iterable of pairs, does not matter. *)

Section MergeIndep.
Context {A : Type} (f f' : A → outcome (dict A)).

Lemma merge_loop_indep (items : dict A) :
  Forall (λ kv, ∀ b g, kv.2 = Group g → tree_wf kv.2 → compatible b g →
                 deep_merge f (Group b) kv.2 = deep_merge f' (Group b) kv.2) items →
  Forall (λ kv, tree_wf kv.2) items →
  NoDup (dict_keys items) →
  ∀ result,
    (∀ k g, dict_get items k = Some (Group g) →
            ∃ b, dict_get_default result k (Group []) = Group b ∧ compatible b g) →
    merge_loop f items result = merge_loop f' items result.
Proof.
  induction items as [|[k0 v] rest IHrest]; intros IH Hwf Hnd result Hpre; [done|].
  apply Forall_cons in IH as [IHv IH]. apply Forall_cons in Hwf as [Hv Hwf].
  change (dict_keys ((k0, v) :: rest)) with (k0 :: dict_keys rest) in Hnd.
  apply NoDup_cons in Hnd as [Hk0 Hnd].
  assert (∀ x k g, dict_get rest k = Some (Group g) →
            ∃ b, dict_get_default (dict_set result k0 x) k (Group []) = Group b ∧
                 compatible b g) as Hnext.
  { intros x k g Hk. assert (k0 ≠ k) as Hne.
    { intros ->. apply Hk0. apply dict_get_is_Some. by eexists. }
    unfold dict_get_default. rewrite dict_get_set_ne by done.
    apply (Hpre k g). cbn [dict_get]. by rewrite decide_False. }
  cbn [merge_loop]. destruct v as [a|g]; cbn [is_dict].
  - apply IHrest; [done..|apply Hnext].
  - destruct (Hpre k0 g) as (b & -> & Hc); [cbn [dict_get]; by rewrite decide_True|].
    simpl in IHv. rewrite (IHv b g eq_refl Hv Hc).
    destruct (deep_merge f' (Group b) (Group g)) as [m|e]; [|done].
    cbn [obind]. apply IHrest; [done..|apply Hnext].
Qed.

Lemma deep_merge_indep (t : tree A) :
  ∀ base overlay,
    t = Group overlay → tree_wf t → compatible base overlay →
    deep_merge f (Group base) t = deep_merge f' (Group base) t.
Proof.
  induction t as [a|items IH] using tree_ind; intros base overlay [= <-] Hwf Hc.
  rewrite !deep_merge_Group. cbn [py_dict obind].
  apply tree_wf_Group_inv in Hwf as [Hnd Hwf].
  apply merge_loop_indep; [|done..|].
  - eapply Forall_impl; [exact IH|]. intros [k v] IHv b g Hg Hwfv Hcv.
    simpl in *. subst v. by apply (IHv b g).
  - intros k g Hk. inversion Hc as [? ? Hleaf Hgroup]; subst.
    unfold dict_get_default. destruct (dict_get base k) as [[a|b]|] eqn:Hb; simpl.
    + by destruct (Hleaf k g a).
    + exists b. split; [done|]. by eapply Hgroup.
    + exists []. split; [done|]. constructor; intros ? ? ? ?; simpl; done.
Qed.
End MergeIndep.

(** A [dict] that raises on every value that is not a dict. *)
Lemma no_dict_empty {A} (a : A) (b : dict A) :
  (λ _ : A, @Raise (dict A) (TypeError "object is not iterable")) a = Ok b → b = [].
Proof. done. Qed.

(** Proves [compatible] of two trees that are given. *)
Ltac solve_compatible :=
  constructor; intros ? ? ? ? ?; simpl in *; repeat case_decide; simplify_eq;
  try solve_compatible.

(** C3, as the claim has it: every pair of trees has a merge, and it
    satisfies the contract.  A base that holds an integer where the overlay
    holds a group has none. *)
Lemma deep_merge_contract_counterexample :
  deep_merge dict_of_atom (Group [("a", Leaf (AInt 1))]) (Group [("a", Group [])])
    = Raise (TypeError "'int' object is not iterable") ∧
  ¬ ∃ r, deep_merge dict_of_atom (Group [("a", Leaf (AInt 1))]) (Group [("a", Group [])]) = Ok r
         ∧ merge_contract dict_of_atom [("a", Leaf (AInt 1))] [("a", Group [])] r.
Proof.
  split; [reflexivity|].
  intros (r & Hr & _). vm_compute in Hr. discriminate Hr.
Qed.

(** C3 (amended): when no key holds a group in [overlay] against a
    non-group in [base], at any level the merge visits, the merge returns and
    the tree it returns satisfies the contract: overlay's non-group values
    are stored as they are, overlay's groups are merged recursively with
    base's value at the key (an absent key counting as the empty group), keys
    of base that overlay lacks keep their value, and the key set at every
    level is the union of the two key sets at that level.  This holds
    whatever the non-group values are and whatever [dict] does on them. *)
Theorem deep_merge_contract {A : Type} (dict_of_leaf : A → outcome (dict A))
    (base overlay : dict A) :
  tree_wf (Group overlay) →
  compatible base overlay →
  ∃ r, deep_merge dict_of_leaf (Group base) (Group overlay) = Ok r ∧
       merge_contract dict_of_leaf base overlay r.
Proof.
  intros Hwf Hc.
  destruct (deep_merge_total dict_of_leaf base overlay Hwf Hc) as [r Hr].
  exists r. split; [done|].
  pose proof Hwf as [Hnd _]%tree_wf_Group_inv.
  pose proof Hr as Hloop. rewrite deep_merge_Group in Hloop. simpl in Hloop.
  pose proof (merge_loop_get _ _ _ _ Hnd Hloop) as Hget.
  split_and!.
  - intros k a Hk. specialize (Hget k). by rewrite Hk in Hget.
  - intros k g Hk. specialize (Hget k). by rewrite Hk in Hget.
  - intros k Hk. specialize (Hget k). by rewrite Hk in Hget.
  - intros p R Hp k.
    rewrite (deep_merge_indep dict_of_leaf (λ _, Raise (TypeError "object is not iterable"))
               (Group overlay) base overlay eq_refl Hwf Hc) in Hr.
    by apply (deep_merge_keys_at _ no_dict_empty p (Group base) overlay r R).
Qed.

Lemma deep_merge_contract_witness :
  ∃ r, deep_merge dict_of_atom
         (Group [("a", Leaf (AInt 1)); ("g", Group [("x", Leaf (AInt 3))])])
         (Group [("a", Leaf (AInt 2)); ("g", Group [("y", Leaf (AStr "s"))])]) = Ok r ∧
       merge_contract dict_of_atom
         [("a", Leaf (AInt 1)); ("g", Group [("x", Leaf (AInt 3))])]
         [("a", Leaf (AInt 2)); ("g", Group [("y", Leaf (AStr "s"))])] r.
Proof.
  apply (deep_merge_contract dict_of_atom
           [("a", Leaf (AInt 1)); ("g", Group [("x", Leaf (AInt 3))])]
           [("a", Leaf (AInt 2)); ("g", Group [("y", Leaf (AStr "s"))])]).
  - by apply tree_wfb_sound.
  - solve_compatible.
Defined.

(** C6: trees that share no key merge into their concatenation, the
    keyed union, whichever comes first; the two results are the same
    mapping. *)
Theorem deep_merge_disjoint_union {A : Type} (dict_of_leaf : A → outcome (dict A))
    (base overlay : dict A) :
  tree_wf (Group base) →
  tree_wf (Group overlay) →
  (∀ k, k ∈ dict_keys base → k ∉ dict_keys overlay) →
  deep_merge dict_of_leaf (Group base) (Group overlay) = Ok (base ++ overlay) ∧
  deep_merge dict_of_leaf (Group overlay) (Group base) = Ok (overlay ++ base) ∧
  (∀ k, dict_get (base ++ overlay) k = dict_get base k ∪ dict_get overlay k) ∧
  (∀ k, dict_get (base ++ overlay) k = dict_get (overlay ++ base) k).
Proof.
  intros Hb Ho Hdisj.
  pose proof Hb as [Hndb _]%tree_wf_Group_inv.
  pose proof Ho as [Hndo _]%tree_wf_Group_inv.
  split_and!.
  - apply deep_merge_app; [done|done|]. apply NoDup_app. by split_and!.
  - apply deep_merge_app; [done|done|]. apply NoDup_app. split_and!; [done| |done].
    intros k Hk Hk'. by apply (Hdisj k).
  - intros k. rewrite dict_get_app. by destruct (dict_get base k), (dict_get overlay k).
  - intros k. rewrite !dict_get_app.
    destruct (dict_get base k) eqn:Hbk, (dict_get overlay k) eqn:Hok; try done.
    exfalso. apply (Hdisj k); apply dict_get_is_Some; by eexists.
Qed.

Lemma deep_merge_disjoint_union_witness :
  deep_merge dict_of_atom (Group [("a", Leaf (AInt 1))])
                          (Group [("b", Group [("c", Leaf (AInt 2))])])
    = Ok [("a", Leaf (AInt 1)); ("b", Group [("c", Leaf (AInt 2))])].
Proof.
  refine (proj1 (deep_merge_disjoint_union dict_of_atom
                   [("a", Leaf (AInt 1))] [("b", Group [("c", Leaf (AInt 2))])] _ _ _)).
  - by apply tree_wfb_sound.
  - by apply tree_wfb_sound.
  - intros k Hk Hk'. vm_compute in Hk, Hk'.
    apply list_elem_of_singleton in Hk, Hk'. congruence.
Defined.

Section MergeRaises.
Context {A : Type} (dict_of_leaf : A → outcome (dict A)).

Lemma merge_loop_raises (items result : dict A) k a g e0 :
  NoDup (dict_keys items) →
  dict_get items k = Some (Group g) →
  dict_get result k = Some (Leaf a) →
  dict_of_leaf a = Raise e0 →
  ∃ e, merge_loop dict_of_leaf items result = Raise e.
Proof.
  unfold dict_keys. revert result.
  induction items as [|[k0 v] rest IH]; intros result Hnd Hk Hr Ha; simpl in *; [done|].
  apply NoDup_cons in Hnd as [Hk0 Hnd].
  destruct (decide (k0 = k)) as [->|Hne].
  - injection Hk as ->. simpl. rewrite deep_merge_Group.
    unfold dict_get_default. rewrite Hr. simpl. rewrite Ha. simpl. by eexists.
  - destruct v as [a'|g']; simpl.
    + apply IH; [done|done| |done]. by rewrite dict_get_set_ne.
    + destruct (deep_merge dict_of_leaf _ (Group g')) as [m|e]; simpl; [|by eexists].
      apply IH; [done|done| |done]. by rewrite dict_get_set_ne.
Qed.
End MergeRaises.

(** C10: [deep_merge] is not total.  Where [overlay] holds a group and
    [base] holds, at the same key, a value that is not a dict and not the
    empty string, the merge raises; for the integer of the example it is the
    [TypeError] of [dict(1)].  At an absent key the empty group stands in and
    the merge returns. *)
Theorem deep_merge_not_total :
  (∀ (base overlay : dict atom) k a g,
     NoDup (dict_keys overlay) →
     dict_get base k = Some (Leaf a) →
     a ≠ AStr "" →
     dict_get overlay k = Some (Group g) →
     ∃ e, deep_merge dict_of_atom (Group base) (Group overlay) = Raise e) ∧
  deep_merge dict_of_atom (Group [("a", Leaf (AInt 1))]) (Group [("a", Group [])])
    = Raise (TypeError "'int' object is not iterable") ∧
  deep_merge dict_of_atom (Group []) (Group [("a", Group [])])
    = Ok [("a", Group [])].
Proof.
  split_and!; [|reflexivity..].
  intros base overlay k a g Hnd Hb Ha Ho.
  rewrite deep_merge_Group. simpl.
  assert (∃ e0, dict_of_atom a = Raise e0) as [e0 He0].
  { destruct a as [| | |[|]]; simpl; by eauto. }
  by eapply merge_loop_raises.
Qed.

Lemma deep_merge_not_total_witness :
  ∃ e, deep_merge dict_of_atom
         (Group [("n", Leaf (AInt 0)); ("a", Leaf ANone)])
         (Group [("a", Group [("x", Leaf (AInt 1))])]) = Raise e.
Proof.
  refine (proj1 deep_merge_not_total
            [("n", Leaf (AInt 0)); ("a", Leaf ANone)]
            [("a", Group [("x", Leaf (AInt 1))])] "a" ANone [("x", Leaf (AInt 1))] _ _ _ _).
  - vm_compute. apply NoDup_cons. split; [apply not_elem_of_nil|apply NoDup_nil_2].
  - reflexivity.
  - discriminate.
  - reflexivity.
Defined.

(** ** Leaves of a classification *)

Lemma leaves_Group_cons {A} k (v : tree A) rest :
  leaves (Group ((k, v) :: rest)) = leaves v ++ leaves (Group rest).
Proof. done. Qed.

Lemma leaf_count_Group_cons {A} k (v : tree A) rest :
  leaf_count (Group ((k, v) :: rest)) = leaf_count v + leaf_count (Group rest).
Proof. done. Qed.

Lemma leaves_Leaf {A} (a : A) : leaves (Leaf a) = [a].
Proof. done. Qed.

Lemma leaves_Group_nil {A} : leaves (Group (@nil (string * tree A))) = [].
Proof. done. Qed.

Lemma leaf_count_leaves {A} (t : tree A) : leaf_count t = length (leaves t).
Proof.
  induction t as [a|items IH] using tree_ind; [done|].
  induction IH as [|[k v] rest Hv _ IHrest]; [done|].
  rewrite leaf_count_Group_cons, leaves_Group_cons, length_app. simpl in Hv. lia.
Qed.

Global Arguments leaves : simpl never.
Global Arguments leaf_count : simpl never.

Lemma leaves_lookup {A} (items : dict A) k v a :
  dict_get items k = Some v → a ∈ leaves v → a ∈ leaves (Group items).
Proof.
  intros Hget%dict_get_Some_elem Ha.
  induction items as [|[k0 v0] rest IH]; [by apply elem_of_nil in Hget|].
  rewrite leaves_Group_cons, elem_of_app.
  apply elem_of_cons in Hget as [[= <- <-]|Hget]; [by left|right; by apply IH].
Qed.

(** The leaves a classification keeps are the leaves of the target kinds,
    in the order of the schema. *)
Lemma leaves_extract_schema schema T :
  tree_wf (Group schema) →
  leaves (Group (_extract_schema schema T)) =
    filter (λ l, Is_true (isinstance (leaf_field l) T)) (leaves (Group schema)).
Proof.
  remember (Group schema) as t eqn:Ht. revert schema Ht.
  induction t as [a|items IH] using tree_ind; intros schema [= <-] Hwf.
  pose proof Hwf as [Hnd Hall]%tree_wf_Group_inv.
  rewrite _extract_schema_items by done. clear Hnd Hwf.
  induction items as [|[k0 [l|sub]] rest IHrest]; [done|..];
    apply Forall_cons in IH as [IHv IH]; apply Forall_cons in Hall as [Hv Hall];
    rewrite leaves_Group_cons, filter_app; simpl.
  - rewrite leaves_Leaf, filter_cons, filter_nil.
    destruct (isinstance (leaf_field l) T) eqn:Hl; simpl.
    + rewrite leaves_Group_cons, leaves_Leaf. simpl. f_equal. by apply IHrest.
    + by apply IHrest.
  - rewrite leaves_Group_cons. f_equal; [by apply (IHv sub)|by apply IHrest].
Qed.

Lemma filter_none {A} (P : A → Prop) `{!∀ x, Decision (P x)} (l : list A) :
  (∀ x, x ∈ l → ¬ P x) → filter P l = [].
Proof.
  induction l as [|x l IH]; intros Hno; [done|].
  rewrite filter_cons_False by (apply Hno, list_elem_of_here).
  apply IH. intros y Hy. by apply Hno, list_elem_of_further.
Qed.

(** ** Claims on [_extract_schema] *)

(** C5, as the claim has it: a group whose extraction holds no leaf
    appears as the empty group.  A group that holds a sub-group does not:
    for [{"owner": {"inner": {"email": <lazy leaf>}}}] and the eager kinds
    the output is [{"owner": {"inner": {}}}]. *)
Lemma extract_empty_group_counterexample :
  dict_get nested_lazy_schema "owner"
    = Some (Group [("inner", Group [("email", Leaf (MkLeaf lazy_field "custom_email" []))])]) ∧
  leaf_count
    (Group (_extract_schema
              [("inner", Group [("email", Leaf (MkLeaf lazy_field "custom_email" []))])]
              EAGER_TYPES)) = 0 ∧
  dict_get (_extract_schema nested_lazy_schema EAGER_TYPES) "owner"
    = Some (Group [("inner", Group [])]) ∧
  dict_get (_extract_schema nested_lazy_schema EAGER_TYPES) "owner" ≠ Some (Group []).
Proof. split_and!; [reflexivity..|]. vm_compute. discriminate. Qed.

(** C5 (amended): a group is kept under its key whatever it holds: the
    output has, at that key, the group extracted from it, never an absent
    key.  That group has no leaf when the input group has none of the target
    kinds, and it is the empty group when, besides, the input group has no
    sub-group. *)
Theorem extract_keeps_groups (schema : SchemaType) (T : list pyclass) k g :
  tree_wf (Group schema) →
  dict_get schema k = Some (Group g) →
  dict_get (_extract_schema schema T) k = Some (Group (_extract_schema g T)) ∧
  k ∈ dict_keys (_extract_schema schema T) ∧
  ((∀ l, l ∈ leaves (Group g) → isinstance (leaf_field l) T = false) →
     leaf_count (Group (_extract_schema g T)) = 0) ∧
  ((∀ l, l ∈ leaves (Group g) → isinstance (leaf_field l) T = false) →
   (∀ k' v, dict_get g k' = Some v → is_dict v = false) →
     _extract_schema g T = []).
Proof.
  intros Hwf Hk.
  pose proof Hwf as [Hnd _]%tree_wf_Group_inv.
  pose proof (tree_wf_lookup _ _ _ Hwf Hk) as Hwfg.
  assert (dict_get (_extract_schema schema T) k = Some (Group (_extract_schema g T))) as Hget.
  { rewrite _extract_schema_get by done. by rewrite Hk. }
  split_and!.
  - done.
  - apply dict_get_is_Some. by eexists.
  - intros Hnone. rewrite leaf_count_leaves, leaves_extract_schema by done.
    rewrite filter_none; [done|].
    intros l Hl. rewrite (Hnone l Hl). by intros [].
  - intros Hnone Hflat.
    pose proof Hwfg as [Hndg _]%tree_wf_Group_inv.
    rewrite _extract_schema_items by done.
    assert (∀ k' v, (k', v) ∈ g → ∃ l, v = Leaf l ∧ isinstance (leaf_field l) T = false) as Hg.
    { intros k' v Hin.
      pose proof (dict_get_elem_NoDup _ _ _ Hndg Hin) as Hget'.
      destruct v as [l|sub]; [|by specialize (Hflat _ _ Hget')].
      exists l. split; [done|]. apply Hnone. eapply leaves_lookup; [done|]. apply list_elem_of_here. }
    clear -Hg. induction g as [|[k0 v] rest IH]; [done|].
    destruct (Hg k0 v) as (l & -> & Hl); [apply list_elem_of_here|].
    simpl. rewrite Hl. apply IH. intros k' v' Hin. apply (Hg k' v').
    by apply list_elem_of_further.
Qed.

Lemma extract_keeps_groups_witness :
  dict_get (_extract_schema
              [("owner", Group [("email", Leaf (MkLeaf lazy_field "custom_email" []))])]
              EAGER_TYPES) "owner"
    = Some (Group []).
Proof.
  refine (proj1 (extract_keeps_groups
                   [("owner", Group [("email", Leaf (MkLeaf lazy_field "custom_email" []))])]
                   EAGER_TYPES "owner"
                   [("email", Leaf (MkLeaf lazy_field "custom_email" []))] _ _)).
  - by apply tree_wfb_sound.
  - reflexivity.
Defined.

(** ** Dictionaries as mappings *)

Lemma dict_NoDup_items {V} (d : list (string * V)) : NoDup (dict_keys d) → NoDup d.
Proof. apply NoDup_fmap_1. Qed.

Lemma dict_elem_get {V} (d : list (string * V)) k v :
  NoDup (dict_keys d) → (k, v) ∈ d ↔ dict_get d k = Some v.
Proof. intros Hnd. split; [by apply dict_get_elem_NoDup|apply dict_get_Some_elem]. Qed.

(** Two dicts with the same lookups hold the same items. *)
Lemma dict_Permutation {V} (d1 d2 : list (string * V)) :
  NoDup (dict_keys d1) → NoDup (dict_keys d2) →
  (∀ k, dict_get d1 k = dict_get d2 k) →
  d1 ≡ₚ d2.
Proof.
  intros Hnd1 Hnd2 Hget.
  apply NoDup_Permutation; [by apply dict_NoDup_items..|].
  intros [k v]. rewrite !dict_elem_get by done. by rewrite Hget.
Qed.

Lemma leaf_count_Permutation {A} (d1 d2 : dict A) :
  d1 ≡ₚ d2 → leaf_count (Group d1) = leaf_count (Group d2).
Proof.
  induction 1 as [|[k v] d1 d2 _ IH|[k1 v1] [k2 v2] d|d1 d2 d3 _ IH1 _ IH2].
  - done.
  - rewrite !leaf_count_Group_cons. lia.
  - rewrite !leaf_count_Group_cons. lia.
  - congruence.
Qed.

Section DictMapValues.
Context {V : Type} (f : string → V → V).

Lemma dict_map_values_keys d : dict_keys (dict_map_values f d) = dict_keys d.
Proof.
  unfold dict_keys, dict_map_values. rewrite <- list_fmap_compose.
  by apply list_fmap_ext.
Qed.

Lemma dict_map_values_get d k :
  dict_get (dict_map_values f d) k = f k <$> dict_get d k.
Proof.
  induction d as [|[k0 x] d IH]; simpl; [done|].
  destruct (decide (k0 = k)) as [->|Hne]; [done|apply IH].
Qed.
End DictMapValues.

Lemma leaf_count_map_values {A} (f : string → tree A → tree A) (d : dict A) :
  (∀ k v, (k, v) ∈ d → leaf_count (f k v) = leaf_count v) →
  leaf_count (Group (dict_map_values f d)) = leaf_count (Group d).
Proof.
  induction d as [|[k v] d IH]; intros Hf; [done|].
  unfold dict_map_values in *. rewrite fmap_cons. simpl.
  rewrite !leaf_count_Group_cons.
  rewrite (Hf k v) by apply list_elem_of_here.
  rewrite IH; [done|]. intros k' v' Hin. by apply Hf, list_elem_of_further.
Qed.

(** ** Classification completeness *)

Lemma one_kind_lookup (schema : SchemaType) k v :
  (∀ l, l ∈ leaves (Group schema) → one_kind l) →
  dict_get schema k = Some v →
  ∀ l, l ∈ leaves v → one_kind l.
Proof. intros Hall Hk l Hl. apply Hall. by eapply leaves_lookup. Qed.

Lemma merged_exists (t : SchemaNode) :
  ∀ schema, t = Group schema → tree_wf t → ∃ m, merged schema m.
Proof.
  induction t as [a|items IH] using tree_ind; intros schema [= <-] Hwf.
  pose proof Hwf as [Hnd _]%tree_wf_Group_inv.
  unfold merged. rewrite deep_merge_Group. simpl.
  apply merge_loop_total.
  { rewrite _extract_schema_items by done. by apply extract_items_NoDup. }
  intros k g Hk. rewrite _extract_schema_get in Hk by done.
  destruct (dict_get items k) as [[l|sub]|] eqn:Hs; [by destruct (isinstance _ _)| |done].
  injection Hk as <-.
  unfold dict_get_default. rewrite _extract_schema_get by done. rewrite Hs. simpl.
  rewrite Forall_forall in IH.
  apply (IH (k, Group sub) (dict_get_Some_elem _ _ _ Hs) sub eq_refl).
  by eapply tree_wf_lookup.
Qed.

(** What the merge holds at a key. *)
Lemma merged_get (schema m : SchemaType) :
  tree_wf (Group schema) →
  (∀ l, l ∈ leaves (Group schema) → one_kind l) →
  merged schema m →
  ∀ k, match dict_get schema k with
       | Some (Leaf l) => dict_get m k = Some (Leaf l)
       | Some (Group sub) => ∃ msub, dict_get m k = Some (Group msub) ∧ merged sub msub
       | None => dict_get m k = None
       end.
Proof.
  intros Hwf Hkind Hm k.
  pose proof Hwf as [Hnd _]%tree_wf_Group_inv.
  unfold merged in Hm. rewrite deep_merge_Group in Hm. simpl in Hm.
  assert (NoDup (dict_keys (_extract_schema schema LAZY_TYPES))) as HndL.
  { rewrite _extract_schema_items by done. by apply extract_items_NoDup. }
  pose proof (merge_loop_get _ _ _ _ HndL Hm k) as Hget.
  unfold dict_get_default in Hget.
  rewrite !_extract_schema_get in Hget by done.
  destruct (dict_get schema k) as [[l|sub]|] eqn:Hs.
  - assert (one_kind l) as Hl.
    { apply (one_kind_lookup schema k (Leaf l)); [done..|]. rewrite leaves_Leaf. apply list_elem_of_here. }
    unfold one_kind in Hl.
    destruct (isinstance (leaf_field l) LAZY_TYPES); [done|].
    rewrite Hget. by rewrite Hl.
  - destruct Hget as (msub & Hsub & Hmk). by exists msub.
  - done.
Qed.

Lemma merged_keys (schema m : SchemaType) k :
  tree_wf (Group schema) →
  (∀ l, l ∈ leaves (Group schema) → one_kind l) →
  merged schema m →
  k ∈ dict_keys m ↔ k ∈ dict_keys schema.
Proof.
  intros Hwf Hkind Hm. pose proof (merged_get _ _ Hwf Hkind Hm k) as Hget.
  rewrite <- !dict_get_is_Some.
  destruct (dict_get schema k) as [[l|sub]|].
  - rewrite Hget. split; by eexists.
  - destruct Hget as (msub & -> & _). split; by eexists.
  - rewrite Hget. done.
Qed.

Lemma merged_NoDup (schema m : SchemaType) :
  tree_wf (Group schema) → merged schema m → NoDup (dict_keys m).
Proof.
  intros [Hnd _]%tree_wf_Group_inv Hm.
  unfold merged in Hm. rewrite deep_merge_Group in Hm. simpl in Hm.
  eapply merge_loop_NoDup; [|done].
  rewrite _extract_schema_items by done. by apply extract_items_NoDup.
Qed.

Lemma merged_wf (t : SchemaNode) :
  ∀ schema m,
    t = Group schema → tree_wf t →
    (∀ l, l ∈ leaves t → one_kind l) →
    merged schema m → tree_wf (Group m).
Proof.
  induction t as [a|items IH] using tree_ind; intros schema m [= <-] Hwf Hkind Hm.
  pose proof (merged_NoDup _ _ Hwf Hm) as Hnd.
  constructor; [done|]. apply Forall_forall. intros [k v] Hin. simpl.
  apply dict_elem_get in Hin; [|done].
  pose proof (merged_get _ _ Hwf Hkind Hm k) as Hget.
  destruct (dict_get items k) as [[l|sub]|] eqn:Hs.
  - rewrite Hget in Hin. injection Hin as <-. constructor.
  - destruct Hget as (msub & Hmk & Hsub). rewrite Hmk in Hin. injection Hin as <-.
    rewrite Forall_forall in IH.
    apply (IH (k, Group sub) (dict_get_Some_elem _ _ _ Hs) sub msub eq_refl); [|by eapply one_kind_lookup|done].
    by eapply tree_wf_lookup.
  - by rewrite Hget in Hin.
Qed.

Lemma lookup_path_Leaf_same {A} (a : A) p :
  match lookup_path (Leaf a) p, lookup_path (Leaf a) p with
  | Some (Leaf a), Some (Leaf b) => a = b
  | Some (Group d1), Some (Group d2) => ∀ k, k ∈ dict_keys d1 ↔ k ∈ dict_keys d2
  | None, None => True
  | _, _ => False
  end.
Proof. by destruct p. Qed.

Lemma merged_same_structure (schema m : SchemaType) :
  tree_wf (Group schema) →
  (∀ l, l ∈ leaves (Group schema) → one_kind l) →
  merged schema m →
  same_structure (Group m) (Group schema).
Proof.
  intros Hwf Hkind Hm p. revert schema m Hwf Hkind Hm.
  induction p as [|k p IH]; intros schema m Hwf Hkind Hm.
  - simpl. intros k. by apply merged_keys.
  - simpl. pose proof (merged_get _ _ Hwf Hkind Hm k) as Hget.
    destruct (dict_get schema k) as [[l|sub]|] eqn:Hs.
    + rewrite Hget. apply lookup_path_Leaf_same.
    + destruct Hget as (msub & -> & Hsub). apply IH; [|by eapply one_kind_lookup|done].
      by eapply tree_wf_lookup.
    + by rewrite Hget.
Qed.

Lemma merged_leaf_count (t : SchemaNode) :
  ∀ schema m,
    t = Group schema → tree_wf t →
    (∀ l, l ∈ leaves t → one_kind l) →
    merged schema m → leaf_count (Group m) = leaf_count t.
Proof.
  induction t as [a|items IH] using tree_ind; intros schema m [= <-] Hwf Hkind Hm.
  pose proof Hwf as [Hnd _]%tree_wf_Group_inv.
  pose proof (merged_NoDup _ _ Hwf Hm) as Hndm.
  pose proof (merged_get _ _ Hwf Hkind Hm) as Hget.
  set (f := λ (k : string) (v : tree leaf), default v (dict_get m k)).
  rewrite (leaf_count_Permutation m (dict_map_values f items)).
  - apply leaf_count_map_values. intros k v Hin. unfold f.
    pose proof (Hget k) as Hk. apply dict_elem_get in Hin; [|done]. rewrite Hin in Hk.
    destruct v as [l|sub].
    + by rewrite Hk.
    + destruct Hk as (msub & -> & Hsub). simpl.
      rewrite Forall_forall in IH.
      apply (IH (k, Group sub) (dict_get_Some_elem _ _ _ Hin) sub msub eq_refl); [|by eapply one_kind_lookup|done].
      by eapply tree_wf_lookup.
  - apply dict_Permutation; [done|by rewrite dict_map_values_keys|].
    intros k. rewrite dict_map_values_get. unfold f. specialize (Hget k).
    destruct (dict_get items k) as [[l|sub]|]; simpl.
    + by rewrite Hget.
    + by destruct Hget as (msub & -> & _).
    + done.
Qed.

(** C1: when every leaf is of exactly one of the two kinds, merging the
    eager and the lazy classification of a schema returns a tree with the key
    structure of the schema at every level: the same leaves at the same
    paths, groups with the same keys, each key once, as many leaves. *)
Theorem classification_complete (schema : SchemaType) :
  tree_wf (Group schema) →
  (∀ l, l ∈ leaves (Group schema) → one_kind l) →
  ∃ m,
    deep_merge dict_of_schema_leaf
      (Group (_extract_schema schema EAGER_TYPES))
      (Group (_extract_schema schema LAZY_TYPES)) = Ok m ∧
    same_structure (Group m) (Group schema) ∧
    tree_wf (Group m) ∧
    leaf_count (Group m) = leaf_count (Group schema).
Proof.
  intros Hwf Hkind.
  destruct (merged_exists (Group schema) schema eq_refl Hwf) as [m Hm].
  exists m. split_and!.
  - done.
  - by apply merged_same_structure.
  - by eapply merged_wf.
  - by eapply merged_leaf_count.
Qed.

Lemma classification_complete_witness :
  ∃ m,
    deep_merge dict_of_schema_leaf
      (Group (_extract_schema
                [("pk", Leaf (MkLeaf field "increment" []));
                 ("owner", Group [("email", Leaf (MkLeaf lazy_field "custom_email" []));
                                  ("creator", Leaf (MkLeaf field "full_name" []))]);
                 ("apiKeys", Leaf (MkLeaf fieldset "token_hex" []))] EAGER_TYPES))
      (Group (_extract_schema
                [("pk", Leaf (MkLeaf field "increment" []));
                 ("owner", Group [("email", Leaf (MkLeaf lazy_field "custom_email" []));
                                  ("creator", Leaf (MkLeaf field "full_name" []))]);
                 ("apiKeys", Leaf (MkLeaf fieldset "token_hex" []))] LAZY_TYPES)) = Ok m ∧
    leaf_count (Group m) = 4.
Proof.
  destruct (classification_complete
              [("pk", Leaf (MkLeaf field "increment" []));
               ("owner", Group [("email", Leaf (MkLeaf lazy_field "custom_email" []));
                                ("creator", Leaf (MkLeaf field "full_name" []))]);
               ("apiKeys", Leaf (MkLeaf fieldset "token_hex" []))])
    as (m & Hm & _ & _ & Hcount).
  - by apply tree_wfb_sound.
  - intros l Hl. vm_compute in Hl.
    repeat (apply elem_of_cons in Hl as [->|Hl]; [reflexivity|]).
    by apply elem_of_nil in Hl.
  - exists m. split; [exact Hm|exact Hcount].
Defined.

(** ** The two passes as a sequence of calls *)

Lemma bind_keywords_nil kwargs : bind_keywords [] kwargs = Ok kwargs.
Proof.
  unfold bind_keywords.
  assert (List.find (λ kv : string * pyval, bool_decide (kv.1 ∈ dict_keys (@nil (string * pyval)))) kwargs = None)
    as ->; [|done].
  induction kwargs as [|[k v] rest IH]; [done|exact IH].
Qed.

Lemma find_cons {A} (f : A → bool) x l :
  List.find f (x :: l) = if f x then Some x else List.find f l.
Proof. done. Qed.

Lemma bind_keywords_eager_data v kwargs :
  bind_keywords [(EAGER_DATA, v)] kwargs =
    if decide (EAGER_DATA ∈ dict_keys kwargs)
    then Raise DUPLICATE_EAGER_DATA
    else Ok ((EAGER_DATA, v) :: kwargs).
Proof.
  unfold bind_keywords.
  induction kwargs as [|[k x] rest IH].
  - rewrite decide_False by apply not_elem_of_nil. done.
  - rewrite find_cons.
    change (dict_keys ((k, x) :: rest)) with (k :: dict_keys rest).
    change (dict_keys [(EAGER_DATA, v)]) with [EAGER_DATA] in *.
    change ((k, x).1) with k.
    destruct (decide (k = EAGER_DATA)) as [->|Hne].
    + rewrite bool_decide_eq_true_2 by apply list_elem_of_here.
      rewrite decide_True by apply list_elem_of_here. done.
    + rewrite bool_decide_eq_false_2 by (by intros ->%list_elem_of_singleton).
      destruct (List.find _ rest) as [[k' x']|] eqn:Hfind.
      * destruct (decide (EAGER_DATA ∈ dict_keys rest)) as [Hin|Hnot]; [|done].
        rewrite decide_True by (by apply list_elem_of_further). done.
      * destruct (decide (EAGER_DATA ∈ dict_keys rest)) as [Hin|Hnot]; [done|].
        rewrite decide_False; [done|]. rewrite not_elem_of_cons. split; [congruence|done].
Qed.

Section Passes.
Context {gstate : Type}.
Variable invoke :
  holder → string → list (string * pyval) → gstate → outcome pyval * gstate.

Lemma mbind_eq {A B} (m : M gstate A) (f : A → M gstate B) w :
  mbind m f w =
    match m w with
    | (Ok a, w') => f a w'
    | (Raise e, w') => (Raise e, w')
    end.
Proof. done. Qed.

Lemma eager_node_Group items w :
  evaluate_eager_node invoke (Group items) w = eager_loop invoke items [] w.
Proof.
  cbn [evaluate_eager_node].
  match goal with
  | |- ?F items [] w = _ =>
      enough (∀ w results, F items results w = eager_loop invoke items results w) by done
  end.
  clear w. induction items as [|[k [l|sub]] rest IH]; intros w results; [done|..];
    cbn [eager_loop]; rewrite !mbind_eq.
  - destruct (call_field _ _ _ _ _ w) as [[v|e] w1]; [apply IH|done].
  - unfold _evaluate_eager.
    destruct (evaluate_eager_node invoke (Group sub) w) as [[v|e] w1]; [apply IH|done].
Qed.

Lemma lazy_node_Group items existing_results w :
  evaluate_lazy_node invoke (Group items) existing_results w =
    lazy_loop invoke items existing_results [] w.
Proof.
  cbn [evaluate_lazy_node].
  match goal with
  | |- ?F items [] w = _ =>
      enough (∀ w results,
                F items results w = lazy_loop invoke items existing_results results w)
        by done
  end.
  clear w. induction items as [|[k [l|sub]] rest IH]; intros w results; [done|..];
    cbn [lazy_loop]; rewrite !mbind_eq.
  - destruct (call_field _ _ _ _ _ w) as [[v|e] w1]; [apply IH|done].
  - unfold _evaluate_lazy.
    destruct (evaluate_lazy_node invoke (Group sub) existing_results w) as [[v|e] w1];
      [apply IH|done].
Qed.

Lemma run_calls_app cs1 cs2 w :
  run_calls invoke (cs1 ++ cs2) w = mbind (run_calls invoke cs1) (λ _, run_calls invoke cs2) w.
Proof.
  revert w. induction cs1 as [|c cs1 IH]; intros w; simpl; [done|].
  rewrite !mbind_eq. destruct (do_call invoke c w) as [[v|e] w1]; [|done].
  rewrite IH. by rewrite mbind_eq.
Qed.
End Passes.

Global Arguments evaluate_eager_node : simpl never.
Global Arguments evaluate_lazy_node : simpl never.

Section Flatten.
Context {gstate : Type}.
Variable invoke :
  holder → string → list (string * pyval) → gstate → outcome pyval * gstate.

(** As far as the calls, the state and the failure go, the eager pass is
    the sequence of the eager calls of the leaves. *)
Lemma eager_pass_flat (t : SchemaNode) :
  ∀ items w, t = Group items →
    void (_evaluate_eager invoke items w) =
      run_calls invoke (eager_call <$> leaves t) w.
Proof.
  induction t as [a|items0 IH] using tree_ind; intros items w [= <-].
  unfold _evaluate_eager. rewrite eager_node_Group.
  generalize (@nil (string * tree atom)). revert w.
  induction items0 as [|[k [l|sub]] rest IHrest]; intros w results; [done|..];
    apply Forall_cons in IH as [IHv IH]; specialize (IHrest IH);
    rewrite leaves_Group_cons, fmap_app, run_calls_app; cbn [eager_loop]; rewrite !mbind_eq.
  - rewrite leaves_Leaf. cbn [fmap list_fmap run_calls]. rewrite !mbind_eq. unfold do_call. simpl.
    destruct (call_field _ _ _ _ _ w) as [[v|e] w1]; [|done].
    apply IHrest.
  - specialize (IHv sub w eq_refl). simpl in IHv.
    rewrite <- IHv. unfold void.
    destruct (_evaluate_eager invoke sub w) as [[v|e] w1]; [|done].
    simpl. apply IHrest.
Qed.

Lemma lazy_pass_flat (t : SchemaNode) :
  ∀ items existing_results w, t = Group items →
    void (_evaluate_lazy invoke items existing_results w) =
      run_calls invoke (lazy_call existing_results <$> leaves t) w.
Proof.
  induction t as [a|items0 IH] using tree_ind; intros items er w [= <-].
  unfold _evaluate_lazy. rewrite lazy_node_Group.
  generalize (@nil (string * tree atom)). revert w.
  induction items0 as [|[k [l|sub]] rest IHrest]; intros w results; [done|..];
    apply Forall_cons in IH as [IHv IH]; specialize (IHrest IH);
    rewrite leaves_Group_cons, fmap_app, run_calls_app; cbn [lazy_loop]; rewrite !mbind_eq.
  - rewrite leaves_Leaf. cbn [fmap list_fmap run_calls]. rewrite !mbind_eq. unfold do_call. simpl.
    destruct (call_field _ _ _ _ _ w) as [[v|e] w1]; [|done].
    apply IHrest.
  - specialize (IHv sub er w eq_refl). simpl in IHv.
    rewrite <- IHv. unfold void.
    destruct (_evaluate_lazy invoke sub er w) as [[v|e] w1]; [|done].
    simpl. apply IHrest.
Qed.
End Flatten.

(** ** What a sequence of calls leaves in the log *)

Section Traces.
Context {gstate : Type}.
Variable invoke :
  holder → string → list (string * pyval) → gstate → outcome pyval * gstate.

Lemma run_calls_trace cs w :
  ∃ evs,
    log (run_calls invoke cs w).2 = log w ++ evs ∧
    this (run_calls invoke cs w).2 = this w ∧
    calls_trace cs evs (run_calls invoke cs w).1.
Proof.
  revert w. induction cs as [|c cs IH]; intros w.
  - exists []. simpl. rewrite app_nil_r. split_and!; [done..|constructor].
  - cbn [run_calls]. rewrite mbind_eq. unfold do_call, call_field.
    destruct (bind_keywords (cs_explicit c) (cs_kwargs c)) as [kws|e] eqn:Hbind.
    + destruct (invoke (cs_field c) (cs_handler c) kws (gen w)) as [[v|e] g].
      * match goal with |- context [run_calls invoke cs ?w1] => destruct (IH w1) as (evs & Hlog & Hthis & Htrace) end.
        eexists. rewrite Hlog, Hthis. simpl. rewrite <- app_assoc. simpl.
        split_and!; [done..|]. by constructor.
      * eexists. simpl. split_and!; [done..|]. by constructor.
    + exists []. simpl. rewrite app_nil_r. split_and!; [done..|]. by constructor.
Qed.
End Traces.

Section TraceFacts.
Implicit Types (cs : list callsite) (evs : list invocation) (r : outcome unit).

(** Every logged invocation is the call of one of the call sites, with
    the keywords that bound. *)
Lemma calls_trace_sites cs evs r inv :
  calls_trace cs evs r → inv ∈ evs →
  ∃ c, c ∈ cs ∧ inv_field inv = cs_field c ∧ inv_handler inv = cs_handler c ∧
       bind_keywords (cs_explicit c) (cs_kwargs c) = Ok (inv_kwargs inv).
Proof.
  induction 1 as [|c cs e Hb|c cs kws e Hb|c cs kws v evs r Hb _ IH]; intros Hin.
  - by apply elem_of_nil in Hin.
  - by apply elem_of_nil in Hin.
  - apply list_elem_of_singleton in Hin as ->. exists c. split_and!; [apply list_elem_of_here|done..].
  - apply elem_of_cons in Hin as [->|Hin].
    + exists c. split_and!; [apply list_elem_of_here|done..].
    + destruct (IH Hin) as (c' & Hc' & ?). exists c'. split; [by apply list_elem_of_further|done].
Qed.

(** A generator that raises ends the run with its exception. *)
Lemma calls_trace_raise cs evs r inv e :
  calls_trace cs evs r → inv ∈ evs → inv_result inv = Raise e → r = Raise e.
Proof.
  induction 1 as [|c cs e' Hb|c cs kws e' Hb|c cs kws v evs r Hb _ IH]; intros Hin Hres.
  - by apply elem_of_nil in Hin.
  - by apply elem_of_nil in Hin.
  - apply list_elem_of_singleton in Hin as ->. simpl in Hres. congruence.
  - apply elem_of_cons in Hin as [->|Hin]; [done|by apply IH].
Qed.

(** A run that raises raises what a generator raised or what a binding
    raised. *)
Lemma calls_trace_raised cs evs e :
  calls_trace cs evs (Raise e) →
  (∃ inv, inv ∈ evs ∧ inv_result inv = Raise e) ∨
  (∃ c, c ∈ cs ∧ bind_keywords (cs_explicit c) (cs_kwargs c) = Raise e).
Proof.
  remember (Raise e) as r eqn:Hr.
  induction 1 as [|c cs e' Hb|c cs kws e' Hb|c cs kws v evs r Hb _ IH].
  - done.
  - injection Hr as ->. right. exists c. split; [apply list_elem_of_here|done].
  - injection Hr as ->. left. eexists. split; [apply list_elem_of_here|done].
  - destruct (IH Hr) as [(inv & Hin & Hres)|(c' & Hc' & Hb')].
    + left. exists inv. split; [by apply list_elem_of_further|done].
    + right. exists c'. split; [by apply list_elem_of_further|done].
Qed.

(** A call site whose keywords do not bind stops the run, there or before. *)
Lemma calls_trace_unbound cs evs r c e :
  calls_trace cs evs r → c ∈ cs →
  bind_keywords (cs_explicit c) (cs_kwargs c) = Raise e →
  ∃ e', r = Raise e'.
Proof.
  induction 1 as [|c0 cs e' Hb|c0 cs kws e' Hb|c0 cs kws v evs r Hb _ IH]; intros Hin Hbind.
  - by apply elem_of_nil in Hin.
  - by eexists.
  - by eexists.
  - apply elem_of_cons in Hin as [->|Hin]; [congruence|by apply IH].
Qed.

Lemma bind_keywords_Ok explicit kwargs kws :
  bind_keywords explicit kwargs = Ok kws → kws = explicit ++ kwargs.
Proof.
  unfold bind_keywords. destruct (List.find _ kwargs) as [[k v]|]; congruence.
Qed.

(** A run that returns has called every call site once, in order. *)
Lemma calls_trace_complete cs evs :
  calls_trace cs evs (Ok ()) →
  inv_call <$> evs = (λ c, (cs_field c, cs_handler c, cs_explicit c ++ cs_kwargs c)) <$> cs.
Proof.
  remember (Ok ()) as r eqn:Hr.
  induction 1 as [|c cs e' Hb|c cs kws e' Hb|c cs kws v evs r Hb _ IH]; [done..|].
  rewrite !fmap_cons. rewrite (IH Hr). unfold inv_call at 1. simpl.
  by rewrite (bind_keywords_Ok _ _ _ Hb).
Qed.
End TraceFacts.

(** ** A run of [create] *)

Section CreateRun.
Context {gstate : Type}.
Variable invoke :
  holder → string → list (string * pyval) → gstate → outcome pyval * gstate.

Lemma eager_pass_trace schema w :
  ∃ evs,
    log (_evaluate_eager invoke schema w).2 = log w ++ evs ∧
    this (_evaluate_eager invoke schema w).2 = this w ∧
    calls_trace (eager_call <$> leaves (Group schema)) evs
      (outcome_void (_evaluate_eager invoke schema w).1).
Proof.
  pose proof (eager_pass_flat invoke (Group schema) schema w eq_refl) as Hflat.
  destruct (run_calls_trace invoke (eager_call <$> leaves (Group schema)) w)
    as (evs & Hlog & Hthis & Htrace).
  rewrite <- Hflat in Hlog, Hthis, Htrace. by exists evs.
Qed.

Lemma lazy_pass_trace schema existing_results w :
  ∃ evs,
    log (_evaluate_lazy invoke schema existing_results w).2 = log w ++ evs ∧
    this (_evaluate_lazy invoke schema existing_results w).2 = this w ∧
    calls_trace (lazy_call existing_results <$> leaves (Group schema)) evs
      (outcome_void (_evaluate_lazy invoke schema existing_results w).1).
Proof.
  pose proof (lazy_pass_flat invoke (Group schema) schema existing_results w eq_refl) as Hflat.
  destruct (run_calls_trace invoke (lazy_call existing_results <$> leaves (Group schema)) w)
    as (evs & Hlog & Hthis & Htrace).
  rewrite <- Hflat in Hlog, Hthis, Htrace. by exists evs.
Qed.

Lemma new_calls_log {A} (m : M gstate A) w evs :
  log (m w).2 = log w ++ evs → new_calls m w = evs.
Proof. intros H. unfold new_calls. rewrite H. apply drop_app_length. Qed.

Lemma create_two_pass (w w1 : world gstate) :
  this w1 = this w →
  create invoke w1 = two_pass invoke (eager_schema (this w)) (lazy_schema (this w)) w1.
Proof.
  intros Hthis. unfold create, two_pass, get_self.
  rewrite !mbind_eq. rewrite Hthis.
  destruct (eager_pass_trace (eager_schema (this w)) w1) as (evs & _ & Hthis1 & _).
  destruct (_evaluate_eager invoke (eager_schema (this w)) w1) as [[er|e] w2]; [|done].
  simpl in Hthis1. rewrite !mbind_eq. by rewrite Hthis1, Hthis.
Qed.

(** The log, the instance and the outcome of [create] in terms of its two
    passes. *)
Lemma create_run w :
  let es := eager_schema (this w) in
  let ls := lazy_schema (this w) in
  ∃ evs1,
    new_calls (_evaluate_eager invoke es) w = evs1 ∧
    calls_trace (eager_call <$> leaves (Group es)) evs1
      (outcome_void (_evaluate_eager invoke es w).1) ∧
    match (_evaluate_eager invoke es w).1 with
    | Raise e =>
        (create invoke w).1 = Raise e ∧
        new_calls (create invoke) w = evs1 ∧
        this (create invoke w).2 = this w
    | Ok er =>
        ∃ evs2 (r2 : outcome (dict atom)),
          calls_trace (lazy_call er <$> leaves (Group ls)) evs2 (outcome_void r2) ∧
          (create invoke w).1 =
            obind r2 (λ lr, deep_merge dict_of_atom (Group er) (Group lr)) ∧
          new_calls (create invoke) w = evs1 ++ evs2 ∧
          this (create invoke w).2 = this w
    end.
Proof.
  intros es ls.
  pose proof (create_two_pass w w eq_refl) as Hcreate. fold es ls in Hcreate.
  unfold two_pass in Hcreate. rewrite mbind_eq in Hcreate.
  destruct (eager_pass_trace es w) as (evs1 & Hlog1 & Hthis1 & Htrace1).
  exists evs1. split; [by apply new_calls_log|]. split; [done|].
  destruct (_evaluate_eager invoke es w) as [[er|e] w1]; simpl in *.
  - destruct (lazy_pass_trace ls er w1) as (evs2 & Hlog2 & Hthis2 & Htrace2).
    exists evs2, (_evaluate_lazy invoke ls er w1).1.
    split; [done|]. rewrite mbind_eq in Hcreate.
    assert (log (create invoke w).2 = log w ++ evs1 ++ evs2 ∧
            this (create invoke w).2 = this w ∧
            (create invoke w).1 =
              obind (_evaluate_lazy invoke ls er w1).1
                (λ lr, deep_merge dict_of_atom (Group er) (Group lr))) as (Hlog & Hthis & Hres).
    { rewrite Hcreate.
      destruct (_evaluate_lazy invoke ls er w1) as [[lr|e] w2]; simpl in *;
        rewrite Hlog2, Hlog1, <- app_assoc; (split_and!; [done|congruence|done]). }
    split; [done|]. split; [by apply new_calls_log|done].
  - split_and!; [by rewrite Hcreate|apply new_calls_log; by rewrite Hcreate|by rewrite Hcreate].
Qed.
End CreateRun.

(** ** The end-to-end scenario *)

Example demo_create :
  (create demo_invoke (construct demo_schema 0)).1 =
    Ok [("pk", Leaf (AInt 1));
        ("owner", Group [("creator", Leaf (AStr "full_name"));
                         ("email", Leaf (AStr "full_name@mimesis.name"))])].
Proof. vm_compute. reflexivity. Qed.

(** ** Claims on the evaluator *)

Section EvaluatorClaims.
Context {gstate : Type}.
Variable invoke :
  holder → string → list (string * pyval) → gstate → outcome pyval * gstate.

(** C4: an invocation that raises makes [create] raise the same
    exception, so that no tree is returned, and the stored schemas are what
    they were. *)
Theorem create_propagates_failure (w : world gstate) (inv : invocation) (e : exn) :
  inv ∈ new_calls (create invoke) w →
  inv_result inv = Raise e →
  (create invoke w).1 = Raise e ∧
  eager_schema (this (create invoke w).2) = eager_schema (this w) ∧
  lazy_schema (this (create invoke w).2) = lazy_schema (this w).
Proof.
  intros Hin Hres.
  destruct (create_run invoke w) as (evs1 & _ & Htrace1 & Hrun).
  destruct (_evaluate_eager invoke _ w).1 as [er|e1].
  - destruct Hrun as (evs2 & r2 & Htrace2 & Hcreate & Hnew & Hthis).
    rewrite Hthis. split; [|by split].
    rewrite Hnew in Hin. apply elem_of_app in Hin as [Hin|Hin].
    + by pose proof (calls_trace_raise _ _ _ _ _ Htrace1 Hin Hres).
    + pose proof (calls_trace_raise _ _ _ _ _ Htrace2 Hin Hres) as Hr2.
      rewrite Hcreate. destruct r2; simpl in *; congruence.
  - destruct Hrun as (Hcreate & Hnew & Hthis). rewrite Hthis. split; [|by split].
    rewrite Hnew in Hin.
    pose proof (calls_trace_raise _ _ _ _ _ Htrace1 Hin Hres) as Hr1.
    simpl in Hr1. congruence.
Qed.

(** C2: the invocations of [create] are those of the eager pass followed
    by those of the lazy pass.  An eager invocation receives the static
    arguments of its leaf and nothing else: the evaluator adds no keyword, so
    that no eager invocation receives the eager results.  A lazy invocation, at
    any depth, receives [_eager_data], bound to the whole tree that the eager
    pass returned, before the static arguments of its leaf.  When [create]
    returns, every leaf of the two stored schemas has been invoked so, once
    and in order. *)
Theorem two_pass_arguments (w : world gstate) :
  ∃ evs_eager evs_lazy,
    new_calls (_evaluate_eager invoke (eager_schema (this w))) w = evs_eager ∧
    new_calls (create invoke) w = evs_eager ++ evs_lazy ∧
    (∀ inv, inv ∈ evs_eager →
       ∃ l, l ∈ leaves (Group (eager_schema (this w))) ∧
            inv_call inv = (leaf_field l, leaf_handler l, leaf_kwargs l)) ∧
    (∀ inv, inv ∈ evs_lazy →
       ∃ eager_results l,
         (_evaluate_eager invoke (eager_schema (this w)) w).1 = Ok eager_results ∧
         l ∈ leaves (Group (lazy_schema (this w))) ∧
         inv_call inv =
           (leaf_field l, leaf_handler l,
            (EAGER_DATA, Group eager_results) :: leaf_kwargs l)) ∧
    (is_ok (create invoke w).1 = true →
       ∃ eager_results,
         (_evaluate_eager invoke (eager_schema (this w)) w).1 = Ok eager_results ∧
         inv_call <$> evs_eager =
           (λ l, (leaf_field l, leaf_handler l, leaf_kwargs l))
             <$> leaves (Group (eager_schema (this w))) ∧
         inv_call <$> evs_lazy =
           (λ l, (leaf_field l, leaf_handler l,
                  (EAGER_DATA, Group eager_results) :: leaf_kwargs l))
             <$> leaves (Group (lazy_schema (this w)))).
Proof.
  destruct (create_run invoke w) as (evs1 & Hnew1 & Htrace1 & Hrun).
  assert (∀ inv, inv ∈ evs1 →
            ∃ l, l ∈ leaves (Group (eager_schema (this w))) ∧
                 inv_call inv = (leaf_field l, leaf_handler l, leaf_kwargs l)) as Heager.
  { intros inv Hin.
    destruct (calls_trace_sites _ _ _ _ Htrace1 Hin) as (c & Hc & Hf & Hh & Hb).
    apply list_elem_of_fmap in Hc as (l & -> & Hl). exists l. split; [done|].
    simpl in *. rewrite bind_keywords_nil in Hb. injection Hb as Hb.
    unfold inv_call. by rewrite Hf, Hh, <- Hb. }
  destruct (_evaluate_eager invoke _ w).1 as [er|e1] eqn:He.
  - destruct Hrun as (evs2 & r2 & Htrace2 & Hcreate & Hnew & _).
    exists evs1, evs2. split_and!; [done..| |].
    + intros inv Hin.
      destruct (calls_trace_sites _ _ _ _ Htrace2 Hin) as (c & Hc & Hf & Hh & Hb).
      apply list_elem_of_fmap in Hc as (l & -> & Hl). exists er, l. split_and!; [done..|].
      simpl in *. apply bind_keywords_Ok in Hb.
      unfold inv_call. by rewrite Hf, Hh, Hb.
    + intros Hok. exists er. split; [done|].
      rewrite Hcreate in Hok. destruct r2 as [lr|e2]; [|done].
      simpl in Htrace1, Htrace2.
      rewrite (calls_trace_complete _ _ Htrace1), (calls_trace_complete _ _ Htrace2).
      rewrite <- !list_fmap_compose. done.
  - destruct Hrun as (Hcreate & Hnew & _).
    exists evs1, []. rewrite app_nil_r. split_and!; [done..| |].
    + intros inv Hin. by apply elem_of_nil in Hin.
    + intros Hok. by rewrite Hcreate in Hok.
Qed.

(** C9 (amended): with a lazy leaf whose static arguments hold the key
    [_eager_data], [create] returns no tree.  It raises what a generator
    raised before that leaf was reached, and the duplicate-keyword
    [TypeError] otherwise; the holder of that leaf is not called.  No lazy
    invocation at all receives the key twice, or bound to anything but the
    eager results. *)
Theorem reserved_keyword_collision (schema : SchemaType) (g : gstate) (l : leaf) :
  tree_wf (Group schema) →
  l ∈ leaves (Group schema) →
  isinstance (leaf_field l) LAZY_TYPES = true →
  EAGER_DATA ∈ dict_keys (leaf_kwargs l) →
  (∃ e, (create invoke (construct schema g)).1 = Raise e ∧
        (e = DUPLICATE_EAGER_DATA ∨
         ∃ inv, inv ∈ new_calls (create invoke) (construct schema g) ∧
                inv_result inv = Raise e)) ∧
  (∀ eager_results w inv,
     inv ∈ new_calls (_evaluate_lazy invoke (_extract_schema schema LAZY_TYPES) eager_results) w →
     ∃ kwargs, inv_kwargs inv = (EAGER_DATA, Group eager_results) :: kwargs ∧
               EAGER_DATA ∉ dict_keys kwargs ∧
               (inv_field inv, inv_handler inv, kwargs) ≠
                 (leaf_field l, leaf_handler l, leaf_kwargs l)).
Proof.
  intros Hwf Hl Hlazy Hkey. split.
  - set (w := construct schema g).
    destruct (create_run invoke w) as (evs1 & Hnew1 & Htrace1 & Hrun).
    assert (l ∈ leaves (Group (lazy_schema (this w)))) as Hl'.
    { simpl. rewrite leaves_extract_schema by done.
      apply list_elem_of_filter. split; [by rewrite Hlazy|done]. }
    destruct (_evaluate_eager invoke _ w).1 as [er|e1] eqn:He.
    + destruct Hrun as (evs2 & r2 & Htrace2 & Hcreate & Hnew & _).
      assert (bind_keywords (cs_explicit (lazy_call er l)) (cs_kwargs (lazy_call er l))
              = Raise DUPLICATE_EAGER_DATA) as Hbind.
      { simpl. rewrite bind_keywords_eager_data. by rewrite decide_True. }
      destruct (calls_trace_unbound _ _ _ (lazy_call er l) DUPLICATE_EAGER_DATA Htrace2)
        as [e Hr2]; [by apply list_elem_of_fmap_2|done|].
      destruct r2 as [lr|e2]; [done|]. simpl in Hr2. injection Hr2 as ->.
      exists e. split; [by rewrite Hcreate|].
      simpl in Htrace2. apply calls_trace_raised in Htrace2 as [(inv & Hin & Hres)|(c & Hc & Hb)].
      * right. exists inv. split; [|done]. rewrite Hnew. apply elem_of_app. by right.
      * left. apply list_elem_of_fmap in Hc as (l0 & -> & _). simpl in Hb.
        rewrite bind_keywords_eager_data in Hb. by case_decide; simplify_eq.
    + destruct Hrun as (Hcreate & Hnew & _).
      exists e1. split; [done|]. right.
      simpl in Htrace1. apply calls_trace_raised in Htrace1 as [(inv & Hin & Hres)|(c & Hc & Hb)].
      * exists inv. by rewrite Hnew.
      * apply list_elem_of_fmap in Hc as (l0 & -> & _). simpl in Hb.
        by rewrite bind_keywords_nil in Hb.
  - intros er w inv Hin.
    destruct (lazy_pass_trace invoke (_extract_schema schema LAZY_TYPES) er w)
      as (evs & Hlog & _ & Htrace).
    rewrite (new_calls_log _ _ _ Hlog) in Hin.
    destruct (calls_trace_sites _ _ _ _ Htrace Hin) as (c & Hc & Hf & Hh & Hb).
    apply list_elem_of_fmap in Hc as (l0 & -> & _). simpl in *.
    rewrite bind_keywords_eager_data in Hb. case_decide as Hk; [done|].
    injection Hb as Hb. exists (leaf_kwargs l0). split_and!; [done..|].
    intros [= _ _ Heq]. by rewrite Heq in Hk.
Qed.
End EvaluatorClaims.

(** A static argument of an eager leaf that is named [_eager_data] is
    the leaf's own: the eager invocation receives that value, as it receives
    every static argument, and not the eager results. *)
Example eager_static_keyword :
  new_calls (create demo_invoke) (construct eager_keyword_schema 0)
    = [MkInvocation field "word" [(EAGER_DATA, Leaf (AInt 5))] (Ok (Leaf (AStr "word")))].
Proof. reflexivity. Qed.

Lemma create_propagates_failure_witness :
  (create demo_invoke
     (construct [("pk", Leaf (MkLeaf field "increment" []));
                 ("pick", Leaf (MkLeaf field "choice" []));
                 ("name", Leaf (MkLeaf field "word" []))] 0)).1
    = Raise (GenerationFailure "Cannot choose from an empty sequence").
Proof.
  refine (proj1 (create_propagates_failure demo_invoke
                   (construct [("pk", Leaf (MkLeaf field "increment" []));
                               ("pick", Leaf (MkLeaf field "choice" []));
                               ("name", Leaf (MkLeaf field "word" []))] 0)
                   (MkInvocation field "choice" []
                      (Raise (GenerationFailure "Cannot choose from an empty sequence")))
                   (GenerationFailure "Cannot choose from an empty sequence") _ _)).
  - vm_compute. apply list_elem_of_further, list_elem_of_here.
  - reflexivity.
Defined.

(** C9, as the claim has it: [create] fails with the duplicate-keyword
    error.  When a generator raises before the leaf is reached, [create]
    fails with that exception instead. *)
Lemma reserved_keyword_collision_counterexample :
  MkLeaf lazy_field "custom_email" [(EAGER_DATA, Leaf (AInt 1))]
    ∈ leaves (Group failing_eager_schema) ∧
  isinstance lazy_field LAZY_TYPES = true ∧
  (create demo_invoke (construct failing_eager_schema 0)).1
    = Raise (GenerationFailure "Cannot choose from an empty sequence") ∧
  (create demo_invoke (construct failing_eager_schema 0)).1 ≠ Raise DUPLICATE_EAGER_DATA.
Proof.
  split_and!; [|reflexivity..|].
  - vm_compute. apply list_elem_of_further, list_elem_of_here.
  - vm_compute. discriminate.
Qed.

Lemma reserved_keyword_collision_witness :
  ∃ e, (create demo_invoke
          (construct [("pk", Leaf (MkLeaf field "increment" []));
                      ("email", Leaf (MkLeaf lazy_field "custom_email"
                                        [(EAGER_DATA, Leaf (AInt 1))]))] 0)).1 = Raise e ∧
       (e = DUPLICATE_EAGER_DATA ∨
        ∃ inv, inv ∈ new_calls (create demo_invoke)
                       (construct [("pk", Leaf (MkLeaf field "increment" []));
                                   ("email", Leaf (MkLeaf lazy_field "custom_email"
                                                     [(EAGER_DATA, Leaf (AInt 1))]))] 0) ∧
               inv_result inv = Raise e).
Proof.
  refine (proj1 (reserved_keyword_collision demo_invoke
                   [("pk", Leaf (MkLeaf field "increment" []));
                    ("email", Leaf (MkLeaf lazy_field "custom_email"
                                      [(EAGER_DATA, Leaf (AInt 1))]))] 0
                   (MkLeaf lazy_field "custom_email" [(EAGER_DATA, Leaf (AInt 1))]) _ _ _ _)).
  - by apply tree_wfb_sound.
  - vm_compute. apply list_elem_of_further, list_elem_of_here.
  - reflexivity.
  - vm_compute. apply list_elem_of_here.
Defined.

Example reserved_keyword_collision_demo :
  (create demo_invoke
     (construct [("pk", Leaf (MkLeaf field "increment" []));
                 ("email", Leaf (MkLeaf lazy_field "custom_email"
                                   [(EAGER_DATA, Leaf (AInt 1))]))] 0)).1
    = Raise DUPLICATE_EAGER_DATA.
Proof. vm_compute. reflexivity. Qed.

(** ** The classifier on the store *)

Lemma h_extract_schema_S fuel schema T (h : heap) :
  h_extract_schema (S fuel) schema T h =
    match h !! schema with
    | None => None
    | Some (ODict items) => h_extract_loop fuel (length h) T items (h ++ [ODict []])
    | Some _ => Some (Raise (AttributeError "items"), h ++ [ODict []])
    end.
Proof.
  cbn [h_extract_schema alloc].
  destruct (h !! schema) as [[items|l|a]|]; [|done..].
  match goal with
  | |- ?F items ?h0 = _ =>
      enough (∀ h1, F items h1 = h_extract_loop fuel (length h) T items h1) by done
  end.
  induction items as [|[k node] rest IH]; intros h1; [done|].
  cbn [h_extract_loop].
  destruct (h1 !! node) as [[sub|l|a]|]; [| | |done].
  - destruct (h_extract_schema fuel node T h1) as [[[r|e] h2]|]; [apply IH|done..].
  - destruct (isinstance _ _); apply IH.
  - destruct (subscript0_isinstance a) as [[|]|e]; [apply IH..|done].
Qed.

Global Arguments h_extract_schema : simpl never.

Lemma tree_map_Group {A B} (f : A → B) items :
  tree_map f (Group items) = Group (map_items f items).
Proof.
  cbn [tree_map]. f_equal. induction items as [|[k v] rest IH]; [done|].
  cbn [map_items]. by rewrite IH.
Qed.

Lemma filter_tree_Group {A} (keep : A → bool) items :
  filter_tree keep (Group items) = Group (filter_items keep items).
Proof.
  cbn [filter_tree]. f_equal. induction items as [|[k [a|sub]] rest IH]; [done|..];
    cbn [filter_items].
  - destruct (keep a); by rewrite IH.
  - by rewrite IH.
Qed.

Lemma tree_map_Leaf {A B} (f : A → B) a : tree_map f (Leaf a) = Leaf (f a).
Proof. done. Qed.

Global Arguments tree_map : simpl never.
Global Arguments filter_tree : simpl never.

Lemma depth_Group_cons {A} k (v : tree A) rest :
  depth (Group ((k, v) :: rest)) = S (Nat.max (depth v) (Nat.pred (depth (Group rest)))).
Proof. done. Qed.

Lemma depth_children {A} (items : dict A) fuel :
  depth (Group items) ≤ S fuel → Forall (λ kv, depth kv.2 ≤ fuel) items.
Proof.
  induction items as [|[k v] rest IH]; [constructor|].
  rewrite depth_Group_cons. intros Hd. constructor; [simpl; lia|].
  apply IH. destruct (depth (Group rest)) eqn:Hr; simpl in Hd; lia.
Qed.

Global Arguments depth : simpl never.

Lemma heap_ext_but_refl e (h : heap) : heap_ext_but e h h.
Proof. split_and!; [done| |done]. intros a ? ?. lia. Qed.

Lemma heap_ext_but_trans e (h1 h2 h3 : heap) :
  e < length h1 →
  heap_ext_but e h1 h2 → heap_ext_but e h2 h3 → heap_ext_but e h1 h3.
Proof.
  intros He (Hold1 & Hnew1 & Hlen1) (Hold2 & Hnew2 & Hlen2). split_and!; [| |lia].
  - intros a o Ha Hlook. by apply Hold2, Hold1.
  - intros a Hge Hlt. destruct (decide (a < length h2)) as [Hlt2|Hge2].
    + destruct (Hnew1 a Hge Hlt2) as [items Hitems]. exists items.
      apply Hold2; [lia|done].
    + apply Hnew2; [lia|done].
Qed.

Section Located.
Context {G G' : addr → Prop} {h h' : heap}.

Lemma Forall2_items_impl {X Y} (Q1 Q2 : X → Y → Prop) (xs : list (string * X))
    (ys : list (string * Y)) :
  Forall (λ kv, ∀ x, Q1 x kv.2 → Q2 x kv.2) ys →
  Forall2 (λ x y, x.1 = y.1 ∧ Q1 x.2 y.2) xs ys →
  Forall2 (λ x y, x.1 = y.1 ∧ Q2 x.2 y.2) xs ys.
Proof.
  intros Hall H2. induction H2 as [|x y xs ys [Hk Hq] _ IH]; [constructor|].
  apply Forall_cons in Hall as [Hy Hall]. constructor; [split; [done|by apply Hy]|by apply IH].
Qed.

(** A located tree stays located in a store that agrees on its dicts and
    tuples. *)
Lemma located_transport a t :
  (∀ a items, h !! a = Some (ODict items) → G a → G' a ∧ h' !! a = Some (ODict items)) →
  (∀ a l, h !! a = Some (OTuple l) → h' !! a = Some (OTuple l)) →
  located G h a t → located G' h' a t.
Proof.
  intros Hdict Htuple. revert a.
  induction t as [x|items IH] using tree_ind; intros a Hloc.
  - inversion Hloc as [a' l Hl|]; subst. constructor. by apply Htuple.
  - inversion Hloc as [|a' aitems items' Ha HG Hitems]; subst.
    destruct (Hdict _ _ Ha HG) as [HG' Ha'].
    econstructor; [done..|]. by eapply Forall2_items_impl.
Qed.
End Located.

Lemma Forall2_items_keys {X Y} (Q : X → Y → Prop) (xs : list (string * X))
    (ys : list (string * Y)) :
  Forall2 (λ x y, x.1 = y.1 ∧ Q x.2 y.2) xs ys → dict_keys xs = dict_keys ys.
Proof.
  unfold dict_keys. induction 1 as [|x y xs ys [Hk _] _ IH]; [done|].
  rewrite !fmap_cons. by rewrite Hk, IH.
Qed.

Lemma depth_Group_pos {A} (items : dict A) : 0 < depth (Group items).
Proof. destruct items as [|[k v] rest]; [cbv; lia|rewrite depth_Group_cons; lia]. Qed.

Section StoreExtract.
Variable T : list pyclass.

Lemma store_item_append (h : heap) e eitems k v :
  h !! e = Some (ODict eitems) →
  k ∉ dict_keys eitems →
  store_item h e k v = <[e := ODict (eitems ++ [(k, v)])]> h.
Proof. intros He Hk. unfold store_item. rewrite He. by rewrite dict_set_absent. Qed.

(** Writing the dict at [e] leaves located what lies elsewhere. *)
Lemma located_insert (G : addr → Prop) (h : heap) e eitems new a t :
  h !! e = Some (ODict eitems) →
  (∀ a, G a → a ≠ e) →
  located G h a t → located G (<[e := new]> h) a t.
Proof.
  intros He HG. apply located_transport.
  - intros a0 items Ha HGa. split; [done|].
    rewrite list_lookup_insert_ne; [done|]. intros ->. by apply (HG a0).
  - intros a0 l Ha. rewrite list_lookup_insert_ne; [done|]. intros ->. congruence.
Qed.

Lemma heap_ext_but_insert (h : heap) e new :
  e < length h →
  (∃ items, new = ODict items) →
  heap_ext_but e h (<[e := new]> h).
Proof.
  intros He Hnew. split_and!.
  - intros a o Ha Hlook. by rewrite list_lookup_insert_ne.
  - intros a Hge Hlt. rewrite length_insert in Hlt. lia.
  - by rewrite length_insert.
Qed.

Lemma h_extract_loop_ok (fuel : nat) (e : addr) :
  ∀ (rest : dict (addr * leaf)) (aitems : list (string * addr))
    (acc : dict (addr * leaf)) (eitems : list (string * addr)) (hc : heap),
    Forall (λ kv, extract_ok T kv.2) rest →
    Forall (λ kv, depth kv.2 ≤ fuel) rest →
    Forall (λ kv, tree_wf kv.2) rest →
    Forall2 (λ x y, x.1 = y.1 ∧ located (λ a, a < e) hc x.2 y.2) aitems rest →
    e < length hc →
    hc !! e = Some (ODict eitems) →
    Forall2 (λ x y, x.1 = y.1 ∧ located (λ a, e < a) hc x.2 y.2) eitems acc →
    NoDup (dict_keys acc ++ dict_keys rest) →
    ∃ h' eitems',
      h_extract_loop fuel e T aitems hc = Some (Ok e, h') ∧
      heap_ext_but e hc h' ∧
      h' !! e = Some (ODict eitems') ∧
      Forall2 (λ x y, x.1 = y.1 ∧ located (λ a, e < a) h' x.2 y.2) eitems'
        (acc ++ filter_items (keep_target T) rest).
Proof.
  induction rest as [|[k v] rest IH];
    intros aitems acc eitems hc Hok Hdepth Hwf Hin He Hstore Hout Hnd.
  - apply Forall2_nil_inv_r in Hin as ->. exists hc, eitems.
    rewrite app_nil_r. split_and!; [done|apply heap_ext_but_refl|done..].
  - apply Forall2_cons_inv_r in Hin as ([k' na] & aitems' & [Hk Hv] & Hin & ->).
    simpl in Hk, Hv. subst k'.
    apply Forall_cons in Hok as [Hokv Hok].
    apply Forall_cons in Hdepth as [Hdv Hdepth].
    apply Forall_cons in Hwf as [Hwfv Hwf].
    change (dict_keys ((k, v) :: rest)) with (k :: dict_keys rest) in Hnd.
    apply NoDup_keys_app_cons in Hnd as (Hk & Hnd0 & Hnd).
    assert (k ∉ dict_keys eitems) as Hk'.
    { by rewrite (Forall2_items_keys _ _ _ Hout). }
    assert (∀ x, dict_keys (acc ++ [(k, x)]) = dict_keys acc ++ [k]) as Hkeys.
    { intros x. unfold dict_keys. by rewrite fmap_app. }
    cbn [h_extract_loop].
    destruct v as [[a l]|sub].
    + inversion Hv as [a' l' Ha|]; subst.
      rewrite Ha. cbn [filter_items]. unfold keep_target at 1. simpl.
      destruct (isinstance (leaf_field l) T) eqn:Hkind.
      * rewrite (store_item_append _ _ _ _ _ Hstore Hk').
        set (h2 := <[e := ODict (eitems ++ [(k, a)])]> hc).
        assert (a ≠ e) as Hae by (intros ->; congruence).
        destruct (IH aitems' (acc ++ [(k, Leaf (a, l))]) (eitems ++ [(k, a)]) h2)
          as (h' & eitems' & Hloop & Hext & Hstore' & Hout'); try done.
        -- eapply Forall2_impl; [exact Hin|].
           intros x y [? Hloc]. split; [done|].
           eapply located_insert; [done| |done]. intros ? ?. lia.
        -- unfold h2. by rewrite length_insert.
        -- unfold h2. by apply list_lookup_insert_eq.
        -- apply Forall2_app.
           ++ eapply Forall2_impl; [exact Hout|].
              intros x y [? Hloc]. split; [done|].
              eapply located_insert; [done| |done]. intros ? ?. lia.
           ++ constructor; [|constructor]. split; [done|]. simpl. constructor.
              unfold h2. by rewrite list_lookup_insert_ne.
        -- by rewrite Hkeys.
        -- exists h', eitems'. rewrite <- app_assoc in Hout'. split_and!; [done| |done..].
           eapply heap_ext_but_trans; [done| |done].
           apply heap_ext_but_insert; [done|by eexists].
      * destruct (IH aitems' acc eitems hc) as (h' & eitems' & Hloop & Hext & Hstore' & Hout');
          try done.
        by exists h', eitems'.
    + inversion Hv as [|a' sitems sub' Hna Hlt Hsub]; subst.
      rewrite Hna.
      destruct (Hokv hc na fuel) as (h1 & Hcall & (Hold1 & Hnew1 & Hlen1) & Hloc1); try done.
      { eapply located_transport; [| |exact Hv]; [by intros|done]. }
      simpl in Hcall. rewrite Hcall.
      assert (h1 !! e = Some (ODict eitems)) as Hstore1 by by apply Hold1.
      rewrite (store_item_append _ _ _ _ _ Hstore1 Hk').
      set (h2 := <[e := ODict (eitems ++ [(k, length hc)])]> h1).
      destruct (IH aitems' (acc ++ [(k, filter_tree (keep_target T) (Group sub))])
                  (eitems ++ [(k, length hc)]) h2)
        as (h' & eitems' & Hloop & Hext & Hstore' & Hout'); try done.
      * eapply Forall2_impl; [exact Hin|].
        intros x y [? Hloc]. split; [done|].
        eapply located_insert; [done|intros ? ?; lia|].
        eapply located_transport; [| |exact Hloc]; [intros ? ? ? ?; split; [done|by apply Hold1]|].
        intros ? ? ?. by apply Hold1.
      * unfold h2. rewrite length_insert. lia.
      * unfold h2. apply list_lookup_insert_eq. lia.
      * apply Forall2_app.
        -- eapply Forall2_impl; [exact Hout|].
           intros x y [? Hloc]. split; [done|].
           eapply located_insert; [done|intros ? ?; lia|].
           eapply located_transport; [| |exact Hloc]; [intros ? ? ? ?; split; [done|by apply Hold1]|].
           intros ? ? ?. by apply Hold1.
        -- constructor; [|constructor]. split; [done|]. simpl.
           eapply located_insert; [done|intros ? ?; lia|].
           eapply located_transport; [| |exact Hloc1]; [|done].
           intros a0 items Ha0 Hge. cbv beta in *. split; [lia|done].
      * by rewrite Hkeys.
      * exists h', eitems'. cbn [filter_items]. rewrite <- app_assoc in Hout'.
        split_and!; [done| |done..].
        eapply heap_ext_but_trans; [done| |done].
        split_and!.
        -- intros a o Ha Hlook. unfold h2. rewrite list_lookup_insert_ne by done.
           by apply Hold1.
        -- intros a Hge Hlt'. unfold h2 in *. rewrite length_insert in Hlt'.
           rewrite list_lookup_insert_ne by lia. by apply Hnew1.
        -- unfold h2. rewrite length_insert. lia.
Qed.

Lemma extract_ok_all (t : tree (addr * leaf)) : extract_ok T t.
Proof.
  induction t as [x|items IH] using tree_ind; intros h schema fuel Hdict Hloc Hwf Hfuel;
    [done|].
  destruct fuel as [|fuel]; [pose proof (depth_Group_pos items); lia|].
  inversion Hloc as [|a' aitems items' Hschema _ Hitems]; subst.
  rewrite h_extract_schema_S, Hschema.
  apply tree_wf_Group_inv in Hwf as [Hnd Hwf].
  destruct (h_extract_loop_ok fuel (length h) items aitems [] [] (h ++ [ODict []]))
    as (h' & eitems' & Hloop & (Hold & Hnew & Hlen) & Hstore & Hout); try done.
  - by apply depth_children.
  - eapply Forall2_impl; [exact Hitems|].
    intros x y [? Hx]. split; [done|].
    eapply located_transport; [| |exact Hx].
    + intros a items0 Ha _. split; [by eapply lookup_lt_Some|by apply lookup_app_l_Some].
    + intros a l Ha. by apply lookup_app_l_Some.
  - rewrite length_app. simpl. lia.
  - by rewrite list_lookup_middle.
  - exists h'. rewrite length_app in Hnew, Hlen. simpl in Hnew, Hlen.
    split_and!; [done| |].
    + split_and!; [| |lia].
      * intros a o Ha. apply Hold; [by apply lookup_lt_Some in Ha; lia|].
        by apply lookup_app_l_Some.
      * intros a Hge Hlt. destruct (decide (a = length h)) as [->|Hne]; [by eexists|].
        apply Hnew; lia.
    + rewrite filter_tree_Group. econstructor; [done|done|].
      eapply Forall2_impl; [exact Hout|].
      intros x y [? Hx]. split; [done|].
      eapply located_transport; [| |exact Hx]; [|done].
      intros a items0 Ha Hlt. cbv beta in *. split; [lia|done].
Qed.
End StoreExtract.

(** ** The store run and the classifier on trees *)

Lemma filter_tree_Leaf {A} (keep : A → bool) a : filter_tree keep (Leaf a) = Leaf a.
Proof. done. Qed.

Lemma map_items_keys {A B} (f : A → B) (items : dict A) :
  dict_keys (map_items f items) = dict_keys items.
Proof.
  unfold dict_keys. induction items as [|[k v] rest IH]; [done|].
  cbn [map_items]. rewrite !fmap_cons. by rewrite IH.
Qed.

Lemma tree_wf_map {A B} (f : A → B) (t : tree A) : tree_wf t → tree_wf (tree_map f t).
Proof.
  induction t as [a|items IH] using tree_ind; intros Hwf; [constructor|].
  apply tree_wf_Group_inv in Hwf as [Hnd Hall].
  rewrite tree_map_Group. constructor; [by rewrite map_items_keys|].
  clear Hnd. induction items as [|[k v] rest IHrest]; [constructor|].
  apply Forall_cons in IH as [IHv IH]. apply Forall_cons in Hall as [Hv Hall].
  cbn [map_items]. constructor; [by apply IHv|by apply IHrest].
Qed.

(** Forgetting the addresses before or after the filter is the same. *)
Lemma tree_map_filter {A B} (f : A → B) (keep : B → bool) (t : tree A) :
  tree_map f (filter_tree (λ a, keep (f a)) t) = filter_tree keep (tree_map f t).
Proof.
  induction t as [a|items IH] using tree_ind; [done|].
  rewrite filter_tree_Group, !tree_map_Group, filter_tree_Group. f_equal.
  induction items as [|[k [a|sub]] rest IHrest]; [done|..];
    apply Forall_cons in IH as [IHv IH]; specialize (IHrest IH);
    cbn [filter_items map_items].
  - rewrite tree_map_Leaf. cbn [filter_items].
    destruct (keep (f a)); cbn [map_items]; by rewrite ?tree_map_Leaf, IHrest.
  - simpl in IHv. rewrite IHv, IHrest. rewrite tree_map_Group. by cbn [filter_items].
Qed.

(** On a dict, the classifier is the filter on leaves of the target kinds. *)
Lemma extract_schema_filter (t : SchemaNode) T :
  ∀ schema, t = Group schema → tree_wf t →
    Group (_extract_schema schema T) =
      filter_tree (λ l, isinstance (leaf_field l) T) t.
Proof.
  induction t as [a|items IH] using tree_ind; intros schema [= <-] Hwf.
  apply tree_wf_Group_inv in Hwf as [Hnd Hall].
  rewrite _extract_schema_items by done. rewrite filter_tree_Group. f_equal. clear Hnd.
  induction items as [|[k [l|sub]] rest IHrest]; [done|..];
    apply Forall_cons in IH as [IHv IH]; apply Forall_cons in Hall as [Hv Hall];
    specialize (IHrest IH Hall); cbn [extract_items filter_items].
  - destruct (isinstance _ _); by rewrite IHrest.
  - by rewrite IHrest, (IHv sub eq_refl Hv).
Qed.

Lemma leaves_filter_tree {A} (keep : A → bool) (t : tree A) x :
  x ∈ leaves (filter_tree keep t) → x ∈ leaves t.
Proof.
  induction t as [a|items IH] using tree_ind; [done|].
  rewrite filter_tree_Group.
  induction items as [|[k [a|sub]] rest IHrest]; [done|..];
    apply Forall_cons in IH as [IHv IH]; specialize (IHrest IH);
    cbn [filter_items]; rewrite leaves_Group_cons, elem_of_app.
  - destruct (keep a).
    + rewrite leaves_Group_cons, elem_of_app. intros [?|?]; [by left|right; by apply IHrest].
    + intros ?. right. by apply IHrest.
  - rewrite leaves_Group_cons, elem_of_app. intros [?|?]; [left; by apply IHv|right; by apply IHrest].
Qed.

(** The leaves of a located tree are tuples of the store, at their address. *)
Lemma located_leaves (G : addr → Prop) (h : heap) (t : tree (addr * leaf)) x :
  ∀ a, located G h a t → x ∈ leaves t → h !! x.1 = Some (OTuple x.2).
Proof.
  induction t as [[a0 l]|items IH] using tree_ind; intros a Hloc Hx.
  - rewrite leaves_Leaf in Hx. apply list_elem_of_singleton in Hx as ->.
    by inversion Hloc.
  - inversion Hloc as [|a' aitems items' Hs _ Hitems]; subst. clear Hs Hloc.
    induction Hitems as [|[k0 a0] [k1 v] aitems items [_ Hv] _ IHitems];
      [by rewrite leaves_Group_nil in Hx; apply elem_of_nil in Hx|].
    apply Forall_cons in IH as [IHv IH].
    rewrite leaves_Group_cons, elem_of_app in Hx. destruct Hx as [Hx|Hx].
    + by apply (IHv a0).
    + by apply IHitems.
Qed.

(** C8: on a store that holds a schema at [schema], the method returns
    the address of a dict that did not exist; every object of the store is
    left as it was, the input among them; the objects created are dicts, one
    for each group of the output, so that no leaf tuple and no argument
    mapping is copied; each leaf entry of the output is the address of a
    tuple of the input; and the tree returned is the one [_extract_schema]
    computes on the schema.  The bound [fuel] on the call stack only needs to
    reach the nesting depth. *)
Theorem extract_schema_store (h : heap) (schema : addr) (items : dict (addr * leaf))
    (T : list pyclass) (fuel : nat) :
  located (λ _, True) h schema (Group items) →
  tree_wf (Group items) →
  depth (Group items) ≤ fuel →
  ∃ h',
    h_extract_schema fuel schema T h = Some (Ok (length h), h') ∧
    h !! length h = None ∧
    (∀ a o, h !! a = Some o → h' !! a = Some o) ∧
    (∀ a, length h ≤ a → a < length h' → ∃ d, h' !! a = Some (ODict d)) ∧
    located (λ a, length h ≤ a) h' (length h) (filter_tree (keep_target T) (Group items)) ∧
    (∀ x, x ∈ leaves (filter_tree (keep_target T) (Group items)) →
          x ∈ leaves (Group items) ∧ h !! x.1 = Some (OTuple x.2) ∧ h' !! x.1 = Some (OTuple x.2)) ∧
    tree_map snd (filter_tree (keep_target T) (Group items)) =
      Group (_extract_schema (map_items snd items) T).
Proof.
  intros Hloc Hwf Hfuel.
  destruct (extract_ok_all T (Group items) h schema fuel eq_refl Hloc Hwf Hfuel)
    as (h' & Hrun & (Hold & Hnew & Hlen) & Hout).
  exists h'. split_and!; [done|by apply lookup_ge_None|done..| |].
  - intros x Hx. apply leaves_filter_tree in Hx.
    pose proof (located_leaves _ _ _ _ _ Hloc Hx) as Hx'.
    split_and!; [done..|by apply Hold].
  - unfold keep_target.
    rewrite (tree_map_filter snd (λ l, isinstance (leaf_field l) T)).
    rewrite tree_map_Group.
    symmetry. apply extract_schema_filter; [done|].
    rewrite <- tree_map_Group. by apply tree_wf_map.
Qed.

Lemma extract_schema_store_witness :
  ∃ h',
    h_extract_schema 2 3 EAGER_TYPES demo_heap = Some (Ok 4, h') ∧
    (∀ a o, demo_heap !! a = Some o → h' !! a = Some o).
Proof.
  destruct (extract_schema_store demo_heap 3
              [("pk", Leaf (2, MkLeaf field "increment" []));
               ("owner", Group [("email", Leaf (0, MkLeaf lazy_field "custom_email" []))])]
              EAGER_TYPES 2)
    as (h' & Hrun & _ & Hold & _).
  - econstructor; [reflexivity|done|].
    constructor; [split; [done|by constructor]|].
    constructor; [|constructor]. split; [done|].
    econstructor; [reflexivity|done|].
    constructor; [|constructor]. split; [done|by constructor].
  - by apply tree_wfb_sound.
  - vm_compute. done.
  - exists h'. split; [exact Hrun|exact Hold].
Defined.

Example extract_schema_store_demo :
  h_extract_schema 2 3 EAGER_TYPES demo_heap =
    Some (Ok 4, demo_heap ++ [ODict [("pk", 2); ("owner", 5)]; ODict []]).
Proof. vm_compute. reflexivity. Qed.

(** * Further properties of the classifier *)

Lemma filter_tree_filter {A} (k1 k2 : A → bool) (t : tree A) :
  filter_tree k2 (filter_tree k1 t) = filter_tree (λ a, k1 a && k2 a) t.
Proof.
  induction t as [a|items IH] using tree_ind; [done|].
  rewrite !filter_tree_Group. f_equal.
  induction items as [|[k [a|sub]] rest IHrest]; [done|..];
    apply Forall_cons in IH as [IHv IH]; specialize (IHrest IH);
    cbn [filter_items].
  - destruct (k1 a); cbn [filter_items andb]; [|done].
    destruct (k2 a); by rewrite IHrest.
  - simpl in IHv. rewrite (filter_tree_Group k1 sub). cbn [filter_items].
    rewrite <- (filter_tree_Group k1 sub). by rewrite IHv, IHrest.
Qed.

Lemma filter_tree_ext {A} (k1 k2 : A → bool) (t : tree A) :
  (∀ a, a ∈ leaves t → k1 a = k2 a) → filter_tree k1 t = filter_tree k2 t.
Proof.
  induction t as [a|items IH] using tree_ind; [done|].
  rewrite !filter_tree_Group. intros Hext. f_equal.
  induction items as [|[k [a|sub]] rest IHrest]; [done|..];
    apply Forall_cons in IH as [IHv IH];
    cbn [filter_items].
  - rewrite leaves_Group_cons in Hext.
    rewrite (Hext a) by (apply elem_of_app; left; rewrite leaves_Leaf; apply list_elem_of_here).
    rewrite IHrest; [done|done|]. intros x Hx. apply Hext, elem_of_app. by right.
  - rewrite leaves_Group_cons in Hext. simpl in IHv.
    rewrite IHv by (intros x Hx; apply Hext, elem_of_app; by left).
    rewrite IHrest; [done|done|]. intros x Hx. apply Hext, elem_of_app. by right.
Qed.

Lemma filter_tree_all {A} (keep : A → bool) (t : tree A) :
  (∀ a, a ∈ leaves t → keep a = true) → filter_tree keep t = t.
Proof.
  induction t as [a|items IH] using tree_ind; [done|].
  rewrite !filter_tree_Group. intros Hall. f_equal.
  induction items as [|[k [a|sub]] rest IHrest]; [done|..];
    apply Forall_cons in IH as [IHv IH];
    cbn [filter_items]; rewrite leaves_Group_cons in Hall.
  - rewrite (Hall a) by (apply elem_of_app; left; rewrite leaves_Leaf; apply list_elem_of_here).
    rewrite IHrest; [done|done|]. intros x Hx. apply Hall, elem_of_app. by right.
  - simpl in IHv. rewrite IHv by (intros x Hx; apply Hall, elem_of_app; by left).
    rewrite IHrest; [done|done|]. intros x Hx. apply Hall, elem_of_app. by right.
Qed.

Lemma isinstance_nil (h : holder) : isinstance h [] = false.
Proof.
  unfold isinstance. induction (holder_mro h) as [|c mro IH]; [done|].
  cbn [existsb]. rewrite IH.
  by rewrite bool_decide_eq_false_2 by apply not_elem_of_nil.
Qed.

Lemma _extract_schema_path (p : list string) :
  ∀ (schema : SchemaType) (T : list pyclass),
    tree_wf (Group schema) →
    lookup_path (Group (_extract_schema schema T)) p =
      match lookup_path (Group schema) p with
      | Some (Group sub) => Some (Group (_extract_schema sub T))
      | Some (Leaf l) => if isinstance (leaf_field l) T then Some (Leaf l) else None
      | None => None
      end.
Proof.
  induction p as [|k p IH]; intros schema T Hwf; [done|].
  pose proof Hwf as [Hnd _]%tree_wf_Group_inv.
  cbn [lookup_path]. rewrite _extract_schema_get by done.
  destruct (dict_get schema k) as [[l|sub]|] eqn:Hk; [| |done].
  - destruct p as [|k' p]; cbn [lookup_path]; by destruct (isinstance _ _).
  - apply IH. by eapply tree_wf_lookup.
Qed.

(** X1: at every path, the classification holds what the schema holds
    there and nothing else: a leaf, unchanged, when its holder is of a target
    kind; for a group, the classification of that group; nothing where the
    schema holds nothing or a leaf of another kind. *)
Theorem extract_schema_at_path (schema : SchemaType) (T : list pyclass) (p : list string) :
  tree_wf (Group schema) →
  lookup_path (Group (_extract_schema schema T)) p =
    match lookup_path (Group schema) p with
    | Some (Group sub) => Some (Group (_extract_schema sub T))
    | Some (Leaf l) => if isinstance (leaf_field l) T then Some (Leaf l) else None
    | None => None
    end.
Proof.
  revert schema. induction p as [|k p IH]; intros schema Hwf; [done|].
  pose proof Hwf as [Hnd _]%tree_wf_Group_inv.
  cbn [lookup_path]. rewrite _extract_schema_get by done.
  destruct (dict_get schema k) as [[l|sub]|] eqn:Hk; [| |done].
  - destruct p as [|k' p]; cbn [lookup_path]; by destruct (isinstance _ _).
  - apply IH. by eapply tree_wf_lookup.
Qed.

Lemma extract_schema_at_path_witness :
  lookup_path (Group (_extract_schema demo_schema LAZY_TYPES)) ["owner"; "email"] =
    Some (Leaf (MkLeaf lazy_field "custom_email" [])) ∧
  lookup_path (Group (_extract_schema demo_schema LAZY_TYPES)) ["owner"; "creator"] = None ∧
  lookup_path (Group (_extract_schema demo_schema LAZY_TYPES)) ["owner"] =
    Some (Group [("email", Leaf (MkLeaf lazy_field "custom_email" []))]).
Proof.
  split_and!.
  - exact (extract_schema_at_path demo_schema LAZY_TYPES ["owner"; "email"]
             (tree_wfb_sound (Group demo_schema) eq_refl)).
  - exact (extract_schema_at_path demo_schema LAZY_TYPES ["owner"; "creator"]
             (tree_wfb_sound (Group demo_schema) eq_refl)).
  - exact (extract_schema_at_path demo_schema LAZY_TYPES ["owner"]
             (tree_wfb_sound (Group demo_schema) eq_refl)).
Defined.

(** X2: classifying twice.  The order of two classifications does not
    matter, and a classification is a fixed point of its own classifier. *)
Theorem extract_schema_compose (schema : SchemaType) (T1 T2 : list pyclass) :
  tree_wf (Group schema) →
  _extract_schema (_extract_schema schema T1) T2 =
    _extract_schema (_extract_schema schema T2) T1 ∧
  _extract_schema (_extract_schema schema T1) T1 = _extract_schema schema T1.
Proof.
  intros Hwf.
  assert (∀ Ta Tb,
            Group (_extract_schema (_extract_schema schema Ta) Tb) =
              filter_tree (λ l, isinstance (leaf_field l) Ta && isinstance (leaf_field l) Tb)
                (Group schema)) as Htwice.
  { intros Ta Tb.
    rewrite (extract_schema_filter (Group (_extract_schema schema Ta)) Tb _ eq_refl)
      by by apply _extract_schema_wf.
    rewrite (extract_schema_filter (Group schema) Ta _ eq_refl) by done.
    apply filter_tree_filter. }
  split.
  - assert (Group (_extract_schema (_extract_schema schema T1) T2) =
            Group (_extract_schema (_extract_schema schema T2) T1)) as [= ->]; [|done].
    rewrite !Htwice. apply filter_tree_ext. intros l _. apply andb_comm.
  - assert (Group (_extract_schema (_extract_schema schema T1) T1) =
            Group (_extract_schema schema T1)) as [= ->]; [|done].
    rewrite Htwice. rewrite (extract_schema_filter (Group schema) T1 _ eq_refl) by done.
    apply filter_tree_ext. intros l _. apply andb_diag.
Qed.

Lemma extract_schema_compose_witness :
  _extract_schema (_extract_schema demo_schema EAGER_TYPES) LAZY_TYPES =
    _extract_schema (_extract_schema demo_schema LAZY_TYPES) EAGER_TYPES ∧
  _extract_schema (_extract_schema demo_schema EAGER_TYPES) EAGER_TYPES =
    _extract_schema demo_schema EAGER_TYPES.
Proof.
  exact (extract_schema_compose demo_schema EAGER_TYPES LAZY_TYPES
           (tree_wfb_sound (Group demo_schema) eq_refl)).
Defined.

(** X3: the two ends of the classifier.  A schema all of whose leaves are
    of a target kind is classified to an equal tree; when no leaf is of a
    target kind, and so for the empty tuple of kinds, the groups are all that
    is left. *)
Theorem extract_schema_all_or_none (schema : SchemaType) (T : list pyclass) :
  tree_wf (Group schema) →
  ((∀ l, l ∈ leaves (Group schema) → isinstance (leaf_field l) T = true) →
   _extract_schema schema T = schema) ∧
  ((∀ l, l ∈ leaves (Group schema) → isinstance (leaf_field l) T = false) →
   leaves (Group (_extract_schema schema T)) = []) ∧
  leaves (Group (_extract_schema schema [])) = [].
Proof.
  intros Hwf.
  assert (∀ T', (∀ l, l ∈ leaves (Group schema) → isinstance (leaf_field l) T' = false) →
                leaves (Group (_extract_schema schema T')) = []) as Hnone.
  { intros T' Hno. rewrite leaves_extract_schema by done.
    apply filter_none. intros l Hl. rewrite (Hno l Hl). intros H. exact H. }
  split_and!.
  - intros Hall.
    assert (Group (_extract_schema schema T) = Group schema) as [= ->]; [|done].
    rewrite (extract_schema_filter (Group schema) T _ eq_refl) by done.
    by apply filter_tree_all.
  - apply Hnone.
  - apply Hnone. intros l _. apply isinstance_nil.
Qed.

Lemma extract_schema_all_or_none_witness :
  leaves (Group (_extract_schema demo_schema [])) = [].
Proof.
  exact (proj2 (proj2 (extract_schema_all_or_none demo_schema []
                         (tree_wfb_sound (Group demo_schema) eq_refl)))).
Defined.

(** * Further properties of the merge *)

Lemma dict_set_same {V} (d : list (string * V)) k v :
  dict_get d k = Some v → dict_set d k v = d.
Proof.
  induction d as [|[k0 x] d IH]; simpl; [done|].
  destruct (decide (k0 = k)) as [->|Hne]; [by intros [= ->]|].
  intros Hget. by rewrite IH.
Qed.

Lemma leaves_dict_set {A} (d : dict A) k (v : tree A) x :
  x ∈ leaves (Group (dict_set d k v)) → x ∈ leaves (Group d) ∨ x ∈ leaves v.
Proof.
  induction d as [|[k0 v0] d IH]; cbn [dict_set].
  - rewrite leaves_Group_cons, leaves_Group_nil, app_nil_r. by right.
  - destruct (decide (k0 = k)) as [->|Hne]; rewrite !leaves_Group_cons, !elem_of_app.
    + intros [?|?]; [by right|left; by right].
    + intros [?|Hx]; [left; by left|]. destruct (IH Hx); [left; by right|by right].
Qed.

Lemma filter_ext_elem {A} (P Q : A → Prop) `{!∀ x, Decision (P x)} `{!∀ x, Decision (Q x)}
    (l : list A) :
  (∀ x, x ∈ l → P x ↔ Q x) → filter P l = filter Q l.
Proof.
  induction l as [|x l IH]; intros Hext; [done|].
  assert (filter P l = filter Q l) as Hl.
  { apply IH. intros y Hy. by apply Hext, list_elem_of_further. }
  pose proof (Hext x (list_elem_of_here _ _)) as Hx.
  destruct (decide (P x)) as [HP|HP].
  - rewrite !filter_cons_True by tauto. by rewrite Hl.
  - rewrite !filter_cons_False by tauto. done.
Qed.

Lemma tree_wf_lookup_path {A} (p : list string) :
  ∀ (t v : tree A), tree_wf t → lookup_path t p = Some v → tree_wf v.
Proof.
  induction p as [|k p IH]; intros t v Hwf Hp; [by injection Hp as <-|].
  destruct t as [a|items]; [done|]. cbn [lookup_path] in Hp.
  destruct (dict_get items k) as [v0|] eqn:Hk; [|done].
  apply (IH v0 v); [by eapply tree_wf_lookup|done].
Qed.

Lemma tree_wf_along {A} (p : list string) :
  ∀ (t : tree A), tree_wf t → wf_along t p.
Proof.
  induction p as [|k p IH]; intros t Hwf; [done|].
  destruct t as [a|items]; [done|]. cbn [wf_along].
  pose proof Hwf as [Hnd _]%tree_wf_Group_inv. split; [done|].
  destruct (dict_get items k) as [v|] eqn:Hk; [|done].
  apply IH. by eapply tree_wf_lookup.
Qed.

Section MergeMore.
Context {A : Type} (dict_of_leaf : A → outcome (dict A)).
Implicit Types (items result base overlay r : dict A) (k : string).

Lemma merge_loop_fixed (d : dict A) :
  ∀ items,
    Forall (λ kv, ∀ g, kv.2 = Group g →
                       deep_merge dict_of_leaf (Group g) (Group g) = Ok g) items →
    (∀ k v, (k, v) ∈ items → dict_get d k = Some v) →
    merge_loop dict_of_leaf items d = Ok d.
Proof.
  induction items as [|[k0 v] rest IH]; intros Hall Hin; [done|].
  apply Forall_cons in Hall as [Hv Hall].
  pose proof (Hin k0 v (list_elem_of_here _ _)) as Hk0.
  assert (merge_loop dict_of_leaf rest d = Ok d) as Hrest.
  { apply IH; [done|]. intros k v' ?. by apply Hin, list_elem_of_further. }
  cbn [merge_loop]. destruct v as [a|g]; cbn [is_dict].
  - by rewrite dict_set_same.
  - unfold dict_get_default. rewrite Hk0. simpl.
    rewrite (Hv g eq_refl). simpl. by rewrite dict_set_same.
Qed.

Lemma merge_loop_keys_order items result r :
  NoDup (dict_keys items) →
  merge_loop dict_of_leaf items result = Ok r →
  dict_keys r =
    dict_keys result ++ filter (λ k, k ∉ dict_keys result) (dict_keys items).
Proof.
  revert result r. induction items as [|[k0 v] rest IH]; intros result r Hnd Hloop.
  - injection Hloop as <-. change (dict_keys (@nil (string * tree A))) with (@nil string).
    by rewrite filter_nil, app_nil_r.
  - change (dict_keys ((k0, v) :: rest)) with (k0 :: dict_keys rest) in *.
    apply NoDup_cons in Hnd as [Hk0 Hnd].
    assert (∀ x r', merge_loop dict_of_leaf rest (dict_set result k0 x) = Ok r' →
              dict_keys r' =
                dict_keys result ++ filter (λ k, k ∉ dict_keys result) (k0 :: dict_keys rest))
      as Hstep.
    { intros x r' Hr'. rewrite (IH _ _ Hnd Hr').
      destruct (decide (k0 ∈ dict_keys result)) as [Hin|Hnot].
      - rewrite dict_keys_set_present by done.
        by rewrite filter_cons_False by (by intros ?).
      - rewrite dict_set_absent by done. rewrite filter_cons_True by done.
        assert (dict_keys (result ++ [(k0, x)]) = dict_keys result ++ [k0]) as ->
          by (unfold dict_keys; by rewrite fmap_app).
        rewrite <- app_assoc. cbn [app]. f_equal. f_equal.
        apply filter_ext_elem. intros k Hk.
        rewrite not_elem_of_app, not_elem_of_cons.
        split; [by intros [? _]|]. intros ?. split_and!; [done| |apply not_elem_of_nil].
        by intros ->. }
    cbn [merge_loop] in Hloop. destruct v as [a|g]; cbn [is_dict] in Hloop.
    + by apply (Hstep _ _ Hloop).
    + destruct (deep_merge dict_of_leaf _ (Group g)) as [m|e]; cbn [obind] in Hloop; [|done].
      by apply (Hstep _ _ Hloop).
Qed.

(** A leaf of the overlay, at any depth, is in the merge at its path. *)
Lemma deep_merge_overlay_path (p : list string) :
  ∀ (d1 : tree A) overlay r a,
    wf_along (Group overlay) p →
    deep_merge dict_of_leaf d1 (Group overlay) = Ok r →
    lookup_path (Group overlay) p = Some (Leaf a) →
    lookup_path (Group r) p = Some (Leaf a).
Proof.
  induction p as [|k p IH]; intros d1 overlay r a Hwf Hm Hp; [done|].
  rewrite deep_merge_Group in Hm.
  destruct Hwf as [Hnd Hwf].
  destruct (py_dict dict_of_leaf d1) as [b|e]; simpl in Hm; [|done].
  pose proof (merge_loop_get _ _ _ _ Hnd Hm k) as Hk.
  cbn [lookup_path] in *.
  destruct (dict_get overlay k) as [[a'|g]|] eqn:Ho; [| |done].
  - rewrite Hk. by destruct p.
  - destruct Hk as (m & Hmg & ->).
    by apply (IH (dict_get_default b k (Group [])) g m a).
Qed.

(** A group of the overlay, at any depth, is a group of the merge. *)
Lemma deep_merge_group_path (p : list string) :
  ∀ (d1 : tree A) overlay r g,
    wf_along (Group overlay) p →
    deep_merge dict_of_leaf d1 (Group overlay) = Ok r →
    lookup_path (Group overlay) p = Some (Group g) →
    ∃ m, lookup_path (Group r) p = Some (Group m).
Proof.
  induction p as [|k p IH]; intros d1 overlay r g Hwf Hm Hp; [by exists r|].
  rewrite deep_merge_Group in Hm.
  destruct Hwf as [Hnd Hwf].
  destruct (py_dict dict_of_leaf d1) as [b|e]; simpl in Hm; [|done].
  pose proof (merge_loop_get _ _ _ _ Hnd Hm k) as Hk.
  cbn [lookup_path] in *.
  destruct (dict_get overlay k) as [[a'|g']|] eqn:Ho; [| |done].
  - by destruct p.
  - destruct Hk as (m & Hmg & ->).
    by apply (IH (dict_get_default b k (Group [])) g' m g).
Qed.

Hypothesis dict_of_leaf_empty : ∀ a b, dict_of_leaf a = Ok b → b = [].

Lemma lookup_path_py_dict (d1 : tree A) b k p :
  py_dict dict_of_leaf d1 = Ok b →
  lookup_path d1 (k :: p) =
    match dict_get b k with Some v => lookup_path v p | None => None end.
Proof using dict_of_leaf_empty.
  destruct d1 as [a|b']; simpl; intros Hb.
  - by apply dict_of_leaf_empty in Hb as ->.
  - by injection Hb as ->.
Qed.

(** The keys of the merge at a path: those of the first tree, in its
    order, then the new ones of the overlay, in its order. *)
Lemma deep_merge_keys_order_at (p : list string) :
  ∀ (d1 : tree A) overlay r R,
    wf_along (Group overlay) p →
    (∀ g, lookup_path (Group overlay) p = Some (Group g) → NoDup (dict_keys g)) →
    deep_merge dict_of_leaf d1 (Group overlay) = Ok r →
    lookup_path (Group r) p = Some (Group R) →
    dict_keys R =
      keys_at d1 p ++ filter (λ k, k ∉ keys_at d1 p) (keys_at (Group overlay) p).
Proof using dict_of_leaf_empty.
  induction p as [|k1 p IH]; intros d1 overlay r R Hwf Hend Hm Hp.
  - injection Hp as <-. rewrite deep_merge_Group in Hm.
    pose proof (Hend overlay eq_refl) as Hnd.
    destruct d1 as [a|b]; simpl in Hm.
    + destruct (dict_of_leaf a) as [b|e] eqn:Ha; simpl in Hm; [|done].
      apply dict_of_leaf_empty in Ha as ->.
      rewrite (merge_loop_keys_order _ _ _ Hnd Hm). by rewrite keys_at_Leaf.
    + by rewrite (merge_loop_keys_order _ _ _ Hnd Hm).
  - rewrite deep_merge_Group in Hm.
    destruct Hwf as [Hnd Hwf].
    destruct (py_dict dict_of_leaf d1) as [b|e] eqn:Hb; simpl in Hm; [|done].
    pose proof (merge_loop_get _ _ _ _ Hnd Hm k1) as Hk1.
    simpl in Hp, Hend.
    assert (keys_at d1 (k1 :: p) =
            match dict_get b k1 with Some v => keys_at v p | None => [] end) as Hd1.
    { unfold keys_at. rewrite (lookup_path_py_dict _ _ _ _ Hb). by destruct (dict_get b k1). }
    assert (keys_at (Group overlay) (k1 :: p) =
            match dict_get overlay k1 with Some v => keys_at v p | None => [] end) as Hov.
    { unfold keys_at. simpl. by destruct (dict_get overlay k1). }
    rewrite Hov, Hd1.
    destruct (dict_get overlay k1) as [[a|g]|] eqn:Ho.
    + rewrite Hk1 in Hp. by destruct p.
    + destruct Hk1 as (m & Hmg & Hr). rewrite Hr in Hp.
      rewrite (IH _ _ _ _ Hwf Hend Hmg Hp).
      unfold dict_get_default.
      destruct (dict_get b k1); simpl; [done|]. by rewrite keys_at_nil_group.
    + rewrite Hk1 in Hp. rewrite filter_nil, app_nil_r. unfold keys_at.
      destruct (dict_get b k1) as [v|]; [|done]. by rewrite Hp.
Qed.

(** Where the overlay does not reach, the merge holds what the first tree
    holds. *)
Lemma deep_merge_base_path (p : list string) :
  ∀ (d1 : tree A) overlay r,
    wf_along (Group overlay) p →
    deep_merge dict_of_leaf d1 (Group overlay) = Ok r →
    lookup_path (Group overlay) p = None →
    (∀ q a, q `prefix_of` p → lookup_path (Group overlay) q ≠ Some (Leaf a)) →
    lookup_path (Group r) p = lookup_path d1 p.
Proof using dict_of_leaf_empty.
  induction p as [|k p IH]; intros d1 overlay r Hwf Hm Hp Hpre; [done|].
  rewrite deep_merge_Group in Hm.
  destruct Hwf as [Hnd Hwf].
  destruct (py_dict dict_of_leaf d1) as [b|e] eqn:Hb; simpl in Hm; [|done].
  pose proof (merge_loop_get _ _ _ _ Hnd Hm k) as Hk.
  rewrite (lookup_path_py_dict _ _ _ _ Hb). cbn [lookup_path] in Hp |- *.
  destruct (dict_get overlay k) as [[a|g]|] eqn:Ho.
  - destruct (Hpre [k] a); [by exists p|]. cbn [lookup_path]. by rewrite Ho.
  - destruct Hk as (m & Hmg & ->).
    rewrite (IH _ g m Hwf Hmg Hp).
    + unfold dict_get_default. destruct (dict_get b k); simpl; [done|].
      destruct p; [done|done].
    + intros q a [q' ->] Hq. apply (Hpre (k :: q) a); [by exists q'|].
      cbn [lookup_path]. by rewrite Ho.
  - by rewrite Hk.
Qed.

(** Where the first tree holds nothing, the merge holds what the overlay
    holds. *)
Lemma deep_merge_overlay_only_path (p : list string) :
  ∀ (d1 : tree A) overlay r v,
    wf_along (Group overlay) p →
    deep_merge dict_of_leaf d1 (Group overlay) = Ok r →
    lookup_path (Group overlay) p = Some v →
    lookup_path d1 p = None →
    tree_wf v →
    lookup_path (Group r) p = Some v.
Proof using dict_of_leaf_empty.
  induction p as [|k p IH]; intros d1 overlay r v Hwf Hm Hp Hd1 Hv; [done|].
  rewrite deep_merge_Group in Hm.
  destruct Hwf as [Hnd Hwf].
  destruct (py_dict dict_of_leaf d1) as [b|e] eqn:Hb; simpl in Hm; [|done].
  pose proof (merge_loop_get _ _ _ _ Hnd Hm k) as Hk.
  rewrite (lookup_path_py_dict _ _ _ _ Hb) in Hd1. cbn [lookup_path] in Hp |- *.
  destruct (dict_get overlay k) as [[a|g]|] eqn:Ho; [| |done].
  - rewrite Hk. by destruct p.
  - destruct Hk as (m & Hmg & ->).
    destruct p as [|k' p].
    + injection Hp as <-. cbn [lookup_path].
      destruct (dict_get b k) as [v0|] eqn:Hbk; [done|].
      unfold dict_get_default in Hmg. rewrite Hbk in Hmg. simpl in Hmg.
      rewrite (deep_merge_app dict_of_leaf (Group g) [] g eq_refl Hv) in Hmg.
      * by injection Hmg as <-.
      * simpl. by apply tree_wf_Group_inv in Hv as [? _].
    + apply (IH (dict_get_default b k (Group [])) g m v); [done..| |done].
      unfold dict_get_default. by destruct (dict_get b k).
Qed.
(** Every leaf of a merge is a leaf of one of the two trees. *)
Lemma deep_merge_leaves (t : tree A) :
  ∀ (d1 : tree A) result0 overlay r,
    t = Group overlay →
    py_dict dict_of_leaf d1 = Ok result0 →
    deep_merge dict_of_leaf d1 t = Ok r →
    ∀ x, x ∈ leaves (Group r) → x ∈ leaves (Group result0) ∨ x ∈ leaves t.
Proof using dict_of_leaf_empty.
  induction t as [a|items IH] using tree_ind; intros d1 result0 overlay r [= <-] Hd1 Hm x.
  rewrite deep_merge_Group, Hd1 in Hm. cbn [obind] in Hm. clear Hd1 d1.
  revert result0 Hm. induction items as [|[k0 v] rest IHrest]; intros result Hm Hx.
  - injection Hm as <-. by left.
  - apply Forall_cons in IH as [IHv IH]. specialize (IHrest IH).
    rewrite leaves_Group_cons, elem_of_app.
    cbn [merge_loop] in Hm. destruct v as [a|g]; cbn [is_dict] in Hm.
    + destruct (IHrest _ Hm Hx) as [Hx'|Hx']; [|right; by right].
      apply leaves_dict_set in Hx' as [?|?]; [by left|right; by left].
    + destruct (deep_merge dict_of_leaf _ (Group g)) as [m|e] eqn:Hg; cbn [obind] in Hm; [|done].
      destruct (IHrest _ Hm Hx) as [Hx'|Hx']; [|right; by right].
      apply leaves_dict_set in Hx' as [?|Hx']; [by left|].
      pose proof Hg as Hg'. rewrite deep_merge_Group in Hg'.
      destruct (py_dict dict_of_leaf (dict_get_default result k0 (Group []))) as [b|e] eqn:Hb;
        cbn [obind] in Hg'; [|done].
      destruct (IHv _ b g m eq_refl Hb Hg x Hx') as [Hxb|?]; [|right; by left].
      left. unfold dict_get_default in Hb.
      destruct (dict_get result k0) as [[a|b']|] eqn:Hk0; simpl in Hb.
      * apply dict_of_leaf_empty in Hb as ->.
        rewrite leaves_Group_nil in Hxb. by apply elem_of_nil in Hxb.
      * injection Hb as ->. by eapply leaves_lookup.
      * injection Hb as <-. rewrite leaves_Group_nil in Hxb. by apply elem_of_nil in Hxb.
Qed.
End MergeMore.

(** X4: merging a tree with itself returns the tree. *)
Theorem deep_merge_idempotent (d : dict atom) :
  tree_wf (Group d) →
  deep_merge dict_of_atom (Group d) (Group d) = Ok d.
Proof.
  remember (Group d) as t eqn:Ht. revert d Ht.
  induction t as [a|items IH] using tree_ind; intros d [= <-] Hwf.
  rewrite deep_merge_Group. cbn [py_dict obind].
  apply tree_wf_Group_inv in Hwf as [Hnd Hall].
  apply merge_loop_fixed.
  - rewrite Forall_forall in IH, Hall. apply Forall_forall. intros [k v] Hkv g Hg.
    simpl in Hg. subst v. apply (IH _ Hkv g eq_refl). apply (Hall _ Hkv).
  - intros k v Hkv. by apply dict_get_elem_NoDup.
Qed.

Lemma deep_merge_idempotent_witness :
  deep_merge dict_of_atom
    (Group [("a", Leaf (AInt 1)); ("g", Group [("x", Leaf (AInt 3))])])
    (Group [("a", Leaf (AInt 1)); ("g", Group [("x", Leaf (AInt 3))])])
  = Ok [("a", Leaf (AInt 1)); ("g", Group [("x", Leaf (AInt 3))])].
Proof.
  apply (deep_merge_idempotent [("a", Leaf (AInt 1)); ("g", Group [("x", Leaf (AInt 3))])]).
  by apply tree_wfb_sound.
Defined.

(** X5: the order of the keys of a merge.  When no key holds a dict in
    the overlay against a value that is not a dict in the base, at any level
    the merge visits, then at every path where the merge holds a dict its
    keys are the keys the base holds there, in the order of the base,
    followed by the keys only the overlay holds there, in the order of the
    overlay.  The values that are not dicts are of any kind. *)
Theorem deep_merge_key_order {A : Type} (dict_of_leaf : A → outcome (dict A))
    (base overlay r : dict A) :
  tree_wf (Group overlay) →
  compatible base overlay →
  deep_merge dict_of_leaf (Group base) (Group overlay) = Ok r →
  ∀ p R, lookup_path (Group r) p = Some (Group R) →
    dict_keys R =
      keys_at (Group base) p ++
      filter (λ k, k ∉ keys_at (Group base) p) (keys_at (Group overlay) p).
Proof.
  intros Hwf Hc Hm p R Hp.
  rewrite (deep_merge_indep dict_of_leaf (λ _, Raise (TypeError "object is not iterable"))
             (Group overlay) base overlay eq_refl Hwf Hc) in Hm.
  apply (deep_merge_keys_order_at _ no_dict_empty p (Group base) overlay r R);
    [by apply tree_wf_along| |done..].
  intros g Hg. by apply tree_wf_lookup_path in Hg as [? _]%tree_wf_Group_inv.
Qed.

Lemma deep_merge_key_order_witness :
  dict_keys [("x", Leaf (AInt 3)); ("z", Leaf (AInt 0)); ("y", Leaf (AInt 4))] =
    keys_at (Group [("a", Leaf (AInt 1)); ("g", Group [("x", Leaf (AInt 3))])]) ["g"] ++
    filter (λ k, k ∉ keys_at (Group [("a", Leaf (AInt 1)); ("g", Group [("x", Leaf (AInt 3))])]) ["g"])
      (keys_at (Group [("g", Group [("z", Leaf (AInt 0)); ("y", Leaf (AInt 4)); ("x", Leaf (AInt 3))])])
         ["g"]).
Proof.
  apply (deep_merge_key_order dict_of_atom
           [("a", Leaf (AInt 1)); ("g", Group [("x", Leaf (AInt 3))])]
           [("g", Group [("z", Leaf (AInt 0)); ("y", Leaf (AInt 4)); ("x", Leaf (AInt 3))])]
           [("a", Leaf (AInt 1));
            ("g", Group [("x", Leaf (AInt 3)); ("z", Leaf (AInt 0)); ("y", Leaf (AInt 4))])]).
  - by apply tree_wfb_sound.
  - solve_compatible.
  - vm_compute. reflexivity.
  - vm_compute. reflexivity.
Defined.

(** X6: the merge, path by path.  A value that is not a dict and that the
    overlay holds, at any depth, is what the merge holds at that path.  When
    no key holds a dict in the overlay against a value that is not a dict in
    the base, then at a path the overlay does not reach (it holds nothing
    there, and no value that is not a dict on the way) the merge holds what
    the base holds, or nothing if the base holds nothing.  The values that
    are not dicts are of any kind. *)
Theorem deep_merge_at_path {A : Type} (dict_of_leaf : A → outcome (dict A))
    (base overlay r : dict A) :
  tree_wf (Group overlay) →
  deep_merge dict_of_leaf (Group base) (Group overlay) = Ok r →
  (∀ p a, lookup_path (Group overlay) p = Some (Leaf a) →
          lookup_path (Group r) p = Some (Leaf a)) ∧
  (compatible base overlay →
   ∀ p, lookup_path (Group overlay) p = None →
        (∀ q a, q `prefix_of` p → lookup_path (Group overlay) q ≠ Some (Leaf a)) →
        lookup_path (Group r) p = lookup_path (Group base) p).
Proof.
  intros Hwf Hm. split.
  - intros p a Hp.
    apply (deep_merge_overlay_path dict_of_leaf p (Group base) overlay r a);
      [by apply tree_wf_along|done..].
  - intros Hc p Hp Hpre.
    rewrite (deep_merge_indep dict_of_leaf (λ _, Raise (TypeError "object is not iterable"))
               (Group overlay) base overlay eq_refl Hwf Hc) in Hm.
    apply (deep_merge_base_path _ no_dict_empty p (Group base) overlay r);
      [by apply tree_wf_along|done..].
Qed.

Lemma deep_merge_at_path_witness :
  lookup_path
    (Group [("a", Leaf (AInt 1));
            ("g", Group [("x", Leaf (AInt 3)); ("y", Leaf (AStr "s"))])]) ["g"; "x"] =
  lookup_path (Group [("a", Leaf (AInt 1)); ("g", Group [("x", Leaf (AInt 3))])]) ["g"; "x"].
Proof.
  refine (proj2 (deep_merge_at_path dict_of_atom
                   [("a", Leaf (AInt 1)); ("g", Group [("x", Leaf (AInt 3))])]
                   [("g", Group [("y", Leaf (AStr "s"))])]
                   [("a", Leaf (AInt 1));
                    ("g", Group [("x", Leaf (AInt 3)); ("y", Leaf (AStr "s"))])] _ _)
                _ ["g"; "x"] _ _).
  - by apply tree_wfb_sound.
  - vm_compute. reflexivity.
  - solve_compatible.
  - vm_compute. reflexivity.
  - intros q a [q' Hq] Ha.
    destruct q as [|k1 [|k2 [|k3 q]]]; simpl in Hq; [done| | |done].
    + injection Hq as <- <-. vm_compute in Ha. discriminate Ha.
    + injection Hq as <- <- <-. vm_compute in Ha. discriminate Ha.
Defined.

(** X7: the merge invents no value.  When no key holds a dict in the
    overlay against a value that is not a dict in the base, at any level the
    merge visits, every value of the result that is not a dict is a value of
    the base or a value of the overlay.  The values that are not dicts are of
    any kind. *)
Theorem deep_merge_no_new_leaf {A : Type} (dict_of_leaf : A → outcome (dict A))
    (base overlay r : dict A) (x : A) :
  tree_wf (Group overlay) →
  compatible base overlay →
  deep_merge dict_of_leaf (Group base) (Group overlay) = Ok r →
  x ∈ leaves (Group r) →
  x ∈ leaves (Group base) ∨ x ∈ leaves (Group overlay).
Proof.
  intros Hwf Hc Hm Hx.
  rewrite (deep_merge_indep dict_of_leaf (λ _, Raise (TypeError "object is not iterable"))
             (Group overlay) base overlay eq_refl Hwf Hc) in Hm.
  by apply (deep_merge_leaves _ no_dict_empty (Group overlay)
              (Group base) base overlay r eq_refl eq_refl Hm).
Qed.

Lemma deep_merge_no_new_leaf_witness :
  AInt 2 ∈ leaves (Group [("a", Leaf (AInt 1))]) ∨
  AInt 2 ∈ leaves (Group [("a", Leaf (AInt 2)); ("b", Leaf (AInt 5))]).
Proof.
  apply (deep_merge_no_new_leaf dict_of_atom
           [("a", Leaf (AInt 1))] [("a", Leaf (AInt 2)); ("b", Leaf (AInt 5))]
           [("a", Leaf (AInt 2)); ("b", Leaf (AInt 5))] (AInt 2)).
  - by apply tree_wfb_sound.
  - solve_compatible.
  - vm_compute. reflexivity.
  - vm_compute. apply list_elem_of_here.
Defined.

(** * Further properties of the evaluator *)

(** ** What a pass builds *)

Section PassResult.
Context {gstate : Type}.
Variable invoke :
  holder → string → list (string * pyval) → gstate → outcome pyval * gstate.

Lemma call_field_Ok f handler explicit kwargs (w w1 : world gstate) v :
  call_field invoke f handler explicit kwargs w = (Ok v, w1) →
  ∃ kws, bind_keywords explicit kwargs = Ok kws ∧
         log w1 = log w ++ [MkInvocation f handler kws (Ok v)].
Proof.
  unfold call_field. destruct (bind_keywords explicit kwargs) as [kws|e]; [|done].
  destruct (invoke f handler kws (gen w)) as [r g]. intros [= -> <-]. by exists kws.
Qed.

Lemma eager_loop_result (rest : SchemaType) :
  Forall (λ kv, ∀ items w er w', kv.2 = Group items → tree_wf kv.2 →
            _evaluate_eager invoke items w = (Ok er, w') →
            ∃ evs, log w' = log w ++ evs ∧ pass_result eager_call kv.2 evs (Group er)) rest →
  Forall (λ kv, tree_wf kv.2) rest →
  ∀ acc w er w',
    NoDup (dict_keys acc ++ dict_keys rest) →
    eager_loop invoke rest acc w = (Ok er, w') →
    ∃ rs evs, er = acc ++ rs ∧ log w' = log w ++ evs ∧
              pass_result eager_call (Group rest) evs (Group rs).
Proof.
  induction rest as [|[k node] rest IHrest]; intros IH Hwf acc w er w' Hnd Hloop.
  - injection Hloop as <- <-. exists [], []. rewrite !app_nil_r. split_and!; [done..|constructor].
  - apply Forall_cons in IH as [IHv IH]. apply Forall_cons in Hwf as [Hv Hwf].
    change (dict_keys ((k, node) :: rest)) with (k :: dict_keys rest) in Hnd.
    apply NoDup_keys_app_cons in Hnd as (Hk & _ & Hnd).
    assert (∀ x, dict_keys (acc ++ [(k, x)]) = dict_keys acc ++ [k]) as Hkeys.
    { intros x. unfold dict_keys. by rewrite fmap_app. }
    destruct node as [l|sub]; cbn [eager_loop] in Hloop; rewrite mbind_eq in Hloop.
    + destruct (call_field invoke _ _ _ _ w) as [[v|e] w1] eqn:Hcall; [|done].
      apply call_field_Ok in Hcall as (kws & Hbind & Hlog1).
      rewrite dict_set_absent in Hloop by done.
      destruct (IHrest IH Hwf _ _ _ _ (eq_ind_r (λ x, NoDup (x ++ _)) Hnd (Hkeys v)) Hloop)
        as (rs & evs & -> & Hlog & Hres).
      exists ((k, v) :: rs), ([MkInvocation (leaf_field l) (leaf_handler l) kws (Ok v)] ++ evs).
      split_and!.
      * by rewrite <- app_assoc.
      * by rewrite Hlog, Hlog1, <- app_assoc.
      * apply pass_cons; [|done]. by apply (pass_leaf eager_call l kws v).
    + destruct (_evaluate_eager invoke sub w) as [[r|e] w1] eqn:Hsub; [|done].
      destruct (IHv sub w r w1 eq_refl Hv Hsub) as (evs1 & Hlog1 & Hres1).
      rewrite dict_set_absent in Hloop by done.
      destruct (IHrest IH Hwf _ _ _ _ (eq_ind_r (λ x, NoDup (x ++ _)) Hnd (Hkeys (Group r))) Hloop)
        as (rs & evs & -> & Hlog & Hres).
      exists ((k, Group r) :: rs), (evs1 ++ evs). split_and!.
      * by rewrite <- app_assoc.
      * by rewrite Hlog, Hlog1, <- app_assoc.
      * by apply pass_cons.
Qed.

(** An eager pass that returns has built the tree of the values its calls
    returned. *)
Lemma eager_pass_result (t : SchemaNode) :
  ∀ items w er w', t = Group items → tree_wf t →
    _evaluate_eager invoke items w = (Ok er, w') →
    ∃ evs, log w' = log w ++ evs ∧ pass_result eager_call t evs (Group er).
Proof.
  induction t as [a|items0 IH] using tree_ind; intros items w er w' [= <-] Hwf Hrun.
  unfold _evaluate_eager in Hrun. rewrite eager_node_Group in Hrun.
  apply tree_wf_Group_inv in Hwf as [Hnd Hwf].
  destruct (eager_loop_result items0 IH Hwf [] w er w' Hnd Hrun) as (rs & evs & -> & Hlog & Hres).
  by exists evs.
Qed.

Lemma lazy_loop_result (existing_results : dict atom) (rest : SchemaType) :
  Forall (λ kv, ∀ items w lr w', kv.2 = Group items → tree_wf kv.2 →
            _evaluate_lazy invoke items existing_results w = (Ok lr, w') →
            ∃ evs, log w' = log w ++ evs ∧
                   pass_result (lazy_call existing_results) kv.2 evs (Group lr)) rest →
  Forall (λ kv, tree_wf kv.2) rest →
  ∀ acc w lr w',
    NoDup (dict_keys acc ++ dict_keys rest) →
    lazy_loop invoke rest existing_results acc w = (Ok lr, w') →
    ∃ rs evs, lr = acc ++ rs ∧ log w' = log w ++ evs ∧
              pass_result (lazy_call existing_results) (Group rest) evs (Group rs).
Proof.
  induction rest as [|[k node] rest IHrest]; intros IH Hwf acc w er w' Hnd Hloop.
  - injection Hloop as <- <-. exists [], []. rewrite !app_nil_r. split_and!; [done..|constructor].
  - apply Forall_cons in IH as [IHv IH]. apply Forall_cons in Hwf as [Hv Hwf].
    change (dict_keys ((k, node) :: rest)) with (k :: dict_keys rest) in Hnd.
    apply NoDup_keys_app_cons in Hnd as (Hk & _ & Hnd).
    assert (∀ x, dict_keys (acc ++ [(k, x)]) = dict_keys acc ++ [k]) as Hkeys.
    { intros x. unfold dict_keys. by rewrite fmap_app. }
    destruct node as [l|sub]; cbn [lazy_loop] in Hloop; rewrite mbind_eq in Hloop.
    + destruct (call_field invoke _ _ _ _ w) as [[v|e] w1] eqn:Hcall; [|done].
      apply call_field_Ok in Hcall as (kws & Hbind & Hlog1).
      rewrite dict_set_absent in Hloop by done.
      destruct (IHrest IH Hwf _ _ _ _ (eq_ind_r (λ x, NoDup (x ++ _)) Hnd (Hkeys v)) Hloop)
        as (rs & evs & -> & Hlog & Hres).
      exists ((k, v) :: rs), ([MkInvocation (leaf_field l) (leaf_handler l) kws (Ok v)] ++ evs).
      split_and!.
      * by rewrite <- app_assoc.
      * by rewrite Hlog, Hlog1, <- app_assoc.
      * apply pass_cons; [|done]. by apply (pass_leaf (lazy_call existing_results) l kws v).
    + destruct (_evaluate_lazy invoke sub existing_results w) as [[r|e] w1] eqn:Hsub; [|done].
      destruct (IHv sub w r w1 eq_refl Hv Hsub) as (evs1 & Hlog1 & Hres1).
      rewrite dict_set_absent in Hloop by done.
      destruct (IHrest IH Hwf _ _ _ _ (eq_ind_r (λ x, NoDup (x ++ _)) Hnd (Hkeys (Group r))) Hloop)
        as (rs & evs & -> & Hlog & Hres).
      exists ((k, Group r) :: rs), (evs1 ++ evs). split_and!.
      * by rewrite <- app_assoc.
      * by rewrite Hlog, Hlog1, <- app_assoc.
      * by apply pass_cons.
Qed.

Lemma lazy_pass_result (existing_results : dict atom) (t : SchemaNode) :
  ∀ items w lr w', t = Group items → tree_wf t →
    _evaluate_lazy invoke items existing_results w = (Ok lr, w') →
    ∃ evs, log w' = log w ++ evs ∧
           pass_result (lazy_call existing_results) t evs (Group lr).
Proof.
  induction t as [a|items0 IH] using tree_ind; intros items w er w' [= <-] Hwf Hrun.
  unfold _evaluate_lazy in Hrun. rewrite lazy_node_Group in Hrun.
  apply tree_wf_Group_inv in Hwf as [Hnd Hwf].
  destruct (lazy_loop_result existing_results items0 IH Hwf [] w er w' Hnd Hrun)
    as (rs & evs & -> & Hlog & Hres).
  by exists evs.
Qed.
End PassResult.

(** ** A pass, path by path *)

Lemma lookup_path_prefix {A} (q : list string) :
  ∀ (t x : tree A) p,
    lookup_path t p = Some x → q `prefix_of` p → q ≠ p →
    ∃ g, lookup_path t q = Some (Group g).
Proof.
  induction q as [|k q IH]; intros t x p Hp Hpre Hne.
  - destruct p as [|k p]; [done|]. destruct t as [a|items]; [done|]. by exists items.
  - destruct Hpre as [p' ->]. destruct t as [a|items]; [done|].
    cbn [lookup_path app] in Hp |- *.
    destruct (dict_get items k) as [v|]; [|done].
    apply (IH v x (q ++ p')); [done|by exists p'|].
    intros Heq. apply Hne. simpl. by rewrite <- Heq.
Qed.

Section PassFacts.
Variable call : leaf → callsite.

Lemma pass_result_Leaf_inv l evs v :
  pass_result call (Leaf l) evs v →
  ∃ kws, bind_keywords (cs_explicit (call l)) (cs_kwargs (call l)) = Ok kws ∧
         evs = [MkInvocation (cs_field (call l)) (cs_handler (call l)) kws (Ok v)].
Proof. inversion 1; subst. by eexists. Qed.

Lemma pass_result_Group_inv items :
  ∀ evs r,
    pass_result call (Group items) evs r →
    ∃ rs, r = Group rs ∧ dict_keys rs = dict_keys items ∧
      ∀ k, match dict_get items k with
           | Some node =>
               ∃ v evs', dict_get rs k = Some v ∧ pass_result call node evs' v ∧
                         (∀ inv, inv ∈ evs' → inv ∈ evs)
           | None => dict_get rs k = None
           end.
Proof.
  induction items as [|[k0 node] rest IH]; intros evs r H;
    inversion H as [| |k' node' rest' evs1 evs2 r1 rs H1 H2]; subst.
  - by exists [].
  - destruct (IH _ _ H2) as (rs' & Heq & Hkeys & Hget). injection Heq as ->.
    exists ((k0, r1) :: rs'). split; [done|]. split.
    { unfold dict_keys in *. rewrite !fmap_cons. by rewrite Hkeys. }
    intros k. simpl. destruct (decide (k0 = k)) as [->|Hne].
    + exists r1, evs1. split_and!; [done..|]. intros inv ?. apply elem_of_app. by left.
    + specialize (Hget k). destruct (dict_get rest k) as [n|]; [|done].
      destruct Hget as (v & evs' & ? & ? & Hsub). exists v, evs'. split_and!; [done..|].
      intros inv ?. apply elem_of_app. right. by apply Hsub.
Qed.

(** What the pass built at a path, from what the schema holds there. *)
Lemma pass_result_path (p : list string) :
  ∀ t evs r,
    pass_result call t evs r →
    match lookup_path t p with
    | Some node =>
        ∃ v evs', lookup_path r p = Some v ∧ pass_result call node evs' v ∧
                  (∀ inv, inv ∈ evs' → inv ∈ evs)
    | None =>
        (∀ q l, q `prefix_of` p → lookup_path t q ≠ Some (Leaf l)) →
        lookup_path r p = None
    end.
Proof.
  induction p as [|k p IH]; intros t evs r Hres.
  - exists r, evs. by split_and!.
  - destruct t as [l|items].
    + intros Hpre. by destruct (Hpre [] l (prefix_nil _)).
    + apply pass_result_Group_inv in Hres as (rs & -> & _ & Hget).
      specialize (Hget k). cbn [lookup_path].
      destruct (dict_get items k) as [node|] eqn:Hk.
      * destruct Hget as (v & evs' & -> & Hv & Hsub).
        specialize (IH node evs' v Hv).
        destruct (lookup_path node p) as [n|].
        -- destruct IH as (v' & evs'' & ? & ? & Hsub'). exists v', evs''.
           split_and!; [done..|]. intros inv ?. by apply Hsub, Hsub'.
        -- intros Hpre. apply IH. intros q l [q' ->] Hq.
           apply (Hpre (k :: q) l); [by exists q'|]. cbn [lookup_path]. by rewrite Hk.
      * by rewrite Hget.
Qed.

Lemma pass_result_wf_along (p : list string) :
  ∀ t evs r,
    pass_result call t evs r →
    tree_wf t →
    (∀ q l, q `prefix_of` p → q ≠ p → lookup_path t q ≠ Some (Leaf l)) →
    wf_along r p.
Proof.
  induction p as [|k p IH]; intros t evs r Hres Hwf Hpre; [done|].
  destruct t as [l|items].
  - by destruct (Hpre [] l (prefix_nil _)).
  - pose proof Hwf as [Hnd _]%tree_wf_Group_inv.
    apply pass_result_Group_inv in Hres as (rs & -> & Hkeys & Hget).
    specialize (Hget k). cbn [wf_along]. rewrite Hkeys. split; [done|].
    destruct (dict_get items k) as [node|] eqn:Hk.
    + destruct Hget as (v & evs' & -> & Hv & _).
      apply (IH node evs' v Hv); [by eapply tree_wf_lookup|].
      intros q l [q' ->] Hne Hq.
      apply (Hpre (k :: q) l); [by exists q'|by intros [= ?]|].
      cbn [lookup_path]. by rewrite Hk.
    + by rewrite Hget.
Qed.

(** The pass over a classification, at the path of a leaf of the schema. *)
Lemma class_pass_leaf (schema : SchemaType) T evs res p l :
  tree_wf (Group schema) →
  lookup_path (Group schema) p = Some (Leaf l) →
  pass_result call (Group (_extract_schema schema T)) evs (Group res) →
  wf_along (Group res) p ∧
  (∀ q a, q `prefix_of` p → q ≠ p → lookup_path (Group res) q ≠ Some (Leaf a)) ∧
  (if isinstance (leaf_field l) T
   then ∃ v kws,
          lookup_path (Group res) p = Some v ∧
          bind_keywords (cs_explicit (call l)) (cs_kwargs (call l)) = Ok kws ∧
          MkInvocation (cs_field (call l)) (cs_handler (call l)) kws (Ok v) ∈ evs
   else lookup_path (Group res) p = None).
Proof.
  intros Hwf Hp Hres.
  assert (∀ q, q `prefix_of` p → q ≠ p →
            ∃ g, lookup_path (Group (_extract_schema schema T)) q = Some (Group g)) as Hproper.
  { intros q Hq Hne. destruct (lookup_path_prefix q _ _ p Hp Hq Hne) as [g Hg].
    rewrite _extract_schema_path, Hg by done. by eexists. }
  pose proof (_extract_schema_path p schema T Hwf) as Hcs. rewrite Hp in Hcs.
  split_and!.
  - apply (pass_result_wf_along p _ evs _ Hres); [by apply _extract_schema_wf|].
    intros q l' Hq Hne Hl. destruct (Hproper q Hq Hne) as [g Hg]. congruence.
  - intros q a Hq Hne Ha. destruct (Hproper q Hq Hne) as [g Hg].
    pose proof (pass_result_path q _ _ _ Hres) as Hq'. rewrite Hg in Hq'.
    destruct Hq' as (v & evs' & Hv & Hrv & _).
    apply pass_result_Group_inv in Hrv as (rs & -> & _). congruence.
  - pose proof (pass_result_path p _ _ _ Hres) as Hp'. rewrite Hcs in Hp'.
    destruct (isinstance (leaf_field l) T).
    + destruct Hp' as (v & evs' & Hv & Hrv & Hsub).
      apply pass_result_Leaf_inv in Hrv as (kws & Hb & ->).
      exists v, kws. split_and!; [done..|]. apply Hsub, list_elem_of_here.
    + apply Hp'. intros q l' Hq Hl.
      destruct (decide (q = p)) as [->|Hne]; [congruence|].
      destruct (Hproper q Hq Hne) as [g Hg]. congruence.
Qed.

(** The same, at the path of a group of the schema. *)
Lemma class_pass_group (schema : SchemaType) T evs res p g :
  tree_wf (Group schema) →
  lookup_path (Group schema) p = Some (Group g) →
  pass_result call (Group (_extract_schema schema T)) evs (Group res) →
  wf_along (Group res) p ∧
  ∃ R, lookup_path (Group res) p = Some (Group R) ∧
       dict_keys R = dict_keys (_extract_schema g T).
Proof.
  intros Hwf Hp Hres.
  pose proof (_extract_schema_path p schema T Hwf) as Hcs. rewrite Hp in Hcs.
  split.
  - apply (pass_result_wf_along p _ evs _ Hres); [by apply _extract_schema_wf|].
    intros q l' Hq Hne Hl. destruct (lookup_path_prefix q _ _ p Hp Hq Hne) as [g' Hg].
    rewrite _extract_schema_path, Hg in Hl by done. congruence.
  - pose proof (pass_result_path p _ _ _ Hres) as Hp'. rewrite Hcs in Hp'.
    destruct Hp' as (v & evs' & Hv & Hrv & _).
    apply pass_result_Group_inv in Hrv as (rs & -> & Hkeys & _). by exists rs.
Qed.
End PassFacts.

(** ** The tree [create] returns *)

Lemma calls_trace_returned cs evs r :
  calls_trace cs evs r →
  ∀ i inv, evs !! i = Some inv → S i < length evs ∨ r = Ok () →
           is_ok (inv_result inv) = true.
Proof.
  induction 1 as [|c cs e Hb|c cs kws e Hb|c cs kws v evs r Hb _ IH]; intros i inv Hi Hlast.
  - done.
  - done.
  - destruct i as [|i]; [|done]. simpl in Hlast. destruct Hlast as [?|?]; [lia|done].
  - destruct i as [|i]; [by injection Hi as <-|].
    apply (IH i inv Hi). destruct Hlast as [?|?]; [left; simpl in *; lia|by right].
Qed.

Section CreateResult.
Context {gstate : Type}.
Variable invoke :
  holder → string → list (string * pyval) → gstate → outcome pyval * gstate.

(** A [create] that returns: its two passes and its merge. *)
Lemma create_Ok_passes (schema : SchemaType) (g : gstate) (r : dict atom) :
  tree_wf (Group schema) →
  (create invoke (construct schema g)).1 = Ok r →
  ∃ er lr evs1 evs2,
    (_evaluate_eager invoke (_extract_schema schema EAGER_TYPES) (construct schema g)).1
      = Ok er ∧
    new_calls (create invoke) (construct schema g) = evs1 ++ evs2 ∧
    pass_result eager_call (Group (_extract_schema schema EAGER_TYPES)) evs1 (Group er) ∧
    pass_result (lazy_call er) (Group (_extract_schema schema LAZY_TYPES)) evs2 (Group lr) ∧
    deep_merge dict_of_atom (Group er) (Group lr) = Ok r.
Proof.
  intros Hwf Hok. set (w := construct schema g) in *.
  pose proof (create_two_pass invoke w w eq_refl) as Hcreate.
  change (eager_schema (this w)) with (_extract_schema schema EAGER_TYPES) in Hcreate.
  change (lazy_schema (this w)) with (_extract_schema schema LAZY_TYPES) in Hcreate.
  unfold two_pass in Hcreate. rewrite mbind_eq in Hcreate.
  destruct (_evaluate_eager invoke (_extract_schema schema EAGER_TYPES) w)
    as [[er|e] w1] eqn:He; [|by rewrite Hcreate in Hok].
  rewrite mbind_eq in Hcreate.
  destruct (_evaluate_lazy invoke (_extract_schema schema LAZY_TYPES) er w1)
    as [[lr|e] w2] eqn:Hl; [|by rewrite Hcreate in Hok].
  destruct (eager_pass_result invoke _ _ w er w1 eq_refl
              (_extract_schema_wf schema EAGER_TYPES Hwf) He) as (evs1 & Hlog1 & Hres1).
  destruct (lazy_pass_result invoke er _ _ w1 lr w2 eq_refl
              (_extract_schema_wf schema LAZY_TYPES Hwf) Hl) as (evs2 & Hlog2 & Hres2).
  exists er, lr, evs1, evs2. split_and!; [done| |done..|].
  - apply new_calls_log. rewrite Hcreate. unfold mlift. simpl.
    by rewrite Hlog2, Hlog1, <- app_assoc.
  - rewrite Hcreate in Hok. by unfold mlift in Hok.
Qed.

(** X8: the value of an eager leaf.  When [create] returns, the tree
    holds, at the path of a leaf whose holder is of an eager kind only, the
    value that the call of that leaf returned in the eager pass; it is also
    what the tree of eager results, which every lazy call receives, holds at
    that path. *)
Theorem create_eager_leaf (schema : SchemaType) (g : gstate) (r : dict atom)
    (p : list string) (l : leaf) :
  tree_wf (Group schema) →
  (create invoke (construct schema g)).1 = Ok r →
  lookup_path (Group schema) p = Some (Leaf l) →
  isinstance (leaf_field l) EAGER_TYPES = true →
  isinstance (leaf_field l) LAZY_TYPES = false →
  ∃ eager_results v,
    (_evaluate_eager invoke (_extract_schema schema EAGER_TYPES) (construct schema g)).1
      = Ok eager_results ∧
    MkInvocation (leaf_field l) (leaf_handler l) (leaf_kwargs l) (Ok v)
      ∈ new_calls (create invoke) (construct schema g) ∧
    lookup_path (Group eager_results) p = Some v ∧
    lookup_path (Group r) p = Some v.
Proof.
  intros Hwf Hok Hp Heager Hlazy.
  destruct (create_Ok_passes schema g r Hwf Hok)
    as (er & lr & evs1 & evs2 & He & Hnew & Hres1 & Hres2 & Hm).
  destruct (class_pass_leaf _ schema EAGER_TYPES evs1 er p l Hwf Hp Hres1) as (_ & _ & Hv).
  destruct (class_pass_leaf _ schema LAZY_TYPES evs2 lr p l Hwf Hp Hres2)
    as (Halong & Hpre & Hnone).
  rewrite Heager in Hv. rewrite Hlazy in Hnone.
  destruct Hv as (v & kws & Hv & Hb & Hin). simpl in Hb, Hin.
  rewrite bind_keywords_nil in Hb. injection Hb as <-.
  exists er, v. split_and!; [done| |done|].
  - rewrite Hnew. apply elem_of_app. by left.
  - transitivity (lookup_path (Group er) p); [|exact Hv].
    apply (deep_merge_base_path dict_of_atom dict_of_atom_empty p (Group er) lr r);
      [done..|].
    intros q a Hq Ha. destruct (decide (q = p)) as [->|Hne]; [congruence|].
    by apply (Hpre q a).
Qed.

(** X9: the value of a lazy leaf.  When [create] returns, the leaf whose
    holder is of the lazy kind only was called in the lazy pass, with the tree
    of eager results under [_eager_data] before its static arguments, and the
    tree holds at the path of the leaf the value that call returned (a dict
    that holds each key once, as every dict does, or any other value). *)
Theorem create_lazy_leaf (schema : SchemaType) (g : gstate) (r : dict atom)
    (p : list string) (l : leaf) :
  tree_wf (Group schema) →
  (create invoke (construct schema g)).1 = Ok r →
  lookup_path (Group schema) p = Some (Leaf l) →
  isinstance (leaf_field l) EAGER_TYPES = false →
  isinstance (leaf_field l) LAZY_TYPES = true →
  ∃ eager_results v,
    (_evaluate_eager invoke (_extract_schema schema EAGER_TYPES) (construct schema g)).1
      = Ok eager_results ∧
    MkInvocation (leaf_field l) (leaf_handler l)
        ((EAGER_DATA, Group eager_results) :: leaf_kwargs l) (Ok v)
      ∈ new_calls (create invoke) (construct schema g) ∧
    (tree_wf v → lookup_path (Group r) p = Some v).
Proof.
  intros Hwf Hok Hp Heager Hlazy.
  destruct (create_Ok_passes schema g r Hwf Hok)
    as (er & lr & evs1 & evs2 & He & Hnew & Hres1 & Hres2 & Hm).
  destruct (class_pass_leaf _ schema EAGER_TYPES evs1 er p l Hwf Hp Hres1) as (_ & _ & Hnone).
  destruct (class_pass_leaf _ schema LAZY_TYPES evs2 lr p l Hwf Hp Hres2)
    as (Halong & _ & Hv).
  rewrite Heager in Hnone. rewrite Hlazy in Hv.
  destruct Hv as (v & kws & Hv & Hb & Hin). simpl in Hb, Hin.
  apply bind_keywords_Ok in Hb as ->.
  exists er, v. split_and!; [done| |].
  - rewrite Hnew. apply elem_of_app. by right.
  - intros Hwfv.
    by apply (deep_merge_overlay_only_path dict_of_atom dict_of_atom_empty p (Group er) lr r v).
Qed.

(** X10: leaves of neither kind are dropped without a word.  Every holder
    that [create] calls is of an eager or of the lazy kind; and when [create]
    returns, the tree holds nothing at the path of a leaf whose holder is of
    neither kind. *)
Theorem create_drops_other_leaves (schema : SchemaType) (g : gstate) :
  tree_wf (Group schema) →
  (∀ inv, inv ∈ new_calls (create invoke) (construct schema g) →
          isinstance (inv_field inv) EAGER_TYPES = true ∨
          isinstance (inv_field inv) LAZY_TYPES = true) ∧
  (∀ r p l,
     (create invoke (construct schema g)).1 = Ok r →
     lookup_path (Group schema) p = Some (Leaf l) →
     isinstance (leaf_field l) EAGER_TYPES = false →
     isinstance (leaf_field l) LAZY_TYPES = false →
     lookup_path (Group r) p = None).
Proof.
  intros Hwf. split.
  - intros inv Hin.
    assert (∀ T evs r0 (call : leaf → callsite),
              (∀ l, cs_field (call l) = leaf_field l) →
              calls_trace (call <$> leaves (Group (_extract_schema schema T))) evs r0 →
              inv ∈ evs → isinstance (inv_field inv) T = true) as Hkind.
    { intros T evs r0 call Hcall Htrace Hinv.
      destruct (calls_trace_sites _ _ _ _ Htrace Hinv) as (c & Hc & Hf & _).
      apply list_elem_of_fmap in Hc as (l & -> & Hl).
      rewrite leaves_extract_schema in Hl by done.
      apply list_elem_of_filter in Hl as [Hl _].
      rewrite Hf, Hcall. by apply Is_true_true. }
    destruct (create_run invoke (construct schema g)) as (evs1 & _ & Htrace1 & Hrun).
    simpl in Htrace1, Hrun.
    destruct (_evaluate_eager invoke _ (construct schema g)).1 as [er|e].
    + destruct Hrun as (evs2 & r2 & Htrace2 & _ & Hnew & _).
      rewrite Hnew in Hin. apply elem_of_app in Hin as [Hin|Hin].
      * left. by apply (Hkind _ _ _ eager_call (λ _, eq_refl) Htrace1).
      * right. by apply (Hkind _ _ _ (lazy_call er) (λ _, eq_refl) Htrace2).
    + destruct Hrun as (_ & Hnew & _). rewrite Hnew in Hin.
      left. by apply (Hkind _ _ _ eager_call (λ _, eq_refl) Htrace1).
  - intros r p l Hok Hp Heager Hlazy.
    destruct (create_Ok_passes schema g r Hwf Hok)
      as (er & lr & evs1 & evs2 & He & Hnew & Hres1 & Hres2 & Hm).
    destruct (class_pass_leaf _ schema EAGER_TYPES evs1 er p l Hwf Hp Hres1)
      as (_ & _ & Hnone1).
    destruct (class_pass_leaf _ schema LAZY_TYPES evs2 lr p l Hwf Hp Hres2)
      as (Halong & Hpre & Hnone2).
    rewrite Heager in Hnone1. rewrite Hlazy in Hnone2.
    transitivity (lookup_path (Group er) p); [|exact Hnone1].
    apply (deep_merge_base_path dict_of_atom dict_of_atom_empty p (Group er) lr r);
      [done..|].
    intros q a Hq Ha. destruct (decide (q = p)) as [->|Hne]; [congruence|].
    by apply (Hpre q a).
Qed.

(** X11: a leaf of both kinds is called twice.  When [create] returns, a
    leaf whose holder is of an eager kind and of the lazy kind was called in
    the eager pass and again in the lazy pass; the lazy call received a tree
    that holds the value of the eager call at the path of the leaf, and when
    the lazy call returned a value that is not a dict, that value is the one
    the tree holds. *)
Theorem create_hybrid_leaf (schema : SchemaType) (g : gstate) (r : dict atom)
    (p : list string) (l : leaf) :
  tree_wf (Group schema) →
  (create invoke (construct schema g)).1 = Ok r →
  lookup_path (Group schema) p = Some (Leaf l) →
  isinstance (leaf_field l) EAGER_TYPES = true →
  isinstance (leaf_field l) LAZY_TYPES = true →
  ∃ eager_results v1 v2,
    MkInvocation (leaf_field l) (leaf_handler l) (leaf_kwargs l) (Ok v1)
      ∈ new_calls (create invoke) (construct schema g) ∧
    MkInvocation (leaf_field l) (leaf_handler l)
        ((EAGER_DATA, Group eager_results) :: leaf_kwargs l) (Ok v2)
      ∈ new_calls (create invoke) (construct schema g) ∧
    lookup_path (Group eager_results) p = Some v1 ∧
    (is_dict v2 = false → lookup_path (Group r) p = Some v2).
Proof.
  intros Hwf Hok Hp Heager Hlazy.
  destruct (create_Ok_passes schema g r Hwf Hok)
    as (er & lr & evs1 & evs2 & He & Hnew & Hres1 & Hres2 & Hm).
  destruct (class_pass_leaf _ schema EAGER_TYPES evs1 er p l Hwf Hp Hres1) as (_ & _ & Hv1).
  destruct (class_pass_leaf _ schema LAZY_TYPES evs2 lr p l Hwf Hp Hres2)
    as (Halong & _ & Hv2).
  rewrite Heager in Hv1. rewrite Hlazy in Hv2.
  destruct Hv1 as (v1 & kws1 & Hv1 & Hb1 & Hin1). simpl in Hb1, Hin1.
  rewrite bind_keywords_nil in Hb1. injection Hb1 as <-.
  destruct Hv2 as (v2 & kws2 & Hv2 & Hb2 & Hin2). simpl in Hb2, Hin2.
  apply bind_keywords_Ok in Hb2 as ->.
  exists er, v1, v2. split_and!; [| |done|].
  - rewrite Hnew. apply elem_of_app. by left.
  - rewrite Hnew. apply elem_of_app. by right.
  - intros Hnd. destruct v2 as [a|d]; [|done].
    by apply (deep_merge_overlay_path dict_of_atom p (Group er) lr r a).
Qed.

(** X12: the order of the keys [create] returns.  At the path of a group
    of the schema the tree holds a dict; its keys are the sub-groups and the
    leaves of an eager kind, in the order of the schema, and after them the
    leaves of the lazy kind only, in the order of the schema. *)
Theorem create_key_order (schema : SchemaType) (g : gstate) (r : dict atom)
    (p : list string) (group : SchemaType) :
  tree_wf (Group schema) →
  (create invoke (construct schema g)).1 = Ok r →
  lookup_path (Group schema) p = Some (Group group) →
  ∃ R, lookup_path (Group r) p = Some (Group R) ∧
       dict_keys R =
         dict_keys (_extract_schema group EAGER_TYPES) ++
         filter (λ k, k ∉ dict_keys (_extract_schema group EAGER_TYPES))
           (dict_keys (_extract_schema group LAZY_TYPES)).
Proof.
  intros Hwf Hok Hp.
  destruct (create_Ok_passes schema g r Hwf Hok)
    as (er & lr & evs1 & evs2 & He & Hnew & Hres1 & Hres2 & Hm).
  destruct (class_pass_group _ schema EAGER_TYPES evs1 er p group Hwf Hp Hres1)
    as (_ & Re & HRe & Hkeys1).
  destruct (class_pass_group _ schema LAZY_TYPES evs2 lr p group Hwf Hp Hres2)
    as (Halong & Rl & HRl & Hkeys2).
  destruct (deep_merge_group_path dict_of_atom p (Group er) lr r Rl Halong Hm HRl) as [R HR].
  exists R. split; [done|].
  assert (NoDup (dict_keys Rl)) as Hnd.
  { rewrite Hkeys2.
    pose proof (tree_wf_lookup_path p _ _ Hwf Hp) as Hwfg.
    by apply (_extract_schema_wf group LAZY_TYPES) in Hwfg as [? _]%tree_wf_Group_inv. }
  rewrite (deep_merge_keys_order_at dict_of_atom dict_of_atom_empty p (Group er) lr r R
             Halong) by (try done; intros g' Hg'; congruence).
  assert (keys_at (Group er) p = dict_keys (_extract_schema group EAGER_TYPES)) as ->.
  { unfold keys_at. by rewrite HRe. }
  assert (keys_at (Group lr) p = dict_keys (_extract_schema group LAZY_TYPES)) as ->.
  { unfold keys_at. by rewrite HRl. }
  done.
Qed.

(** X13: nothing is called after a failure.  Of the invocations of a
    [create], every one but the last returned, so that a generator that
    raises is the last one called. *)
Theorem create_stops_at_failure (w : world gstate) (i : nat) (inv : invocation) :
  new_calls (create invoke) w !! i = Some inv →
  S i < length (new_calls (create invoke) w) →
  is_ok (inv_result inv) = true.
Proof.
  intros Hi Hlast.
  destruct (create_run invoke w) as (evs1 & _ & Htrace1 & Hrun).
  destruct (_evaluate_eager invoke _ w).1 as [er|e].
  - destruct Hrun as (evs2 & r2 & Htrace2 & _ & Hnew & _).
    rewrite Hnew in Hi, Hlast. rewrite length_app in Hlast.
    destruct (decide (i < length evs1)) as [Hlt|Hge].
    + rewrite lookup_app_l in Hi by done.
      apply (calls_trace_returned _ _ _ Htrace1 i inv Hi). by right.
    + rewrite lookup_app_r in Hi by lia.
      apply (calls_trace_returned _ _ _ Htrace2 _ inv Hi). left. lia.
  - destruct Hrun as (_ & Hnew & _). rewrite Hnew in Hi, Hlast.
    apply (calls_trace_returned _ _ _ Htrace1 i inv Hi). by left.
Qed.
End CreateResult.

Lemma create_eager_leaf_witness :
  ∃ eager_results v,
    (_evaluate_eager demo_invoke (_extract_schema demo_schema EAGER_TYPES)
       (construct demo_schema 0)).1 = Ok eager_results ∧
    MkInvocation field "full_name" [] (Ok v)
      ∈ new_calls (create demo_invoke) (construct demo_schema 0) ∧
    lookup_path (Group eager_results) ["owner"; "creator"] = Some v ∧
    lookup_path
      (Group [("pk", Leaf (AInt 1));
              ("owner", Group [("creator", Leaf (AStr "full_name"));
                               ("email", Leaf (AStr "full_name@mimesis.name"))])])
      ["owner"; "creator"] = Some v.
Proof.
  apply (create_eager_leaf demo_invoke demo_schema 0
           [("pk", Leaf (AInt 1));
            ("owner", Group [("creator", Leaf (AStr "full_name"));
                             ("email", Leaf (AStr "full_name@mimesis.name"))])]
           ["owner"; "creator"] (MkLeaf field "full_name" [])).
  - by apply tree_wfb_sound.
  - vm_compute. reflexivity.
  - vm_compute. reflexivity.
  - reflexivity.
  - reflexivity.
Defined.

Lemma create_lazy_leaf_witness :
  ∃ eager_results v,
    (_evaluate_eager demo_invoke (_extract_schema demo_schema EAGER_TYPES)
       (construct demo_schema 0)).1 = Ok eager_results ∧
    MkInvocation lazy_field "custom_email" [(EAGER_DATA, Group eager_results)] (Ok v)
      ∈ new_calls (create demo_invoke) (construct demo_schema 0) ∧
    (tree_wf v →
     lookup_path
       (Group [("pk", Leaf (AInt 1));
               ("owner", Group [("creator", Leaf (AStr "full_name"));
                                ("email", Leaf (AStr "full_name@mimesis.name"))])])
       ["owner"; "email"] = Some v).
Proof.
  apply (create_lazy_leaf demo_invoke demo_schema 0
           [("pk", Leaf (AInt 1));
            ("owner", Group [("creator", Leaf (AStr "full_name"));
                             ("email", Leaf (AStr "full_name@mimesis.name"))])]
           ["owner"; "email"] (MkLeaf lazy_field "custom_email" [])).
  - by apply tree_wfb_sound.
  - vm_compute. reflexivity.
  - vm_compute. reflexivity.
  - reflexivity.
  - reflexivity.
Defined.

Lemma create_drops_other_leaves_witness :
  lookup_path
    (Group [("pk", Leaf (AInt 1)); ("twice", Leaf (AInt 3)); ("later", Leaf (AStr "word"))])
    ["skipped"] = None.
Proof.
  apply (proj2 (create_drops_other_leaves demo_invoke kinds_schema 0
                  (tree_wfb_sound (Group kinds_schema) eq_refl))
           [("pk", Leaf (AInt 1)); ("twice", Leaf (AInt 3)); ("later", Leaf (AStr "word"))]
           ["skipped"] (MkLeaf plain_field "word" [])).
  - vm_compute. reflexivity.
  - vm_compute. reflexivity.
  - reflexivity.
  - reflexivity.
Defined.

Lemma create_hybrid_leaf_witness :
  ∃ eager_results v1 v2,
    MkInvocation hybrid_field "increment" [] (Ok v1)
      ∈ new_calls (create demo_invoke) (construct kinds_schema 0) ∧
    MkInvocation hybrid_field "increment" [(EAGER_DATA, Group eager_results)] (Ok v2)
      ∈ new_calls (create demo_invoke) (construct kinds_schema 0) ∧
    lookup_path (Group eager_results) ["twice"] = Some v1 ∧
    (is_dict v2 = false →
     lookup_path
       (Group [("pk", Leaf (AInt 1)); ("twice", Leaf (AInt 3)); ("later", Leaf (AStr "word"))])
       ["twice"] = Some v2).
Proof.
  apply (create_hybrid_leaf demo_invoke kinds_schema 0
           [("pk", Leaf (AInt 1)); ("twice", Leaf (AInt 3)); ("later", Leaf (AStr "word"))]
           ["twice"] (MkLeaf hybrid_field "increment" [])).
  - by apply tree_wfb_sound.
  - vm_compute. reflexivity.
  - vm_compute. reflexivity.
  - reflexivity.
  - reflexivity.
Defined.

Lemma create_key_order_witness :
  ∃ R, lookup_path
         (Group [("pk", Leaf (AInt 1));
                 ("owner", Group [("creator", Leaf (AStr "full_name"));
                                  ("email", Leaf (AStr "full_name@mimesis.name"))])])
         ["owner"] = Some (Group R) ∧
       dict_keys R =
         dict_keys (_extract_schema
                      [("email", Leaf (MkLeaf lazy_field "custom_email" []));
                       ("creator", Leaf (MkLeaf field "full_name" []))] EAGER_TYPES) ++
         filter (λ k, k ∉ dict_keys (_extract_schema
                                       [("email", Leaf (MkLeaf lazy_field "custom_email" []));
                                        ("creator", Leaf (MkLeaf field "full_name" []))]
                                       EAGER_TYPES))
           (dict_keys (_extract_schema
                         [("email", Leaf (MkLeaf lazy_field "custom_email" []));
                          ("creator", Leaf (MkLeaf field "full_name" []))] LAZY_TYPES)).
Proof.
  apply (create_key_order demo_invoke demo_schema 0
           [("pk", Leaf (AInt 1));
            ("owner", Group [("creator", Leaf (AStr "full_name"));
                             ("email", Leaf (AStr "full_name@mimesis.name"))])]
           ["owner"]
           [("email", Leaf (MkLeaf lazy_field "custom_email" []));
            ("creator", Leaf (MkLeaf field "full_name" []))]).
  - by apply tree_wfb_sound.
  - vm_compute. reflexivity.
  - vm_compute. reflexivity.
Defined.

Lemma create_stops_at_failure_witness :
  is_ok (inv_result (MkInvocation field "increment" [] (Ok (Leaf (AInt 1))))) = true.
Proof.
  apply (create_stops_at_failure demo_invoke
           (construct [("pk", Leaf (MkLeaf field "increment" []));
                       ("pick", Leaf (MkLeaf field "choice" []));
                       ("name", Leaf (MkLeaf field "word" []))] 0) 0
           (MkInvocation field "increment" [] (Ok (Leaf (AInt 1))))).
  - vm_compute. reflexivity.
  - vm_compute. lia.
Defined.

(** * The handler of the demo *)

Lemma subscript_path (x : pyval) k1 k2 v :
  obind (subscript x k1) (λ o, subscript o k2) = Ok v →
  lookup_path x [k1; k2] = Some v.
Proof.
  destruct x as [[| | |]|d]; [done..|]. cbn [subscript lookup_path].
  destruct (dict_get d k1) as [[[| | |]|d']|]; [done..| |done]. cbn [obind subscript].
  by destruct (dict_get d' k2) as [v'|]; [intros [= ->]|].
Qed.

Section HandlerFacts.
Context {gstate : Type}.
Variable choice : list string → gstate → outcome string * gstate.
Variable lower : string → string.

Lemma custom_email_handler_Ok random domains _eager_data _kwargs v :
  (custom_email_handler choice lower random domains _eager_data _kwargs).1 = Ok v →
  ∃ name domain random',
    lookup_path _eager_data ["owner"; "creator"] = Some (Leaf (AStr name)) ∧
    choice domains random = (Ok domain, random') ∧
    v = Leaf (AStr (lower (str_replace " "%char "."%char name) +:+ "@" +:+ domain)).
Proof.
  unfold custom_email_handler.
  destruct (obind (subscript _eager_data "owner") _) as [name|e] eqn:Hname; [|done].
  apply subscript_path in Hname.
  destruct name as [[| | |s]|d]; [done..| |done]. cbn [replace_receiver].
  destruct (choice domains random) as [[domain|e] random'] eqn:Hc; [|done].
  intros [= <-]. by exists s, domain, random'.
Qed.

(** X14: what the handler returns and when it fails.  A value it returns
    is the lower-cased creator name found at ["owner"]["creator"] of the eager
    data, its spaces turned into dots, then ["@"] and a domain drawn from
    [domains].  Eager data without the key ["owner"], or whose owner has no
    key ["creator"], is a [KeyError] for that key, raised before anything is
    drawn: the random state is left as it was, whatever [domains] holds. *)
Theorem custom_email_handler_contract (random : gstate) (domains : list string)
    (_eager_data : dict atom) (_kwargs : list (string * pyval)) :
  (∀ seq g x g', choice seq g = (Ok x, g') → x ∈ seq) →
  (∀ v, (custom_email_handler choice lower random domains (Group _eager_data) _kwargs).1
          = Ok v →
        ∃ name domain,
          lookup_path (Group _eager_data) ["owner"; "creator"] = Some (Leaf (AStr name)) ∧
          domain ∈ domains ∧
          v = Leaf (AStr (lower (str_replace " "%char "."%char name) +:+ "@" +:+ domain))) ∧
  (dict_get _eager_data "owner" = None →
   custom_email_handler choice lower random domains (Group _eager_data) _kwargs
     = (Raise (KeyError "owner"), random)) ∧
  (∀ owner, dict_get _eager_data "owner" = Some (Group owner) →
            dict_get owner "creator" = None →
            custom_email_handler choice lower random domains (Group _eager_data) _kwargs
              = (Raise (KeyError "creator"), random)).
Proof.
  intros Hchoice. split_and!.
  - intros v Hv.
    apply custom_email_handler_Ok in Hv as (name & domain & random' & Hname & Hc & ->).
    exists name, domain. split_and!; [done| |done]. by eapply Hchoice.
  - intros Ho. unfold custom_email_handler. cbn [subscript]. by rewrite Ho.
  - intros owner Ho Hc. unfold custom_email_handler. cbn [subscript]. rewrite Ho.
    cbn [obind subscript]. by rewrite Hc.
Qed.
End HandlerFacts.

Lemma first_choice_elem seq g x g' : first_choice seq g = (Ok x, g') → x ∈ seq.
Proof. destruct seq as [|y seq]; [done|]. intros [= -> _]. apply list_elem_of_here. Qed.

Lemma custom_email_handler_contract_witness :
  custom_email_handler first_choice lower_ascii 7 []
    (Group [("owner", Group [("name", Leaf (AStr "x"))])]) []
  = (Raise (KeyError "creator"), 7).
Proof.
  apply (proj2 (proj2 (custom_email_handler_contract first_choice lower_ascii 7 []
                         [("owner", Group [("name", Leaf (AStr "x"))])] []
                         first_choice_elem))
           [("name", Leaf (AStr "x"))]).
  - reflexivity.
  - reflexivity.
Defined.

Example custom_email_handler_demo :
  custom_email_handler first_choice lower_ascii 7 ["mimesis.name"]
    (Group [("owner", Group [("creator", Leaf (AStr "Ada Lovelace"))])]) []
  = (Ok (Leaf (AStr "ada.lovelace@mimesis.name")), 7).
Proof. vm_compute. reflexivity. Qed.

(** ** The handler in a run of [create] *)

Section LogSound.
Context {gstate : Type}.
Variable invoke :
  holder → string → list (string * pyval) → gstate → outcome pyval * gstate.

Lemma run_calls_sound cs (w : world gstate) :
  ∃ evs, log (run_calls invoke cs w).2 = log w ++ evs ∧ Forall (log_sound invoke) evs.
Proof.
  revert w. induction cs as [|c cs IH]; intros w.
  - exists []. simpl. by rewrite app_nil_r.
  - cbn [run_calls]. rewrite mbind_eq. unfold do_call, call_field.
    destruct (bind_keywords (cs_explicit c) (cs_kwargs c)) as [kws|e].
    + destruct (invoke (cs_field c) (cs_handler c) kws (gen w)) as [r g] eqn:Hinv.
      assert (log_sound invoke (MkInvocation (cs_field c) (cs_handler c) kws r)) as Hsound.
      { exists (gen w). simpl. by rewrite Hinv. }
      destruct r as [v|e].
      * match goal with
        | |- context [run_calls invoke cs ?w1] => destruct (IH w1) as (evs & Hlog & Hall)
        end.
        eexists. rewrite Hlog. simpl. rewrite <- app_assoc. split; [done|].
        simpl. by constructor.
      * eexists. simpl. split; [done|]. by constructor.
    + exists []. simpl. by rewrite app_nil_r.
Qed.

Lemma create_log_sound (w : world gstate) inv :
  inv ∈ new_calls (create invoke) w → log_sound invoke inv.
Proof.
  set (es := eager_schema (this w)). set (ls := lazy_schema (this w)).
  pose proof (create_two_pass invoke w w eq_refl) as Hcreate. fold es ls in Hcreate.
  unfold two_pass in Hcreate. rewrite mbind_eq in Hcreate.
  pose proof (eager_pass_flat invoke (Group es) es w eq_refl) as Hflat1.
  destruct (run_calls_sound (eager_call <$> leaves (Group es)) w) as (evs1 & Hlog1 & Hall1).
  rewrite <- Hflat1 in Hlog1. unfold void in Hlog1. simpl in Hlog1.
  destruct (_evaluate_eager invoke es w) as [[er|e] w1]; simpl in Hlog1.
  - rewrite mbind_eq in Hcreate.
    pose proof (lazy_pass_flat invoke (Group ls) ls er w1 eq_refl) as Hflat2.
    destruct (run_calls_sound (lazy_call er <$> leaves (Group ls)) w1)
      as (evs2 & Hlog2 & Hall2).
    rewrite <- Hflat2 in Hlog2. unfold void in Hlog2. simpl in Hlog2.
    assert (new_calls (create invoke) w = evs1 ++ evs2) as ->.
    { apply new_calls_log. rewrite Hcreate.
      destruct (_evaluate_lazy invoke ls er w1) as [[lr|e] w2]; simpl in *;
        by rewrite Hlog2, Hlog1, <- app_assoc. }
    intros [Hin|Hin]%elem_of_app; [by apply (proj1 (Forall_forall _ _) Hall1)|
                                   by apply (proj1 (Forall_forall _ _) Hall2)].
  - assert (new_calls (create invoke) w = evs1) as ->.
    { apply new_calls_log. by rewrite Hcreate. }
    intros Hin. by apply (proj1 (Forall_forall _ _) Hall1).
Qed.
End LogSound.

Section CreateHandler.
Context {gstate : Type}.
Variable invoke :
  holder → string → list (string * pyval) → gstate → outcome pyval * gstate.
Variable choice : list string → gstate → outcome string * gstate.
Variable lower : string → string.

(** X15: the demo, end to end.  Let the lazy holder run
    [custom_email_handler] for ["custom_email"]: a value it returns for that
    handler is a value the handler returns on the eager data bound to
    [_eager_data], for some sequence of domains.  In a schema with an eager
    leaf at ["owner"]["creator"] and that lazy leaf at ["owner"]["email"], a
    tree that [create] returns holds a creator name and the email address
    made from that very name. *)
Theorem create_custom_email (schema : SchemaType) (g : gstate) (r : dict atom)
    (creator : leaf) (kwargs : list (string * pyval)) :
  (∀ kws random v,
     (invoke lazy_field "custom_email" kws random).1 = Ok v →
     ∃ domains _eager_data,
       dict_get kws EAGER_DATA = Some _eager_data ∧
       (custom_email_handler choice lower random domains _eager_data kws).1 = Ok v) →
  tree_wf (Group schema) →
  (create invoke (construct schema g)).1 = Ok r →
  lookup_path (Group schema) ["owner"; "creator"] = Some (Leaf creator) →
  isinstance (leaf_field creator) EAGER_TYPES = true →
  isinstance (leaf_field creator) LAZY_TYPES = false →
  lookup_path (Group schema) ["owner"; "email"]
    = Some (Leaf (MkLeaf lazy_field "custom_email" kwargs)) →
  ∃ name domain,
    lookup_path (Group r) ["owner"; "creator"] = Some (Leaf (AStr name)) ∧
    lookup_path (Group r) ["owner"; "email"] =
      Some (Leaf (AStr (lower (str_replace " "%char "."%char name) +:+ "@" +:+ domain))).
Proof.
  intros Hdispatch Hwf Hok Hcreator Heager Hlazy Hemail.
  destruct (create_Ok_passes invoke schema g r Hwf Hok)
    as (er & lr & evs1 & evs2 & He & Hnew & Hres1 & Hres2 & Hm).
  (* the creator, in the eager results and in the tree *)
  destruct (class_pass_leaf _ schema EAGER_TYPES evs1 er _ _ Hwf Hcreator Hres1)
    as (_ & _ & Hv1).
  destruct (class_pass_leaf _ schema LAZY_TYPES evs2 lr _ _ Hwf Hcreator Hres2)
    as (Halong1 & Hpre1 & Hnone1).
  rewrite Heager in Hv1. rewrite Hlazy in Hnone1.
  destruct Hv1 as (v1 & _ & Hv1 & _ & _).
  assert (lookup_path (Group r) ["owner"; "creator"] = Some v1) as Hr1.
  { transitivity (lookup_path (Group er) ["owner"; "creator"]); [|exact Hv1].
    apply (deep_merge_base_path dict_of_atom dict_of_atom_empty _ (Group er) lr r);
      [done..|].
    intros q a Hq Ha. destruct (decide (q = ["owner"; "creator"])) as [->|Hne]; [congruence|].
    by apply (Hpre1 q a). }
  (* the email, in the lazy results and in the tree *)
  destruct (class_pass_leaf _ schema EAGER_TYPES evs1 er _ _ Hwf Hemail Hres1)
    as (_ & _ & Hnone2).
  destruct (class_pass_leaf _ schema LAZY_TYPES evs2 lr _ _ Hwf Hemail Hres2)
    as (Halong2 & _ & Hv2).
  change (isinstance (leaf_field _) EAGER_TYPES) with false in Hnone2.
  change (isinstance (leaf_field _) LAZY_TYPES) with true in Hv2.
  cbv beta iota in Hnone2, Hv2.
  destruct Hv2 as (v2 & kws & Hv2 & Hb & Hin). simpl in Hb, Hin.
  pose proof (bind_keywords_Ok _ _ _ Hb) as ->.
  assert (log_sound invoke
            (MkInvocation lazy_field "custom_email" ([(EAGER_DATA, Group er)] ++ kwargs) (Ok v2)))
    as [g' Hg'].
  { apply (create_log_sound invoke (construct schema g)). rewrite Hnew.
    apply elem_of_app. by right. }
  simpl in Hg'.
  destruct (Hdispatch _ _ _ Hg') as (domains & ed & Hed & Hhandler).
  cbn [dict_get] in Hed. rewrite decide_True in Hed by done. injection Hed as <-.
  apply custom_email_handler_Ok in Hhandler as (name & domain & random' & Hname & _ & ->).
  exists name, domain. split.
  - rewrite Hr1. f_equal. congruence.
  - apply (deep_merge_overlay_only_path dict_of_atom dict_of_atom_empty _ (Group er) lr r);
      [done..|constructor].
Qed.
End CreateHandler.

Lemma handler_invoke_dispatch kws random v :
  (handler_invoke lazy_field "custom_email" kws random).1 = Ok v →
  ∃ domains _eager_data,
    dict_get kws EAGER_DATA = Some _eager_data ∧
    (custom_email_handler first_choice lower_ascii random domains _eager_data kws).1 = Ok v.
Proof.
  unfold handler_invoke. rewrite decide_True by done.
  destruct (dict_get kws "domains") as [d|], (dict_get kws EAGER_DATA) as [ed|]; [| |done..].
  - assert (∀ err : exn,
              (custom_email_handler (λ (_ : list string) (n : nat), (Raise err, n))
                 lower_ascii random [] ed kws).1 ≠ Ok v) as Hraise.
    { intros err Hv.
      by apply custom_email_handler_Ok in Hv as (? & ? & ? & _ & ? & _). }
    destruct d as [[| | |s]|items]; intros Hv; try by destruct (Hraise _ Hv).
    by exists (str_elements s), ed.
  - by destruct d as [[| | |s]|items].
Qed.

Lemma create_custom_email_witness :
  ∃ name domain,
    lookup_path
      (Group [("pk", Leaf (AInt 1));
              ("owner", Group [("creator", Leaf (AStr "Ada Lovelace"));
                               ("email", Leaf (AStr "ada.lovelace@m"))])])
      ["owner"; "creator"] = Some (Leaf (AStr name)) ∧
    lookup_path
      (Group [("pk", Leaf (AInt 1));
              ("owner", Group [("creator", Leaf (AStr "Ada Lovelace"));
                               ("email", Leaf (AStr "ada.lovelace@m"))])])
      ["owner"; "email"] =
      Some (Leaf (AStr (lower_ascii (str_replace " "%char "."%char name) +:+ "@" +:+ domain))).
Proof.
  apply (create_custom_email handler_invoke first_choice lower_ascii email_schema 0
           [("pk", Leaf (AInt 1));
            ("owner", Group [("creator", Leaf (AStr "Ada Lovelace"));
                             ("email", Leaf (AStr "ada.lovelace@m"))])]
           (MkLeaf field "full_name" []) [("domains", Leaf (AStr "mimesis.name"))]).
  - apply handler_invoke_dispatch.
  - by apply tree_wfb_sound.
  - vm_compute. reflexivity.
  - vm_compute. reflexivity.
  - reflexivity.
  - reflexivity.
  - vm_compute. reflexivity.
Defined.

(** Without the static argument [domains] the handler is not run. *)
Example create_custom_email_missing_domains :
  (create handler_invoke (construct demo_schema 0)).1 =
    Raise (TypeError ("custom_email_handler() missing 1 required keyword-only "
                      +:+ "argument: 'domains'")).
Proof. vm_compute. reflexivity. Qed.

(** * Further properties of the classifier on the store *)

Lemma h_extract_loop_app fuel e T (pre suf : list (string * addr)) :
  ∀ h : heap,
    h_extract_loop fuel e T (pre ++ suf) h =
      match h_extract_loop fuel e T pre h with
      | Some (Ok _, h') => h_extract_loop fuel e T suf h'
      | other => other
      end.
Proof.
  induction pre as [|[k node] pre IH]; intros h; [done|].
  cbn [app h_extract_loop].
  destruct (h !! node) as [[items|l|a]|]; [| | |done].
  - destruct (h_extract_schema fuel node T h) as [[[sub|e'] h']|]; [apply IH|done..].
  - destruct (isinstance _ _); apply IH.
  - destruct (subscript0_isinstance a) as [[|]|e']; [apply IH..|done].
Qed.

(** X16: an entry that is neither a dict nor a tuple.  When the dict of
    the schema holds, after entries that are well-formed schema nodes, an
    entry whose value cannot be subscripted (an integer, [None], a boolean) or
    has no first element (the empty string), the classifier raises at that
    entry, and no object that existed before the call has changed. *)
Theorem extract_schema_store_malformed (h : heap) (schema : addr)
    (apre apost : list (string * addr)) (pre : dict (addr * leaf))
    (k : string) (a : addr) (x : atom) (e : exn) (T : list pyclass) (fuel : nat) :
  h !! schema = Some (ODict (apre ++ (k, a) :: apost)) →
  Forall2 (λ x y, x.1 = y.1 ∧ located (λ _, True) h x.2 y.2) apre pre →
  tree_wf (Group pre) →
  depth (Group pre) ≤ S fuel →
  h !! a = Some (OValue x) →
  subscript0_isinstance x = Raise e →
  ∃ h', h_extract_schema (S fuel) schema T h = Some (Raise e, h') ∧
        (∀ a o, h !! a = Some o → h' !! a = Some o).
Proof.
  intros Hschema Hpre Hwf Hdepth Ha Hx.
  rewrite h_extract_schema_S, Hschema, h_extract_loop_app.
  apply tree_wf_Group_inv in Hwf as [Hnd Hwf].
  destruct (h_extract_loop_ok T fuel (length h) pre apre [] [] (h ++ [ODict []]))
    as (h1 & eitems & Hloop & (Hold & _ & _) & _ & _); try done.
  - apply Forall_forall. intros kv _. apply extract_ok_all.
  - by apply depth_children.
  - eapply Forall2_impl; [exact Hpre|].
    intros y z [? Hy]. split; [done|].
    eapply located_transport; [| |exact Hy].
    + intros a0 items0 Ha0 _. split; [by eapply lookup_lt_Some|by apply lookup_app_l_Some].
    + intros a0 l Ha0. by apply lookup_app_l_Some.
  - rewrite length_app. simpl. lia.
  - by rewrite list_lookup_middle.
  - rewrite Hloop. cbn [h_extract_loop].
    assert (∀ a0 o, h !! a0 = Some o → h1 !! a0 = Some o) as Hkept.
    { intros a0 o Ha0. apply Hold; [apply lookup_lt_Some in Ha0; lia|].
      by apply lookup_app_l_Some. }
    rewrite (Hkept _ _ Ha), Hx. by exists h1.
Qed.

Lemma extract_schema_store_malformed_witness :
  ∃ h', h_extract_schema 1 2 EAGER_TYPES
          [OTuple (MkLeaf field "increment" []); OValue (AInt 5);
           ODict [("pk", 0); ("size", 1)]]
        = Some (Raise (TypeError "'int' object is not subscriptable"), h') ∧
        (∀ a o, [OTuple (MkLeaf field "increment" []); OValue (AInt 5);
                 ODict [("pk", 0); ("size", 1)]] !! a = Some o → h' !! a = Some o).
Proof.
  apply (extract_schema_store_malformed
           [OTuple (MkLeaf field "increment" []); OValue (AInt 5);
            ODict [("pk", 0); ("size", 1)]]
           2 [("pk", 0)] [] [("pk", Leaf (0, MkLeaf field "increment" []))]
           "size" 1 (AInt 5) (TypeError "'int' object is not subscriptable") EAGER_TYPES 0).
  - reflexivity.
  - constructor; [|constructor]. split; [reflexivity|]. by constructor.
  - by apply tree_wfb_sound.
  - vm_compute. lia.
  - reflexivity.
  - reflexivity.
Defined.

Lemma h_extract_loop_tuples fuel e T (items : list (string * addr)) :
  ∀ h0 : heap,
    Forall (λ kv, ∃ l, h0 !! kv.2 = Some (OTuple l)) items →
    (∃ d, h0 !! e = Some (ODict d)) →
    ∃ h1, h_extract_loop fuel e T items h0 = Some (Ok e, h1) ∧
          (∀ a, a ≠ e → h1 !! a = h0 !! a) ∧
          (∃ d, h1 !! e = Some (ODict d)).
Proof.
  induction items as [|[k node] items IH]; intros h0 Hall He.
  - exists h0. by split_and!.
  - apply Forall_cons in Hall as [[l Hl] Hall]. simpl in Hl.
    cbn [h_extract_loop]. rewrite Hl.
    destruct He as [d Hd].
    assert (node ≠ e) as Hne by (intros ->; congruence).
    destruct (isinstance (leaf_field l) T).
    + unfold store_item. rewrite Hd.
      destruct (IH (<[e := ODict (dict_set d k node)]> h0)) as (h1 & Hloop & Hsame & He1).
      * eapply Forall_impl; [exact Hall|]. intros kv [l' Hl'].
        exists l'. rewrite list_lookup_insert_ne; [done|].
        intros Heq. rewrite <- Heq in Hl'. congruence.
      * eexists. apply list_lookup_insert_eq. by eapply lookup_lt_Some.
      * exists h1. split_and!; [done| |done].
        intros a0 Ha0. rewrite Hsame by done. by rewrite list_lookup_insert_ne.
    + apply IH; [done|by exists d].
Qed.

(** X17: a schema that contains itself.  When the dict of the schema
    holds itself as a value, after entries that are leaves, the classifier
    never returns: whatever the bound on the depth of the call stack, the call
    exhausts it. *)
Theorem extract_schema_store_cycle (fuel : nat) :
  ∀ (h : heap) (schema : addr) (apre apost : list (string * addr)) (k : string)
    (T : list pyclass),
    h !! schema = Some (ODict (apre ++ (k, schema) :: apost)) →
    Forall (λ kv, ∃ l, h !! kv.2 = Some (OTuple l)) apre →
    h_extract_schema fuel schema T h = None.
Proof.
  induction fuel as [|fuel IH]; intros h schema apre apost k T Hschema Hpre; [done|].
  rewrite h_extract_schema_S, Hschema, h_extract_loop_app.
  destruct (h_extract_loop_tuples fuel (length h) T apre (h ++ [ODict []]))
    as (h1 & Hloop & Hsame & _).
  - eapply Forall_impl; [exact Hpre|]. intros kv [l Hl]. exists l. by apply lookup_app_l_Some.
  - exists []. by rewrite list_lookup_middle.
  - rewrite Hloop. cbn [h_extract_loop].
    assert (∀ a o, h !! a = Some o → h1 !! a = Some o) as Hkept.
    { intros a o Ha. rewrite Hsame by (apply lookup_lt_Some in Ha; lia).
      by apply lookup_app_l_Some. }
    rewrite (Hkept _ _ Hschema).
    rewrite (IH h1 schema apre apost k T); [done|by apply Hkept|].
    eapply Forall_impl; [exact Hpre|]. intros kv [l Hl]. exists l. by apply Hkept.
Qed.

Lemma extract_schema_store_cycle_witness :
  h_extract_schema 50 1 EAGER_TYPES
    [OTuple (MkLeaf field "increment" []); ODict [("pk", 0); ("self", 1)]] = None.
Proof.
  apply (extract_schema_store_cycle 50
           [OTuple (MkLeaf field "increment" []); ODict [("pk", 0); ("self", 1)]]
           1 [("pk", 0)] [] "self" EAGER_TYPES).
  - reflexivity.
  - constructor; [|constructor]. by exists (MkLeaf field "increment" []).
Defined.

(** * The merge on the store *)

Lemma h_deep_merge_S fuel d1 d2 (h : heap) :
  h_deep_merge (S fuel) d1 d2 h =
    match h_dict h d1 with
    | None => None
    | Some (Raise e, h0) => Some (Raise e, h0)
    | Some (Ok result, h0) =>
        match h0 !! d2 with
        | None => None
        | Some (ODict items) => h_merge_loop fuel result items h0
        | Some _ => Some (Raise (AttributeError "items"), h0)
        end
    end.
Proof.
  cbn [h_deep_merge].
  destruct (h_dict h d1) as [[[result|e] h0]|]; [|done..].
  destruct (h0 !! d2) as [[items|l|a]|]; [|done..].
  match goal with
  | |- ?F items h0 = _ =>
      enough (∀ h1, F items h1 = h_merge_loop fuel result items h1) by done
  end.
  induction items as [|[k value] rest IH]; intros h1; [done|].
  cbn [h_merge_loop alloc].
  destruct (h1 !! value) as [[sub|l|a]|]; [|apply IH..|done].
  destruct (h_deep_merge fuel _ value _) as [[[r|e] h2]|]; [apply IH|done..].
Qed.

Global Arguments h_deep_merge : simpl never.

Lemma h_dict_frame (h : heap) x r h' :
  h_dict h x = Some (r, h') →
  length h ≤ length h' ∧ ∀ a, a < length h → h' !! a = h !! a.
Proof.
  unfold h_dict. destruct (h !! x) as [[items|l|a]|]; [| | |done].
  - intros [= <- <-]. rewrite length_app. split; [lia|].
    intros a Ha. by rewrite lookup_app_l.
  - by intros [= <- <-].
  - destruct (dict_of_atom a); intros [= <- <-]; [|done].
    rewrite length_app. split; [lia|]. intros b Hb. by rewrite lookup_app_l.
Qed.

Lemma store_item_frame (h : heap) d key v :
  length (store_item h d key v) = length h ∧
  ∀ a, a ≠ d → store_item h d key v !! a = h !! a.
Proof.
  unfold store_item. destruct (h !! d) as [[items|l|a]|]; [|done..].
  rewrite length_insert. split; [done|]. intros a Ha. by rewrite list_lookup_insert_ne.
Qed.

Lemma h_deep_merge_frame_aux (fuel : nat) :
  ∀ d1 d2 (h : heap) r h',
    h_deep_merge fuel d1 d2 h = Some (r, h') →
    length h ≤ length h' ∧ ∀ a, a < length h → h' !! a = h !! a.
Proof.
  induction fuel as [|fuel IH]; intros d1 d2 h r h' Hrun; [done|].
  rewrite h_deep_merge_S in Hrun.
  destruct (h_dict h d1) as [[[result|e] h0]|] eqn:Hdict; [| |done].
  - assert (result = length h ∧ length h < length h0) as [-> Hlt].
    { unfold h_dict in Hdict. destruct (h !! d1) as [[items|l|a]|]; [| | |done].
      - injection Hdict as <- <-. rewrite length_app. simpl. split; [done|lia].
      - done.
      - destruct (dict_of_atom a); [|done]. injection Hdict as <- <-.
        rewrite length_app. simpl. split; [done|lia]. }
    apply h_dict_frame in Hdict as [_ Hsame0].
    destruct (h0 !! d2) as [[items|l|a]|]; [| | |done].
    + enough (∀ hc, length h < length hc → (∀ a, a < length h → hc !! a = h !! a) →
                h_merge_loop fuel (length h) items hc = Some (r, h') →
                length h ≤ length h' ∧ ∀ a, a < length h → h' !! a = h !! a) as Hloop
        by by apply (Hloop h0).
      clear Hrun Hsame0 Hlt h0.
      induction items as [|[k value] rest IHrest]; intros hc Hlt Hsame Hloop.
      * injection Hloop as <- <-. split; [lia|done].
      * cbn [h_merge_loop] in Hloop.
        assert (∀ h2 x, length hc ≤ length h2 → (∀ a, a < length hc → h2 !! a = hc !! a) →
                  h_merge_loop fuel (length h) rest (store_item h2 (length h) k x)
                    = Some (r, h') →
                  length h ≤ length h' ∧ ∀ a, a < length h → h' !! a = h !! a) as Hnext.
        { intros h2 x Hlen2 Hsame2.
          destruct (store_item_frame h2 (length h) k x) as [Hlen Hst].
          apply IHrest; [lia|].
          intros a Ha. rewrite Hst by lia. rewrite Hsame2 by lia. by apply Hsame. }
        destruct (hc !! value) as [[sub|l|a]|]; [| | |done].
        -- destruct (h_deep_merge fuel _ value _) as [[[s|e] h2]|] eqn:Hsub; [| |done].
           ++ apply IH in Hsub as [Hlen2 Hsame2]. rewrite length_app in Hlen2, Hsame2.
              apply (Hnext h2 s); [simpl in *; lia| |done].
              intros a Ha. rewrite Hsame2 by lia. by rewrite lookup_app_l.
           ++ injection Hloop as <- <-.
              apply IH in Hsub as [Hlen2 Hsame2]. rewrite length_app in Hlen2, Hsame2.
              split; [simpl in *; lia|].
              intros a Ha. rewrite Hsame2 by lia. rewrite lookup_app_l by lia. by apply Hsame.
        -- by apply (Hnext hc value).
        -- by apply (Hnext hc value).
    + injection Hrun as <- <-. split; [lia|done].
    + injection Hrun as <- <-. split; [lia|done].
  - injection Hrun as <- <-. by apply h_dict_frame in Hdict.
Qed.

(** X18: the merge writes to no object that exists.  Whatever the two
    arguments are and whatever the outcome, a dict or an exception, every
    object of the store is after the call what it was before: the arguments
    and what they hold are not modified, all writes go to dicts made by the
    call. *)
Theorem h_deep_merge_frame (fuel : nat) (d1 d2 : addr) (h : heap)
    (r : outcome addr) (h' : heap) :
  h_deep_merge fuel d1 d2 h = Some (r, h') →
  ∀ a o, h !! a = Some o → h' !! a = Some o.
Proof.
  intros Hrun a o Ha.
  destruct (h_deep_merge_frame_aux fuel d1 d2 h r h' Hrun) as [_ Hsame].
  rewrite Hsame; [done|]. by eapply lookup_lt_Some.
Qed.

Lemma h_deep_merge_frame_witness :
  [ODict [("a", 1)]; OValue (AInt 1); ODict [("a", 0)]; ODict [("a", 1)]; ODict []] !! 0
    = Some (ODict [("a", 1)]).
Proof.
  refine (h_deep_merge_frame 2 0 2
            [ODict [("a", 1)]; OValue (AInt 1); ODict [("a", 0)]]
            (Raise (TypeError "'int' object is not iterable"))
            [ODict [("a", 1)]; OValue (AInt 1); ODict [("a", 0)]; ODict [("a", 1)]; ODict []]
            _ 0 (ODict [("a", 1)]) _).
  - vm_compute. reflexivity.
  - reflexivity.
Defined.

Lemma h_extract_schema_frame_aux (fuel : nat) :
  ∀ schema T (h : heap) r h',
    h_extract_schema fuel schema T h = Some (r, h') →
    length h ≤ length h' ∧ ∀ a, a < length h → h' !! a = h !! a.
Proof.
  induction fuel as [|fuel IH]; intros schema T h r h' Hrun; [done|].
  rewrite h_extract_schema_S in Hrun.
  assert (length h ≤ length (h ++ [ODict []]) ∧
          ∀ a, a < length h → (h ++ [ODict []]) !! a = h !! a) as [Hlen0 Hsame0].
  { rewrite length_app. split; [lia|]. intros a Ha. by rewrite lookup_app_l. }
  destruct (h !! schema) as [[items|l|x]|]; [| | |done].
  - enough (∀ hc, length h < length hc → (∀ a, a < length h → hc !! a = h !! a) →
              h_extract_loop fuel (length h) T items hc = Some (r, h') →
              length h ≤ length h' ∧ ∀ a, a < length h → h' !! a = h !! a) as Hloop.
    { apply (Hloop (h ++ [ODict []])); [rewrite length_app; simpl; lia|done..]. }
    clear Hrun. induction items as [|[k node] rest IHrest]; intros hc Hlt Hsame Hloop.
    + injection Hloop as <- <-. split; [lia|done].
    + cbn [h_extract_loop] in Hloop.
      assert (∀ h2 x, length hc ≤ length h2 → (∀ a, a < length hc → h2 !! a = hc !! a) →
                h_extract_loop fuel (length h) T rest (store_item h2 (length h) k x)
                  = Some (r, h') →
                length h ≤ length h' ∧ ∀ a, a < length h → h' !! a = h !! a) as Hnext.
      { intros h2 x Hlen2 Hsame2.
        destruct (store_item_frame h2 (length h) k x) as [Hlen Hst].
        apply IHrest; [lia|].
        intros a Ha. rewrite Hst by lia. rewrite Hsame2 by lia. by apply Hsame. }
      destruct (hc !! node) as [[sub|l|x]|]; [| | |done].
      * destruct (h_extract_schema fuel node T hc) as [[[s|e] h2]|] eqn:Hsub; [| |done].
        -- apply IH in Hsub as [Hlen2 Hsame2]. by apply (Hnext h2 s).
        -- injection Hloop as <- <-. apply IH in Hsub as [Hlen2 Hsame2].
           split; [lia|]. intros a Ha. rewrite Hsame2 by lia. by apply Hsame.
      * destruct (isinstance _ _); [by apply (Hnext hc node)|by apply (IHrest hc)].
      * destruct (subscript0_isinstance x) as [[|]|e];
          [by apply (Hnext hc node)|by apply (IHrest hc)|].
        injection Hloop as <- <-. split; [lia|done].
  - by injection Hrun as <- <-.
  - by injection Hrun as <- <-.
Qed.

(** X19: the classifier writes to no object that exists.  Whatever the
    store holds at the address it is given, and whatever the outcome, a dict
    or an exception, every object of the store is after the call what it was
    before. *)
Theorem h_extract_schema_frame (fuel : nat) (schema : addr) (T : list pyclass) (h : heap)
    (r : outcome addr) (h' : heap) :
  h_extract_schema fuel schema T h = Some (r, h') →
  ∀ a o, h !! a = Some o → h' !! a = Some o.
Proof.
  intros Hrun a o Ha.
  destruct (h_extract_schema_frame_aux fuel schema T h r h' Hrun) as [_ Hsame].
  rewrite Hsame; [done|]. by eapply lookup_lt_Some.
Qed.

Lemma h_extract_schema_frame_witness :
  [OValue (ABool true); ODict [("flag", 0)]; ODict []] !! 1 = Some (ODict [("flag", 0)]).
Proof.
  refine (h_extract_schema_frame 1 1 EAGER_TYPES
            [OValue (ABool true); ODict [("flag", 0)]]
            (Raise (TypeError "'bool' object is not subscriptable"))
            [OValue (ABool true); ODict [("flag", 0)]; ODict []]
            _ 1 (ODict [("flag", 0)]) _).
  - vm_compute. reflexivity.
  - reflexivity.
Defined.

(** ** The dict the merge returns *)

Section Held.
Context {G G' : addr → Prop} {h h' : heap}.

(** A held tree stays held in a store that agrees on its dicts and values. *)
Lemma held_transport a t :
  (∀ a items, h !! a = Some (ODict items) → G a → G' a ∧ h' !! a = Some (ODict items)) →
  (∀ a x, h !! a = Some (OValue x) → h' !! a = Some (OValue x)) →
  held G h a t → held G' h' a t.
Proof.
  intros Hdict Hvalue. revert a.
  induction t as [x|items IH] using tree_ind; intros a Hheld.
  - inversion Hheld as [a' x' Hx|]; subst. constructor. by apply Hvalue.
  - inversion Hheld as [|a' aitems items' Ha HG Hitems]; subst.
    destruct (Hdict _ _ Ha HG) as [HG' Ha'].
    econstructor; [done..|]. by eapply Forall2_items_impl.
Qed.
End Held.

Lemma Forall2_dict_get {X Y} (Q : X → Y → Prop) (xs : list (string * X))
    (ys : list (string * Y)) k :
  Forall2 (λ x y, x.1 = y.1 ∧ Q x.2 y.2) xs ys →
  match dict_get xs k, dict_get ys k with
  | Some x, Some y => Q x y
  | None, None => True
  | _, _ => False
  end.
Proof.
  induction 1 as [|[k1 x] [k2 y] xs ys [Hk HQ] _ IH]; [done|].
  simpl in Hk, HQ. subst k2. cbn [dict_get]. by destruct (decide (k1 = k)).
Qed.

Lemma Forall2_dict_set {X Y} (Q : X → Y → Prop) (xs : list (string * X))
    (ys : list (string * Y)) k x y :
  Forall2 (λ x y, x.1 = y.1 ∧ Q x.2 y.2) xs ys →
  Q x y →
  Forall2 (λ x y, x.1 = y.1 ∧ Q x.2 y.2) (dict_set xs k x) (dict_set ys k y).
Proof.
  intros Hall HQ. induction Hall as [|[k1 x1] [k2 y1] xs ys [Hk HQ1] Hall IH].
  - by constructor.
  - simpl in Hk, HQ1. subst k2. cbn [dict_set].
    destruct (decide (k1 = k)); by constructor.
Qed.

Lemma h_merge_loop_ok (G : addr → Prop) (fuel : nat) (e : addr) :
  ∀ (rest : dict atom) (arest : list (string * addr)) (acc : dict atom)
    (eitems : list (string * addr)) (hc : heap) (r : dict atom),
    Forall (λ kv, merge_ok kv.2) rest →
    Forall (λ kv, depth kv.2 ≤ fuel) rest →
    Forall2 (λ x y, x.1 = y.1 ∧ held G hc x.2 y.2) arest rest →
    (∀ a, G a → a < e) →
    e < length hc →
    hc !! e = Some (ODict eitems) →
    Forall2 (λ x y, x.1 = y.1 ∧ held (λ a, G a ∨ e < a) hc x.2 y.2) eitems acc →
    merge_loop dict_of_atom rest acc = Ok r →
    ∃ h' eitems',
      h_merge_loop fuel e arest hc = Some (Ok e, h') ∧
      h' !! e = Some (ODict eitems') ∧
      Forall2 (λ x y, x.1 = y.1 ∧ held (λ a, G a ∨ e < a) h' x.2 y.2) eitems' r ∧
      (∀ k, k ∉ dict_keys rest → dict_get eitems' k = dict_get eitems k).
Proof.
  induction rest as [|[k v] rest IH];
    intros arest acc eitems hc r Hok Hdepth Hin HG He Hstore Hacc Hloop.
  - apply Forall2_nil_inv_r in Hin as ->. injection Hloop as <-.
    exists hc, eitems. by split_and!.
  - apply Forall2_cons_inv_r in Hin as ([k' na] & arest' & [Hk Hv] & Hin & ->).
    simpl in Hk, Hv. subst k'.
    apply Forall_cons in Hok as [Hokv Hok].
    apply Forall_cons in Hdepth as [Hdv Hdepth].
    assert (∀ k0 x, k0 ∉ dict_keys ((k, v) :: rest) →
              dict_get (dict_set eitems k x) k0 = dict_get eitems k0) as Hother.
    { intros k0 x Hk0. apply dict_get_set_ne. intros ->. apply Hk0, list_elem_of_here. }
    assert (∀ k0, k0 ∉ dict_keys ((k, v) :: rest) → k0 ∉ dict_keys rest) as Hrest.
    { intros k0 Hk0 ?. apply Hk0. by apply list_elem_of_further. }
    cbn [h_merge_loop merge_loop] in Hloop |- *.
    destruct v as [x|g]; cbn [is_dict] in Hloop.
    + inversion Hv as [a' x' Hna|]; subst. rewrite Hna.
      assert (na ≠ e) as Hne by (intros ->; congruence).
      unfold store_item. rewrite Hstore.
      set (h3 := <[e := ODict (dict_set eitems k na)]> hc).
      assert (∀ a o, a ≠ e → hc !! a = Some o → h3 !! a = Some o) as Hkeep.
      { intros a o Ha Hlook. unfold h3. by rewrite list_lookup_insert_ne. }
      destruct (IH arest' (dict_set acc k (Leaf x)) (dict_set eitems k na) h3 r)
        as (h' & eitems' & Hrun & Hstore' & Hout & Halias); try done.
      * eapply Forall2_impl; [exact Hin|]. intros y z [? Hy]. split; [done|].
        eapply held_transport; [| |exact Hy].
        -- intros a items Ha HGa. split; [done|]. apply Hkeep; [|done].
           apply HG in HGa. lia.
        -- intros a x0 Ha. apply Hkeep; [|done]. intros ->. congruence.
      * unfold h3. by rewrite length_insert.
      * unfold h3. by apply list_lookup_insert_eq.
      * apply Forall2_dict_set.
        -- eapply Forall2_impl; [exact Hacc|]. intros y z [? Hy]. split; [done|].
           eapply held_transport; [| |exact Hy].
           ++ intros a items Ha HGa. split; [done|]. apply Hkeep; [|done].
              destruct HGa as [HGa|?]; [apply HG in HGa|]; lia.
           ++ intros a x0 Ha. apply Hkeep; [|done]. intros ->. congruence.
        -- constructor. by apply Hkeep.
      * exists h', eitems'. split_and!; [done..|].
        intros k0 Hk0. rewrite Halias by by apply Hrest. by apply Hother.
    + inversion Hv as [|a' ag g' Hna HGna Hg]; subst. rewrite Hna.
      destruct (deep_merge dict_of_atom (dict_get_default acc k (Group [])) (Group g))
        as [m|e0] eqn:Hm; cbn [obind] in Hloop; [|done].
      set (h1 := hc ++ [ODict []]).
      assert (length h1 = S (length hc)) as Hlen1 by (unfold h1; rewrite length_app; simpl; lia).
      assert (∀ a o, hc !! a = Some o → h1 !! a = Some o) as Hkeep1.
      { intros a o Ha. by apply lookup_app_l_Some. }
      set (G1 := λ a, G a ∨ (e < a ∧ a < length h1)).
      assert (held G1 h1 (h_get h1 e k (length hc)) (dict_get_default acc k (Group [])))
        as Hnode.
      { unfold h_get. rewrite (Hkeep1 _ _ Hstore). unfold dict_get_default.
        pose proof (Forall2_dict_get _ _ _ k Hacc) as Hget. unfold pyval in Hget. revert Hget.
        destruct (dict_get eitems k) as [a|], (dict_get acc k) as [t|]; try done; simpl;
          intros Hget.
        - eapply held_transport; [| |exact Hget].
          + intros a0 items Ha0 HGa0. split; [|by apply Hkeep1].
            apply lookup_lt_Some in Ha0. unfold G1. destruct HGa0; [by left|right; lia].
          + intros a0 x Ha0. by apply Hkeep1.
        - econstructor; [unfold h1; by rewrite list_lookup_middle| |constructor].
          unfold G1. right. lia. }
      assert (held G1 h1 na (Group g)) as Hvalue.
      { eapply held_transport; [| |exact Hv].
        - intros a0 items Ha0 HGa0. split; [by left|by apply Hkeep1].
        - intros a0 x Ha0. by apply Hkeep1. }
      destruct (Hokv G1 fuel h1 (h_get h1 e k (length hc)) na
                  (dict_get_default acc k (Group [])) m)
        as (h2 & mitems & Hsub & Hres & Hmitems & _); try done.
      { intros a [HGa|[_ ?]]; [apply HG in HGa; lia|done]. }
      fold h1. rewrite Hsub.
      destruct (h_deep_merge_frame_aux _ _ _ _ _ _ Hsub) as [Hlen2 Hsame2].
      assert (∀ a o, hc !! a = Some o → h2 !! a = Some o) as Hkeep2.
      { intros a o Ha. rewrite Hsame2; [by apply Hkeep1|].
        apply lookup_lt_Some in Ha. lia. }
      unfold store_item. rewrite (Hkeep2 _ _ Hstore).
      set (h3 := <[e := ODict (dict_set eitems k (length h1))]> h2).
      assert (∀ a o, a ≠ e → h2 !! a = Some o → h3 !! a = Some o) as Hkeep3.
      { intros a o Ha Hlook. unfold h3. by rewrite list_lookup_insert_ne. }
      destruct (IH arest' (dict_set acc k (Group m)) (dict_set eitems k (length h1)) h3 r)
        as (h' & eitems' & Hrun & Hstore' & Hout & Halias); try done.
      * eapply Forall2_impl; [exact Hin|]. intros y z [? Hy]. split; [done|].
        eapply held_transport; [| |exact Hy].
        -- intros a items Ha HGa. split; [done|]. apply Hkeep3; [|by apply Hkeep2].
           apply HG in HGa. lia.
        -- intros a x0 Ha. apply Hkeep3; [|by apply Hkeep2]. intros ->. congruence.
      * unfold h3. rewrite length_insert. lia.
      * unfold h3. apply list_lookup_insert_eq. lia.
      * apply Forall2_dict_set.
        -- eapply Forall2_impl; [exact Hacc|]. intros y z [? Hy]. split; [done|].
           eapply held_transport; [| |exact Hy].
           ++ intros a items Ha HGa. split; [done|]. apply Hkeep3; [|by apply Hkeep2].
              destruct HGa as [HGa|?]; [apply HG in HGa|]; lia.
           ++ intros a x0 Ha. apply Hkeep3; [|by apply Hkeep2]. intros ->. congruence.
        -- econstructor; [apply Hkeep3; [lia|exact Hres]|right; lia|].
           eapply Forall2_impl; [exact Hmitems|]. intros y z [? Hy]. split; [done|].
           eapply held_transport; [| |exact Hy].
           ++ intros a items Ha HGa.
              assert (G a ∨ e < a) as HGa'.
              { destruct HGa as [[?|[? _]]|?]; [by left|by right|right; lia]. }
              split; [done|]. apply Hkeep3; [|done].
              destruct HGa' as [HGa'|?]; [apply HG in HGa'|]; lia.
           ++ intros a x0 Ha. apply Hkeep3; [|done]. intros ->.
              rewrite (Hkeep2 _ _ Hstore) in Ha. congruence.
      * exists h', eitems'. split_and!; [done..|].
        intros k0 Hk0. rewrite Halias by by apply Hrest. by apply Hother.
Qed.

Lemma merge_ok_all (t2 : pyval) : merge_ok t2.
Proof.
  induction t2 as [x|overlay IH] using tree_ind;
    intros G fuel h d1 d2 t1 r HG Hd1 Hd2 Hdepth Hm.
  { rewrite deep_merge_Leaf in Hm. by destruct (py_dict dict_of_atom t1). }
  destruct fuel as [|fuel]; [pose proof (depth_Group_pos overlay); lia|].
  rewrite deep_merge_Group in Hm.
  inversion Hd2 as [|a' a2 items' Ha2 HGd2 Hitems2]; subst.
  rewrite h_deep_merge_S.
  assert (∃ a1 b, h_dict h d1 = Some (Ok (length h), h ++ [ODict a1]) ∧
                  py_dict dict_of_atom t1 = Ok b ∧
                  Forall2 (λ x y, x.1 = y.1 ∧ held G h x.2 y.2) a1 b ∧
                  (∀ aitems, h !! d1 = Some (ODict aitems) → aitems = a1))
    as (a1 & b & Hdict & Hpy & Hbase & Hsame).
  { inversion Hd1 as [a' x Hx|a' a1 b Ha1 HGd1 Hitems1]; subst.
    - simpl in Hm. destruct (dict_of_atom x) as [b|e0] eqn:Hx'; [|done].
      pose proof (dict_of_atom_empty _ _ Hx') as ->.
      exists [], []. unfold h_dict. rewrite Hx, Hx'. split_and!; [done..|constructor|].
      intros aitems ?. congruence.
    - exists a1, b. unfold h_dict. rewrite Ha1. split_and!; [done..|].
      intros aitems ?. congruence. }
  rewrite Hdict, Hpy in *. cbn [obind] in Hm.
  assert (∀ a o, h !! a = Some o → (h ++ [ODict a1]) !! a = Some o) as Hkeep.
  { intros a o Ha. by apply lookup_app_l_Some. }
  rewrite (Hkeep _ _ Ha2).
  destruct (h_merge_loop_ok G fuel (length h) overlay a2 b a1 (h ++ [ODict a1]) r)
    as (h' & eitems' & Hrun & Hstore & Hout & Halias); try done.
  - by apply depth_children.
  - eapply Forall2_impl; [exact Hitems2|]. intros y z [? Hy]. split; [done|].
    eapply held_transport; [| |exact Hy].
    + intros a items Ha HGa. split; [done|by apply Hkeep].
    + intros a x Ha. by apply Hkeep.
  - rewrite length_app. simpl. lia.
  - by rewrite list_lookup_middle.
  - eapply Forall2_impl; [exact Hbase|]. intros y z [? Hy]. split; [done|].
    eapply held_transport; [| |exact Hy].
    + intros a items Ha HGa. split; [by left|by apply Hkeep].
    + intros a x Ha. by apply Hkeep.
  - exists h', eitems'. split_and!; [done..|].
    intros aitems overlay' k Hd1' [= <-] Hk. rewrite (Hsame _ Hd1'). by apply Halias.
Qed.

(** X20: the dict the merge returns and what it shares.  On a store that
    holds the two trees, a merge that returns returns a dict at an address
    that did not exist, and that dict holds the merged tree.  At each key the
    overlay lacks, its entry is the very object the first argument holds at
    that key: dicts nested in the first argument are shared with the result,
    not copied. *)
Theorem h_deep_merge_result (h : heap) (d1 d2 : addr) (base overlay r : dict atom)
    (fuel : nat) :
  held (λ _, True) h d1 (Group base) →
  held (λ _, True) h d2 (Group overlay) →
  depth (Group overlay) ≤ fuel →
  deep_merge dict_of_atom (Group base) (Group overlay) = Ok r →
  ∃ h' ritems,
    h_deep_merge fuel d1 d2 h = Some (Ok (length h), h') ∧
    h !! length h = None ∧
    h' !! length h = Some (ODict ritems) ∧
    held (λ _, True) h' (length h) (Group r) ∧
    (∀ aitems k, h !! d1 = Some (ODict aitems) → k ∉ dict_keys overlay →
                 dict_get ritems k = dict_get aitems k).
Proof.
  intros Hd1 Hd2 Hdepth Hm.
  assert (∀ d t, held (λ _, True) h d t → held (λ a, a < length h) h d t) as Hbound.
  { intros d t Hd. eapply held_transport; [| |exact Hd]; [|done].
    intros a items Ha _. split; [by eapply lookup_lt_Some|done]. }
  destruct (merge_ok_all (Group overlay) (λ a, a < length h) fuel h d1 d2 (Group base) r)
    as (h' & ritems & Hrun & Hstore & Hout & Halias); [done|by apply Hbound..|done|done|].
  exists h', ritems. split_and!; [done|by apply lookup_ge_None|done| |].
  - econstructor; [done..|].
    eapply Forall2_impl; [exact Hout|]. intros y z [? Hy]. split; [done|].
    eapply held_transport; [| |exact Hy]; done.
  - intros aitems k Ha Hk. by apply (Halias aitems overlay k).
Qed.

Lemma h_deep_merge_result_witness :
  ∃ h' ritems,
    h_deep_merge 1 1 3 [ODict []; ODict [("g", 0)]; OValue (AInt 2); ODict [("a", 2)]]
      = Some (Ok 4, h') ∧
    h' !! 4 = Some (ODict ritems) ∧
    dict_get ritems "g" = Some 0.
Proof.
  destruct (h_deep_merge_result
              [ODict []; ODict [("g", 0)]; OValue (AInt 2); ODict [("a", 2)]]
              1 3 [("g", Group [])] [("a", Leaf (AInt 2))]
              [("g", Group []); ("a", Leaf (AInt 2))] 1)
    as (h' & ritems & Hrun & _ & Hstore & _ & Halias).
  - econstructor; [reflexivity|done|].
    constructor; [|constructor]. split; [done|]. econstructor; [reflexivity|done|constructor].
  - econstructor; [reflexivity|done|].
    constructor; [|constructor]. split; [done|]. by constructor.
  - vm_compute. lia.
  - vm_compute. reflexivity.
  - exists h', ritems. split_and!; [exact Hrun|exact Hstore|].
    rewrite (Halias [("g", 0)] "g" eq_refl); [reflexivity|].
    vm_compute. by intros [= ]%list_elem_of_singleton.
Defined.

(** ** The stored schemas are what [create] runs on *)

(** The calls of a pass in which every call returns: one for each leaf of
    the tree it walks, in order. *)
Lemma pass_result_calls (call : leaf → callsite) t evs r :
  pass_result call t evs r →
  inv_call <$> evs =
    (λ l, (cs_field (call l), cs_handler (call l),
           cs_explicit (call l) ++ cs_kwargs (call l))) <$> leaves t.
Proof.
  induction 1 as [l kws v Hb| |k node rest evs1 evs2 r rs _ IH1 _ IH2].
  - rewrite leaves_Leaf. simpl. unfold inv_call. simpl.
    by rewrite (bind_keywords_Ok _ _ _ Hb).
  - done.
  - change (leaves (Group ((k, node) :: rest))) with (leaves node ++ leaves (Group rest)).
    by rewrite !fmap_app, IH1, IH2.
Qed.

Section StoredSchemas.
Context {gstate : Type}.
Variable invoke :
  holder → string → list (string * pyval) → gstate → outcome pyval * gstate.

(** A [create] that returns, on any instance: its two passes over the
    stored trees and its merge. *)
Lemma create_Ok_stored (w : world gstate) (r : dict atom) :
  tree_wf (Group (eager_schema (this w))) →
  tree_wf (Group (lazy_schema (this w))) →
  (create invoke w).1 = Ok r →
  ∃ er lr evs1 evs2,
    new_calls (create invoke) w = evs1 ++ evs2 ∧
    pass_result eager_call (Group (eager_schema (this w))) evs1 (Group er) ∧
    pass_result (lazy_call er) (Group (lazy_schema (this w))) evs2 (Group lr) ∧
    deep_merge dict_of_atom (Group er) (Group lr) = Ok r.
Proof.
  intros Hwfe Hwfl Hok.
  pose proof (create_two_pass invoke w w eq_refl) as Hcreate.
  unfold two_pass in Hcreate. rewrite mbind_eq in Hcreate.
  destruct (_evaluate_eager invoke (eager_schema (this w)) w)
    as [[er|e] w1] eqn:He; [|by rewrite Hcreate in Hok].
  rewrite mbind_eq in Hcreate.
  destruct (_evaluate_lazy invoke (lazy_schema (this w)) er w1)
    as [[lr|e] w2] eqn:Hl; [|by rewrite Hcreate in Hok].
  destruct (eager_pass_result invoke _ _ w er w1 eq_refl Hwfe He) as (evs1 & Hlog1 & Hres1).
  destruct (lazy_pass_result invoke er _ _ w1 lr w2 eq_refl Hwfl Hl) as (evs2 & Hlog2 & Hres2).
  exists er, lr, evs1, evs2. split_and!; [|done..|].
  - apply new_calls_log. rewrite Hcreate. unfold mlift. simpl.
    by rewrite Hlog2, Hlog1, <- app_assoc.
  - rewrite Hcreate in Hok. by unfold mlift in Hok.
Qed.

(** C7: the constructor classifies the schema once and stores the two
    trees, without calling a generator.  [create], on any instance, reads the
    stored trees and nothing else, and leaves them as they are: whatever it
    calls is the call of a leaf of the stored eager tree, with the static
    arguments of the leaf, or the call of a leaf of the stored lazy tree,
    with [_eager_data] before them, and no holder is asked for its kind
    again, so that a leaf stored in the eager tree is called in the eager
    pass whatever its holder is.  When [create] returns, it has called every
    leaf of the stored eager tree and then every leaf of the stored lazy
    tree, once and in order, and its result is the merge of the tree of the
    values of the first calls with the tree of the values of the second.
    Two schemas with the same two extractions give the same [create]. *)
Theorem create_uses_stored_schemas (schema : SchemaType) (g : gstate) :
  this (construct schema g) =
    {| eager_schema := _extract_schema schema EAGER_TYPES;
       lazy_schema := _extract_schema schema LAZY_TYPES |} ∧
  gen (construct schema g) = g ∧
  log (construct schema g) = [] ∧
  (∀ w : world gstate,
     create invoke w =
       two_pass invoke (eager_schema (this w)) (lazy_schema (this w)) w ∧
     this (create invoke w).2 = this w) ∧
  (∀ (w : world gstate) (inv : invocation),
     inv ∈ new_calls (create invoke) w →
     ∃ l,
       (l ∈ leaves (Group (eager_schema (this w))) ∧
        inv_call inv = (leaf_field l, leaf_handler l, leaf_kwargs l)) ∨
       (l ∈ leaves (Group (lazy_schema (this w))) ∧
        ∃ eager_results,
          inv_call inv =
            (leaf_field l, leaf_handler l,
             (EAGER_DATA, Group eager_results) :: leaf_kwargs l))) ∧
  (∀ (w : world gstate) (r : dict atom),
     tree_wf (Group (eager_schema (this w))) →
     tree_wf (Group (lazy_schema (this w))) →
     (create invoke w).1 = Ok r →
     ∃ eager_results lazy_results evs_eager evs_lazy,
       new_calls (create invoke) w = evs_eager ++ evs_lazy ∧
       inv_call <$> evs_eager =
         (λ l, (leaf_field l, leaf_handler l, leaf_kwargs l))
           <$> leaves (Group (eager_schema (this w))) ∧
       inv_call <$> evs_lazy =
         (λ l, (leaf_field l, leaf_handler l,
                (EAGER_DATA, Group eager_results) :: leaf_kwargs l))
           <$> leaves (Group (lazy_schema (this w))) ∧
       pass_result eager_call (Group (eager_schema (this w))) evs_eager
         (Group eager_results) ∧
       pass_result (lazy_call eager_results) (Group (lazy_schema (this w))) evs_lazy
         (Group lazy_results) ∧
       deep_merge dict_of_atom (Group eager_results) (Group lazy_results) = Ok r) ∧
  (∀ schema' : SchemaType,
     _extract_schema schema' EAGER_TYPES = _extract_schema schema EAGER_TYPES →
     _extract_schema schema' LAZY_TYPES = _extract_schema schema LAZY_TYPES →
     create invoke (construct schema' g) = create invoke (construct schema g)).
Proof.
  split_and!; [done..| | | |].
  - intros w. split; [by apply create_two_pass|].
    destruct (create_run invoke w) as (evs1 & _ & _ & Hrun).
    destruct (_evaluate_eager invoke _ w).1 as [er|e].
    + by destruct Hrun as (? & ? & _ & _ & _ & ?).
    + by destruct Hrun as (_ & _ & ?).
  - intros w inv Hin.
    destruct (create_run invoke w) as (evs1 & _ & Htrace1 & Hrun).
    assert (inv ∈ evs1 →
            ∃ l, l ∈ leaves (Group (eager_schema (this w))) ∧
                 inv_call inv = (leaf_field l, leaf_handler l, leaf_kwargs l)) as Heager.
    { intros Hin1.
      destruct (calls_trace_sites _ _ _ _ Htrace1 Hin1) as (c & Hc & Hf & Hh & Hb).
      apply list_elem_of_fmap in Hc as (l & -> & Hl). exists l. split; [done|].
      simpl in *. rewrite bind_keywords_nil in Hb. injection Hb as Hb.
      unfold inv_call. by rewrite Hf, Hh, <- Hb. }
    destruct (_evaluate_eager invoke _ w).1 as [er|e1].
    + destruct Hrun as (evs2 & r2 & Htrace2 & _ & Hnew & _).
      rewrite Hnew in Hin. apply elem_of_app in Hin as [Hin|Hin].
      * destruct (Heager Hin) as (l & Hl & Hcall). exists l. by left.
      * destruct (calls_trace_sites _ _ _ _ Htrace2 Hin) as (c & Hc & Hf & Hh & Hb).
        apply list_elem_of_fmap in Hc as (l & -> & Hl). exists l. right.
        split; [done|]. exists er.
        simpl in *. apply bind_keywords_Ok in Hb.
        unfold inv_call. by rewrite Hf, Hh, Hb.
    + destruct Hrun as (_ & Hnew & _). rewrite Hnew in Hin.
      destruct (Heager Hin) as (l & Hl & Hcall). exists l. by left.
  - intros w r Hwfe Hwfl Hok.
    destruct (create_Ok_stored w r Hwfe Hwfl Hok)
      as (er & lr & evs1 & evs2 & Hnew & Hres1 & Hres2 & Hm).
    exists er, lr, evs1, evs2. split_and!; [done| | |done..].
    + by rewrite (pass_result_calls _ _ _ _ Hres1).
    + by rewrite (pass_result_calls _ _ _ _ Hres2).
  - intros schema' HE HL. unfold construct, __init__. by rewrite HE, HL.
Qed.
End StoredSchemas.

(** An instance whose stored eager tree holds a leaf of the lazy kind:
    [create] calls it in the eager pass, without [_eager_data]. *)
Lemma create_uses_stored_schemas_witness :
  ∃ eager_results lazy_results evs_eager evs_lazy,
    new_calls (create demo_invoke)
        (MkWorld {| eager_schema := [("x", Leaf (MkLeaf lazy_field "word" []))];
                    lazy_schema := [("g", Group [("y", Leaf (MkLeaf field "increment" []))])] |}
                 0 [])
      = evs_eager ++ evs_lazy ∧
    inv_call <$> evs_eager = [(lazy_field, "word", [])] ∧
    inv_call <$> evs_lazy = [(field, "increment", [(EAGER_DATA, Group eager_results)])] ∧
    pass_result eager_call (Group [("x", Leaf (MkLeaf lazy_field "word" []))]) evs_eager
      (Group eager_results) ∧
    pass_result (lazy_call eager_results)
      (Group [("g", Group [("y", Leaf (MkLeaf field "increment" []))])]) evs_lazy
      (Group lazy_results) ∧
    deep_merge dict_of_atom (Group eager_results) (Group lazy_results)
      = Ok [("x", Leaf (AStr "word")); ("g", Group [("y", Leaf (AInt 1))])].
Proof.
  apply (proj1 (proj2 (proj2 (proj2 (proj2 (proj2
           (create_uses_stored_schemas demo_invoke [] 0))))))
           (MkWorld {| eager_schema := [("x", Leaf (MkLeaf lazy_field "word" []))];
                       lazy_schema :=
                         [("g", Group [("y", Leaf (MkLeaf field "increment" []))])] |}
                    0 [])
           [("x", Leaf (AStr "word")); ("g", Group [("y", Leaf (AInt 1))])]).
  - by apply tree_wfb_sound.
  - by apply tree_wfb_sound.
  - vm_compute. reflexivity.
Defined.
